(** * Particle image viewer: shader trajectory, geometry sampler and
      viewer life cycle

    A shallow embedding of the particle transition engine:
    - [particles.vert] and [particles.frag] as functions over real numbers
      (GLSL [float] and the JavaScript [number] used for times and uniforms
      are idealised as [R]: no rounding, no NaN);
    - the attribute generation loop of [ParticleViewer.open] and
      [ParticleViewer.updateStartPositions] with its roundings: binary64
      arithmetic, and [Float32Array]s modelled as lists written by index
      whose entries are rounded to binary32;
    - the viewer object as a record of its fields, with the closures handed
      to [requestAnimationFrame] defunctionalised into a [Frame] value that
      the browser fires later. *)

From Stdlib Require Import Reals Lra Lia ZArith.
From stdpp Require Import base option list strings gmap.

Open Scope R_scope.

(** ** GLSL built-ins used by the two shaders *)

Module GLSL.

Record vec3 : Type := Vec3 { vx : R; vy : R; vz : R }.

Definition vec3_splat (s : R) : vec3 := Vec3 s s s.

Definition vadd (a b : vec3) : vec3 :=
  Vec3 (vx a + vx b) (vy a + vy b) (vz a + vz b).

Definition vscale (a : vec3) (s : R) : vec3 :=
  Vec3 (vx a * s) (vy a * s) (vz a * s).

Definition vmul (a b : vec3) : vec3 :=
  Vec3 (vx a * vx b) (vy a * vy b) (vz a * vz b).

(** [pos.z += s] *)
Definition add_z (a : vec3) (s : R) : vec3 := Vec3 (vx a) (vy a) (vz a + s).

Definition length3 (a : vec3) : R :=
  sqrt (vx a * vx a + vy a * vy a + vz a * vz a).

(** [normalize(v) = v / length(v)]; on the zero vector GLSL leaves the
    result undefined, here it is whatever [/ 0] is in [R]. *)
Definition normalize (a : vec3) : vec3 :=
  Vec3 (vx a / length3 a) (vy a / length3 a) (vz a / length3 a).

Definition clamp (x lo hi : R) : R := Rmin (Rmax x lo) hi.

(** [mix(x, y, a) = x * (1 - a) + y * a] *)
Definition mix (x y a : R) : R := x * (1 - a) + y * a.

Definition vmix (x y : vec3) (a : R) : vec3 :=
  Vec3 (mix (vx x) (vx y) a) (mix (vy x) (vy y) a) (mix (vz x) (vz y) a).

Definition smoothstep (edge0 edge1 x : R) : R :=
  let t := clamp ((x - edge0) / (edge1 - edge0)) 0 1 in
  t * t * (3 - 2 * t).

End GLSL.

Import GLSL.

Declare Scope vec_scope.
Delimit Scope vec_scope with vec.
Bind Scope vec_scope with vec3.
Infix "+v" := vadd (at level 50, left associativity) : vec_scope.
Infix "*s" := vscale (at level 40, left associativity) : vec_scope.

(** ** particles.vert *)

Module Vert.

Record Uniforms : Type := MkUniforms {
  uTime : R;
  uProgress : R;
  uSize : R;
  uMode : R;
  uQuality : R;
  uDispersion : R
}.

(** Per-vertex inputs: three.js's [position] (the planar grid vertex) and the
    three custom attributes declared by the shader. *)
Record Attributes : Type := MkAttributes {
  position : vec3;
  aStartPosition : vec3;
  aCurveOffset : vec3;
  aDelay : R
}.

Definition bezierQuadratic (p0 p1 p2 : vec3) (t : R) : vec3 :=
  let oneMinusT := 1 - t in
  (p0 *s (oneMinusT * oneMinusT) +v p1 *s (2 * oneMinusT * t) +v p2 *s (t * t))%vec.

Section Particle.

Variable u : Uniforms.
Variable a : Attributes.

Definition disperseDir : vec3 :=
  normalize (aStartPosition a +v aCurveOffset a *s 0.5 +v vec3_splat 0.001)%vec.

Definition disperseStrength (p : R) : R :=
  let disintegratePhase := smoothstep 0 0.4 p in
  let s0 := 1 - disintegratePhase in
  let s1 := s0 * s0 in
  s1 * mix 1 (smoothstep 0 0.3 p) (uMode u).

Definition floatOffset (p : R) : vec3 :=
  let uniquePhase := vx (aCurveOffset a) * 6.28318 + vy (aCurveOffset a) * 3.14159 in
  let floatTime := uTime u * 1.5 + uniquePhase in
  let floatStrength := sin (p * 3.14159) * 0.7 * mix 1 0.2 (uMode u) in
  (Vec3 (sin floatTime * vx (aCurveOffset a))
        (cos (floatTime * 0.7) * vy (aCurveOffset a))
        (sin (floatTime * 0.5) * vz (aCurveOffset a) * 0.5)
     *s floatStrength *s 80)%vec.

Definition morphDir : vec3 :=
  Vec3 (sin (vx (aCurveOffset a) * 20 + uTime u * 5))
       (cos (vy (aCurveOffset a) * 20 + uTime u * 3))
       (sin (vz (aCurveOffset a) * 20)).

Definition getParticlePosition (p : R) (finalPos : vec3) : vec3 :=
  (* phase 1: disintegration *)
  let disperseOffset := (disperseDir *s disperseStrength p *s 200)%vec in
  let zSeparation := disperseStrength p * vz (aCurveOffset a) * 300 in
  (* phase 2: free travel *)
  let travelPhase := smoothstep 0.3 0.75 p in
  let curveFactor := mix 250 50 (uMode u) in
  let midPoint := (vmix (aStartPosition a) finalPos 0.5 +v aCurveOffset a *s curveFactor)%vec in
  let bezierPos := bezierQuadratic (aStartPosition a) midPoint finalPos travelPhase in
  (* phase 3: settling *)
  let settlePhase := smoothstep 0.7 1 p in
  let settleEase := settlePhase * settlePhase * (3 - 2 * settlePhase) in
  let activeEffects := 1 - settleEase in
  (* combine *)
  let pos := bezierPos in
  let pos := (pos +v disperseOffset *s activeEffects)%vec in
  let pos := add_z pos (zSeparation * activeEffects) in
  let pos := (pos +v floatOffset p *s activeEffects)%vec in
  (* image transition *)
  let pos := (pos +v morphDir *s uDispersion u *s 400)%vec in
  let pos := add_z pos (uDispersion u * 80) in
  pos.

Definition localProgress : R :=
  clamp ((uProgress u - aDelay a) / (1 - aDelay a)) 0 1.

(** The outputs of [main] that do not need the camera matrices. *)
Record Outputs : Type := MkOutputs {
  vRandom : R;
  vProgress : R;
  vShapeMix : R;
  vRotation : R;
  currentPos : vec3;
  nextPos : vec3;
  pointSize : R
}.

Definition main : Outputs :=
  let flyState :=
    smoothstep 0 0.2 localProgress * (1 - smoothstep 0.8 1 localProgress) in
  {| vRandom := vx (aCurveOffset a);
     vProgress := localProgress;
     vShapeMix := Rmax flyState (uDispersion u);
     vRotation := (uTime u * 3 + vx (aCurveOffset a) * 10) * flyState
                  + uDispersion u * (vy (aCurveOffset a) * 60);
     currentPos := getParticlePosition localProgress (position a);
     nextPos := getParticlePosition (Rmin (localProgress + 0.005) 1) (position a);
     pointSize := uSize u * smoothstep 0 0.25 localProgress |}.

End Particle.

End Vert.

(** ** particles.frag: shape selection *)

Module Frag.

(** Lines 63-68: the rotated square is the default, replaced by the circle
    below -0.2 and by the triangle above 0.2. *)
Definition selectShape {A : Type} (vRandom : R) (rotated circle triangle : A) : A :=
  if Rlt_dec vRandom (-0.2) then circle
  else if Rgt_dec vRandom 0.2 then triangle
  else rotated.

Definition targetShapeDist (vRandom distRotated distCircle distTriangle : R) : R :=
  selectShape vRandom distRotated distCircle distTriangle.

Inductive Shape : Type := Square | Circle | Triangle.

Definition targetShape (vRandom : R) : Shape :=
  selectShape vRandom Square Circle Triangle.

End Frag.


(** ** Floating-point numbers of the attribute loops *)

(** The loops that fill the vertex attributes compute in JavaScript
    [number]s and store into [Float32Array]s.  Both roundings are modelled:
    a number is a real that the format holds, an operation returns the
    nearest such real (ties to even).  Infinities and NaN are not modelled:
    the coordinates are pixel counts, far from the overflow threshold, and a
    division by zero is excluded by the hypotheses of the statements. *)

Module IEEE.

(** Nearest integer, ties to the even one. *)
Definition rne (x : R) : Z :=
  let f := Zfloor x in
  let d := x - IZR f in
  if Rlt_dec d (1 / 2) then f
  else if Rlt_dec (1 / 2) d then (f + 1)%Z
  else if Z.even f then f else (f + 1)%Z.

(** The binary exponent of [x]: [2^(mag x - 1) <= |x| < 2^(mag x)]. *)
Definition mag (x : R) : Z := (Zfloor (ln (Rabs x) / ln 2) + 1)%Z.

(** The nearest number with [prec] significant bits whose last bit weighs at
    least [2^(emin - prec)]. *)
Definition round (prec emin : Z) (x : R) : R :=
  let e := Z.max (mag x) emin in
  IZR (rne (x * powerRZ 2 (prec - e))) * powerRZ 2 (e - prec).

End IEEE.

Declare Scope js_scope.
Delimit Scope js_scope with js.

(** A JavaScript [number] is a binary64 value (53 significant bits, last bit
    at least [2^-1074]) and every arithmetic operation returns the binary64
    number nearest to the exact result. *)
Module F64.

Definition round : R -> R := IEEE.round 53 (-1021).

Definition add (x y : R) : R := round (x + y).
Definition sub (x y : R) : R := round (x - y).
Definition mul (x y : R) : R := round (x * y).
Definition div (x y : R) : R := round (x / y).
Definition sqrt (x : R) : R := round (R_sqrt.sqrt x).
(** Changing the sign is exact. *)
Definition neg (x : R) : R := - x.

#[global] Arguments add (x y)%_js.
#[global] Arguments sub (x y)%_js.
#[global] Arguments mul (x y)%_js.
#[global] Arguments div (x y)%_js.
#[global] Arguments sqrt x%_js.
#[global] Arguments neg x%_js.

End F64.

(** A store into a [Float32Array] keeps the binary32 number nearest to the
    value (24 significant bits, last bit at least [2^-149]), as
    [Math.fround] does. *)
Module F32.

Definition fround : R -> R := IEEE.round 24 (-125).

End F32.

(** Inside [(...)%js] the arithmetic signs are the binary64 operations; a
    literal stands for the real it denotes, so a literal that binary64 does
    not hold is written [F64.round c]. *)
Notation "x + y" := (F64.add x y) : js_scope.
Notation "x - y" := (F64.sub x y) : js_scope.
Notation "x * y" := (F64.mul x y) : js_scope.
Notation "x / y" := (F64.div x y) : js_scope.
Notation "- x" := (F64.neg x) : js_scope.

(** ** Geometry sampler: the attribute loops of [open] and
       [updateStartPositions] *)

Module Sampler.

(** A [Float32Array] is a list of reals, each entry the binary32 rounding of
    what was stored.  A write past the end of a typed array is ignored, which
    is what the list insert [<[i:=x]>] does.  A read past the end gives
    [undefined] (NaN once used in arithmetic); it does not happen while [uv]
    holds two entries per vertex, and reads as 0 here. *)
Definition at_index (arr : list R) (i : nat) : R := default 0 (arr !! i).

Record Rect : Type := MkRect {
  rect_left : R;
  rect_top : R;
  rect_width : R;
  rect_height : R
}.

(** What the loops read from the page at the time they run. *)
Record View : Type := MkView {
  imgRect : Rect;
  vpWidth : R;
  vpHeight : R;
  viewWidth : R;
  viewHeight : R
}.

(** [calculateViewDimensions], also written out in [open] (lines 463-472). *)
Definition calculateViewDimensions
    (imageWidth imageHeight padding vpW vpH : R) : R * R :=
  let imgAspect := (imageWidth / imageHeight)%js in
  let vpAspect := (vpW / vpH)%js in
  if Rgt_dec imgAspect vpAspect then
    let viewWidth := (imageWidth * padding)%js in
    (viewWidth, (viewWidth / vpAspect)%js)
  else
    let viewHeight := (imageHeight * padding)%js in
    ((viewHeight * vpAspect)%js, viewHeight).

Definition startX (vw : View) (u : R) : R :=
  let sourcePx := (rect_left (imgRect vw) + u * rect_width (imgRect vw))%js in
  (sourcePx / vpWidth vw * viewWidth vw - viewWidth vw / 2)%js.

Definition startY (vw : View) (v : R) : R :=
  let sourcePy := (rect_top (imgRect vw) + (1 - v) * rect_height (imgRect vw))%js in
  (- (sourcePy / vpHeight vw) * viewHeight vw + viewHeight vw / 2)%js.

Definition maxDistance : R := F64.sqrt (0.5 * 0.5 + 0.5 * 0.5).

Definition normalizedDistance (u v : R) : R :=
  let centerU := (u - 0.5)%js in
  let centerV := (v - 0.5)%js in
  let distanceFromCenter := F64.sqrt (centerU * centerU + centerV * centerV) in
  (distanceFromCenter / maxDistance)%js.

(** [(Math.random() - 0.5) * 4.0], with the draw [r] made explicit. *)
Definition curveOffsetOf (r : R) : R := ((r - 0.5) * 4)%js.

(** The literal [0.05] is the binary64 number nearest to 0.05; the other
    literals of the loop are binary64 numbers as they stand. *)
Definition delayOf (u v r : R) : R :=
  ((1 - normalizedDistance u v) * 0.25 + r * F64.round 0.05)%js.

Definition rotationSpeedOf (r : R) : R := ((r - 0.5) * 20)%js.

(** The four arrays filled by the loop of [open], and the number of
    [Math.random()] calls made so far. *)
Record Buffers : Type := MkBuffers {
  startPositions : list R;
  curveOffsets : list R;
  delays : list R;
  rotationSpeeds : list R;
  draws : nat
}.

Definition newBuffers (count : nat) : Buffers :=
  {| startPositions := replicate (count * 3)%nat 0;
     curveOffsets := replicate (count * 3)%nat 0;
     delays := replicate count 0;
     rotationSpeeds := replicate count 0;
     draws := 0%nat |}.

Section Loop.

Variable vw : View.
Variable uvs : list R.
(** [random k] is the value of the [k]-th call of [Math.random()]. *)
Variable random : nat -> R.

(** Body of the loop of [open], lines 484-506.  Every assignment to an array
    element rounds to binary32; 0 is stored as it is. *)
Definition sampleParticle (b : Buffers) (i : nat) : Buffers :=
  let u := at_index uvs (i * 2)%nat in
  let v := at_index uvs (i * 2 + 1)%nat in
  let n := draws b in
  {| startPositions :=
       <[(i * 3 + 2)%nat := 0]>
         (<[(i * 3 + 1)%nat := F32.fround (startY vw v)]>
            (<[(i * 3)%nat := F32.fround (startX vw u)]> (startPositions b)));
     curveOffsets :=
       <[(i * 3 + 2)%nat := 0]>
         (<[(i * 3 + 1)%nat := F32.fround (curveOffsetOf (random (n + 1)%nat))]>
            (<[(i * 3)%nat := F32.fround (curveOffsetOf (random n))]> (curveOffsets b)));
     delays := <[i := F32.fround (delayOf u v (random (n + 2)%nat))]> (delays b);
     rotationSpeeds :=
       <[i := F32.fround (rotationSpeedOf (random (n + 3)%nat))]> (rotationSpeeds b);
     draws := (n + 4)%nat |}.

Definition sampleAll (count : nat) : Buffers :=
  foldl sampleParticle (newBuffers count) (seq 0 count).

(** Body of the loop of [updateStartPositions], lines 779-784: x and y are
    rewritten, z is left as it is. *)
Definition updateStartPosition (startPositions : list R) (i : nat) : list R :=
  let u := at_index uvs (i * 2)%nat in
  let v := at_index uvs (i * 2 + 1)%nat in
  <[(i * 3 + 1)%nat := F32.fround (startY vw v)]>
    (<[(i * 3)%nat := F32.fround (startX vw u)]> startPositions).

Definition updateStartPositionsLoop (count : nat) (startPositions : list R) : list R :=
  foldl updateStartPosition startPositions (seq 0 count).

End Loop.

End Sampler.

(** ** The viewer object *)

Module Viewer.

(** *** Page elements, three.js objects and the browser *)

(** An [<img>]: its identity and its attributes. *)
Record Img : Type := MkImg {
  img_id : nat;
  img_attrs : gmap string string
}.

(** An element matched by the image selector: either an [<img>] itself or an
    element that may contain one ([getImageFromItem]). *)
Record Item : Type := MkItem {
  item_id : nat;
  item_focusable : bool;        (* [focus()] moves the focus to it: a link, a
                                   button, an element with a [tabindex] *)
  item_img : option Img
}.

Record Caption : Type := MkCaption {
  innerText : string;
  caption_visible : bool        (* class [visible] *)
}.

Record Dot : Type := MkDot {
  dot_active : bool;            (* class [active] *)
  dot_shown : bool              (* [display: flex] rather than [none] *)
}.

Inductive Focus : Type :=
| FocusElsewhere
| FocusCloseButton
| FocusItem (id : nat).

Record Bg : Type := MkBg {
  bg_id : nat;
  bg_src : option string;
  bg_opaque : bool;             (* [opacity: 1] rather than [0] *)
  bg_duration : R;              (* transition duration and delay, in ms *)
  bg_delay : R
}.

(** A decoded texture; [tex_id] is the identity of the object. *)
Record Texture : Type := MkTexture {
  tex_id : nat;
  naturalWidth : R;
  naturalHeight : R
}.

Definition same_texture (a b : Texture) : bool := Nat.eqb (tex_id a) (tex_id b).

Record Geometry : Type := MkGeometry {
  position : list R;
  uv : list R;
  aStartPosition : list R;
  aCurveOffset : list R;
  aDelay : list R;
  aRotationSpeed : list R
}.

(** What [new THREE.PlaneGeometry(w, h, segments, segments)] provides. *)
Record PlaneData : Type := MkPlaneData {
  pg_position : list R;
  pg_uv : list R
}.

Record ShaderUniforms : Type := MkShaderUniforms {
  uTime : R;
  uTexture : Texture;
  uTextureNext : Texture;
  uTextureMix : R;
  uProgress : R;
  uSize : R;
  uOpacity : R;
  uMode : R;
  uDispersion : R
}.

Record Points : Type := MkPoints {
  geometry : Geometry;
  uniforms : ShaderUniforms;
  points_visible : bool
}.

(** The mesh is built on the geometry object of the points: it has no
    geometry of its own. *)
Record Mesh : Type := MkMesh {
  map : Texture;
  opacity : R;
  mesh_visible : bool
}.

Inductive Child : Type := ChildPoints | ChildMesh.

#[global] Instance Child_eq_dec : EqDecision Child.
Proof. solve_decision. Defined.

Record Camera : Type := MkCamera {
  cam_left : R;
  cam_right : R;
  cam_top : R;
  cam_bottom : R
}.

Record Renderer : Type := MkRenderer {
  size : option (R * R);
  pixelRatio : R
}.

Record Config : Type := MkConfig {
  segments : nat;
  padding : R;
  openDuration : R;
  closeDuration : R;
  crossfadeStart : R;
  srcAttribute : string
}.

(** The handlers stored per item by [bindEvents]. *)
Inductive Handler : Type := HandlerOpen (item : nat) | HandlerLoadThree.

Record Handlers : Type := MkHandlers {
  click : Handler;
  mouseenter : Handler;
  touchstart : Handler
}.

(** The callback passed to [tweenProgress] by [close]. *)
Inductive Completion : Type := OnCloseComplete.

(** The closures handed to [requestAnimationFrame], with what they capture. *)
Inductive Frame : Type :=
| TweenFrame (target duration startValue startTime : R) (onComplete : option Completion)
| DisperseFrame (startTime : R) (newItem : Item) (newTexture : Texture)
| AssembleFrame (startTime : R)
| AnimateFrame
| BgFadeIn (bg : nat).

Inductive Material : Type := PointsMaterial | MeshMaterial.

#[global] Instance Material_eq_dec : EqDecision Material.
Proof. solve_decision. Defined.

Inductive Effect : Type :=
| CancelAnimationFrame (id : nat)
| DisposeMaterial (m : Material)
| DisposeGeometry
| DisposeTempGeometry
| DisposeTexture (id : nat)
| DisposeRenderer
| Render
| ConsoleError.

#[global] Instance Effect_eq_dec : EqDecision Effect.
Proof. solve_decision. Defined.

(** What the page and the libraries answer when asked, at the time of one
    event. *)
Record Env : Type := MkEnv {
  innerWidth : R;
  innerHeight : R;
  devicePixelRatio : R;
  reducedMotion : bool;                       (* [prefersReducedMotion()] *)
  lowPerformance : bool;                      (* [isLowPerformance()] *)
  now : R;                                    (* [Date.now()] *)
  elapsedTime : R;                            (* [clock.getElapsedTime()] *)
  rectOf : nat -> Sampler.Rect;               (* [getBoundingClientRect()] of an image *)
  planeGeometry : R -> R -> nat -> PlaneData;
  random : nat -> R                           (* successive [Math.random()] *)
}.

Record State : Type := MkState {
  config : Config;
  images : list Item;
  captionElement : option Caption;
  dotsContainer : option (list Dot);
  paginationStartIndex : Z;
  THREE : bool;                    (* whether the three.js module is loaded *)
  scene : option (list Child);     (* the scene and its children *)
  clock : bool;                    (* whether [this.clock] is set *)
  camera : option Camera;
  renderer : option Renderer;
  currentPoints : option Points;
  currentMesh : option Mesh;
  isAnimating : bool;
  sourceImage : option Img;
  animationId : option nat;
  renderId : option nat;
  currentIndex : Z;
  imageWidth : R;
  imageHeight : R;
  imageHandlers : gmap nat Handlers;   (* keyed by the identity of the item *)
  containerVisible : bool;         (* class [visible] on the container *)
  bodyOverflow : string;           (* [document.body.style.overflow] *)
  activeElement : Focus;
  backgrounds : list Bg;           (* the [.particle-bg] children, in order *)
  listenersBound : bool;           (* keydown, resize, touchstart, touchend *)
  itemListeners : gset nat;        (* items with their three listeners *)
  rafNext : nat;                   (* next handle of [requestAnimationFrame] *)
  rafPending : gmap nat Frame;     (* callbacks waiting for a frame *)
  timeouts : list (nat * R);       (* [setTimeout]s: background to remove, delay *)
  nodeNext : nat;                  (* identity of the next element created *)
  trace : list Effect              (* calls made on the outside, oldest first *)
}.

Definition maxVisibleDots : Z := 5.

Definition emit (e : Effect) (s : State) : State :=
  {| s with trace := trace s ++ [e] |}.

(** *** Small helpers *)

Definition getImageFromItem (item : Item) : option Img := item_img item.

Definition getAttribute (img : Img) (name : string) : option string :=
  img_attrs img !! name.

(** JavaScript's [a || b] on attribute values: [null] and the empty string
    are falsy. *)
Definition or_else (a b : option string) : option string :=
  match a with
  | Some EmptyString | None => b
  | Some _ => a
  end.

Definition truthy (a : option string) : bool :=
  match a with
  | Some EmptyString | None => false
  | Some _ => true
  end.

Definition sourceOf (cfg : Config) (img : Img) : option string :=
  or_else (getAttribute img (srcAttribute cfg)) (getAttribute img "src"%string).

Definition altOf (img : Img) : string :=
  match getAttribute img "alt"%string with
  | Some EmptyString | None => EmptyString
  | Some t => t
  end.

(** [Array.from(this.images).indexOf(item)]: items are compared by identity;
    -1 when absent. *)
Fixpoint indexOfFrom (l : list Item) (item : Item) (i : Z) : Z :=
  match l with
  | [] => (-1)%Z
  | x :: l' =>
      if Nat.eqb (item_id x) (item_id item) then i else indexOfFrom l' item (i + 1)%Z
  end.

Definition indexOf (l : list Item) (item : Item) : Z := indexOfFrom l item 0%Z.

(** [this.images[i]] *)
Definition imageAt (l : list Item) (i : Z) : option Item :=
  if (i <? 0)%Z then None else l !! Z.to_nat i.

Definition requestAnimationFrame (f : Frame) (s : State) : nat * State :=
  (rafNext s,
   {| s with rafPending := <[rafNext s := f]> (rafPending s); rafNext := S (rafNext s) |}).

Definition cancelAnimationFrame (id : nat) (s : State) : State :=
  emit (CancelAnimationFrame id) {| s with rafPending := delete id (rafPending s) |}.

Definition with_uniforms (f : ShaderUniforms -> ShaderUniforms) (p : Points) : Points :=
  {| p with uniforms := f (uniforms p) |}.

(** An assignment to a uniform of the material of [this.currentPoints]; there
    is nothing to assign to when no points exist. *)
Definition set_uniforms (f : ShaderUniforms -> ShaderUniforms) (s : State) : State :=
  {| s with currentPoints := with_uniforms f <$> currentPoints s |}.

Definition set_caption_visible (b : bool) (s : State) : State :=
  {| s with captionElement :=
       (fun c => {| c with caption_visible := b |}) <$> captionElement s |}.

Definition set_points (f : Points -> Points) (s : State) : State :=
  {| s with currentPoints := f <$> currentPoints s |}.

Definition set_mesh (f : Mesh -> Mesh) (s : State) : State :=
  {| s with currentMesh := f <$> currentMesh s |}.

Definition show_mesh (o : R) (m : Mesh) : Mesh :=
  {| m with mesh_visible := true; opacity := o |}.

Definition hide_mesh (m : Mesh) : Mesh :=
  {| m with mesh_visible := false; opacity := 0 |}.

Definition render (s : State) : State :=
  match renderer s, scene s, camera s with
  | Some _, Some _, Some _ => emit Render s
  | _, _, _ => s
  end.

(** *** Pagination *)

Definition updatePaginationVisibility (s : State) : State :=
  match dotsContainer s with
  | None => s
  | Some dots =>
      let total := Z.of_nat (length (images s)) in
      let startIndex := paginationStartIndex s in
      let endIndex := Z.min (startIndex + maxVisibleDots) total in
      let startIndex :=
        if ((endIndex - startIndex <? maxVisibleDots)%Z && (maxVisibleDots <=? total)%Z)%bool
        then (total - maxVisibleDots)%Z else startIndex in
      let isVisible (i : nat) :=
        ((startIndex <=? Z.of_nat i)%Z && (Z.of_nat i <? endIndex)%Z)%bool in
      {| s with dotsContainer :=
           Some (imap (fun i d => {| d with dot_shown := isVisible i |}) dots) |}
  end.

Definition updatePagination (s : State) : State :=
  match dotsContainer s with
  | None => s
  | Some dots =>
      let dots :=
        imap (fun i d => {| d with dot_active := (Z.of_nat i =? currentIndex s)%Z |}) dots in
      let s := {| s with dotsContainer := Some dots |} in
      let total := Z.of_nat (length (images s)) in
      let s :=
        if (maxVisibleDots <? total)%Z then
          let minStart := Z.max 0 (currentIndex s - maxVisibleDots + 1) in
          let maxStart := Z.min (currentIndex s) (total - maxVisibleDots) in
          if (paginationStartIndex s <? minStart)%Z then
            {| s with paginationStartIndex := minStart |}
          else if (maxStart <? paginationStartIndex s)%Z then
            {| s with paginationStartIndex := maxStart |}
          else s
        else s in
      updatePaginationVisibility s
  end.

(** *** Background layer *)

(** [updateBackground]: a new blurred image is inserted before the canvas,
    that is after the backgrounds already there; it fades in at the next
    frame and the older ones are removed after [duration]. *)
Definition updateBackground (src : option string) (duration delay : R) (s : State) : State :=
  let img := {| bg_id := nodeNext s; bg_src := src; bg_opaque := false;
                bg_duration := duration; bg_delay := delay |} in
  let s := {| s with nodeNext := S (nodeNext s); backgrounds := backgrounds s ++ [img] |} in
  let existingBgs := backgrounds s in
  let s := (requestAnimationFrame (BgFadeIn (bg_id img)) s).2 in
  if (1 <? length existingBgs)%nat then
    {| s with timeouts :=
         timeouts s ++
         ((fun oldImg => (bg_id oldImg, duration)) <$>
            take (length existingBgs - 1) existingBgs) |}
  else s.

Definition fadeInBackground (id : nat) (s : State) : State :=
  {| s with backgrounds :=
       (fun b => if Nat.eqb (bg_id b) id then {| b with bg_opaque := true |} else b)
         <$> backgrounds s |}.

Definition removeBackground (id : nat) (s : State) : State :=
  {| s with backgrounds := filter (fun b => bg_id b <> id) (backgrounds s) |}.

(** *** Camera and start positions *)

Section WithEnv.

Variable env : Env.

Definition calculateViewDimensions (s : State) : R * R :=
  Sampler.calculateViewDimensions (imageWidth s) (imageHeight s) (padding (config s))
    (innerWidth env) (innerHeight env).

Definition updateCamera (s : State) : State :=
  match currentPoints s, renderer s, camera s with
  | Some _, Some r, Some _ =>
      let vpWidth := innerWidth env in
      let vpHeight := innerHeight env in
      let r := {| size := Some (vpWidth, vpHeight);
                  pixelRatio := Rmin (devicePixelRatio env) 2 |} in
      let '(viewWidth, viewHeight) := calculateViewDimensions s in
      let cam := {| cam_left := - viewWidth / 2; cam_right := viewWidth / 2;
                    cam_top := viewHeight / 2; cam_bottom := - viewHeight / 2 |} in
      let scale := vpHeight / viewHeight in
      let pointWorldSize := imageWidth s / INR (segments (config s)) in
      let pointPixelSize := pointWorldSize * scale * pixelRatio r in
      set_uniforms (fun u => {| u with uSize := Rmax pointPixelSize 2 |})
        {| s with renderer := Some r; camera := Some cam |}
  | _, _, _ => s
  end.

Definition viewOf (img : Img) (s : State) : Sampler.View :=
  let '(viewWidth, viewHeight) := calculateViewDimensions s in
  {| Sampler.imgRect := rectOf env (img_id img);
     Sampler.vpWidth := innerWidth env;
     Sampler.vpHeight := innerHeight env;
     Sampler.viewWidth := viewWidth;
     Sampler.viewHeight := viewHeight |}.

Definition updateStartPositions (s : State) : State :=
  match currentPoints s, sourceImage s with
  | Some pts, Some img =>
      let g := geometry pts in
      let count := (length (aStartPosition g) / 3)%nat in
      let startPositions :=
        Sampler.updateStartPositionsLoop (viewOf img s) (uv g) count (aStartPosition g) in
      set_points (fun p => let g := geometry p in
                           {| p with geometry :=
                                {| g with aStartPosition := startPositions |} |}) s
  | _, _ => s
  end.

End WithEnv.

(** *** Releasing a session *)

Definition cleanupScene (s : State) : State :=
  let s := match animationId s with
           | Some id => cancelAnimationFrame id s
           | None => s
           end in
  let s := {| s with isAnimating := false |} in
  match currentPoints s, scene s with
  | Some pts, Some children =>
      let texture := uTexture (uniforms pts) in
      let textureNext := uTextureNext (uniforms pts) in
      let children := filter (fun c => c <> ChildPoints) children in
      let s := emit (DisposeMaterial PointsMaterial) s in
      let s := {| s with currentPoints := None; sourceImage := None |} in
      let '(children, s) :=
        match currentMesh s with
        | Some _ =>
            let s := emit (DisposeMaterial MeshMaterial) s in
            (filter (fun c => c <> ChildMesh) children, {| s with currentMesh := None |})
        | None => (children, s)
        end in
      let s := {| s with scene := Some children |} in
      let s := emit DisposeGeometry s in
      let s := emit (DisposeTexture (tex_id texture)) s in
      if same_texture textureNext texture then s
      else emit (DisposeTexture (tex_id textureNext)) s
  | _, _ => s
  end.

(** *** Tweening the progress uniform *)

(** The callback [onAnimationComplete] that [close] hands to
    [tweenProgress]. *)
Definition onAnimationComplete (s : State) : State :=
  let s := {| s with containerVisible := false |} in
  let s := set_caption_visible false s in
  let s := {| s with bodyOverflow := EmptyString |} in
  let s := cleanupScene s in
  let s := {| s with backgrounds := [] |} in
  match imageAt (images s) (currentIndex s) with
  | Some item =>
      if item_focusable item then {| s with activeElement := FocusItem (item_id item) |}
      else s
  | None => s
  end.

Definition runCompletion (onComplete : option Completion) (s : State) : State :=
  match onComplete with
  | Some OnCloseComplete => onAnimationComplete s
  | None => s
  end.

Definition hide_points (p : Points) : Points :=
  let p := with_uniforms (fun u => {| u with uOpacity := 0 |}) p in
  {| p with points_visible := false |}.

Definition remove_visible (s : State) : State :=
  set_caption_visible false {| s with containerVisible := false |}.

Section Animation.

Variable env : Env.

(** The closure [frame] of [tweenProgress], lines 824-866.  Its captured
    [material] is the material of the points the tween was started on, which
    are still the current ones whenever the frame runs. *)
Definition tweenFrame (target duration startValue startTime : R)
    (onComplete : option Completion) (s : State) : State :=
  let elapsed := now env - startTime in
  let progress := Rmin (elapsed / duration) 1 in
  let easedProgress := 1 - (1 - progress) ^ 4 in
  let s := set_uniforms
             (fun u => {| u with uProgress := startValue + (target - startValue) * easedProgress |})
             s in
  let s :=
    if Req_dec_T target 0 then
      if Rgt_dec progress 0.6 then
        if containerVisible s then remove_visible s else s
      else s
    else s in
  let s :=
    if Req_dec_T target 1 then
      match currentMesh s with
      | Some _ =>
          let start := crossfadeStart (config s) in
          if Rgt_dec progress start then
            let fadeProgress := (progress - start) / (1 - start) in
            set_uniforms (fun u => {| u with uOpacity := 1 - fadeProgress |})
              (set_mesh (show_mesh fadeProgress) s)
          else
            set_uniforms (fun u => {| u with uOpacity := 1 |}) (set_mesh hide_mesh s)
      | None => s
      end
    else s in
  if Rlt_dec progress 1 then
    let '(id, s) :=
      requestAnimationFrame (TweenFrame target duration startValue startTime onComplete) s in
    {| s with animationId := Some id |}
  else
    let s :=
      if Req_dec_T target 1 then set_mesh (show_mesh 1) (set_points hide_points s)
      else s in
    let s := {| s with isAnimating := false |} in
    runCompletion onComplete s.

Definition tweenProgress (target duration : R) (onComplete : option Completion)
    (s : State) : State :=
  match currentPoints s with
  | None => s
  | Some pts =>
      let effectiveDuration := if reducedMotion env then 0 else duration in
      if Rle_dec effectiveDuration 0 then
        let s := set_uniforms (fun u => {| u with uProgress := target |}) s in
        let s :=
          if Req_dec_T target 1 then
            render (set_points hide_points (set_mesh (show_mesh 1) s))
          else if Req_dec_T target 0 then remove_visible s
          else s in
        runCompletion onComplete s
      else
        let s := {| s with isAnimating := true |} in
        let startValue := uProgress (uniforms pts) in
        let startTime := now env in
        let s := match animationId s with
                 | Some id => cancelAnimationFrame id s
                 | None => s
                 end in
        tweenFrame target duration startValue startTime onComplete s
  end.

(** *** Render loop *)

Definition animate (s : State) : State :=
  if (negb (containerVisible s) && negb (isAnimating s))%bool then
    {| s with renderId := None |}
  else
    let s := if clock s
             then set_uniforms (fun u => {| u with uTime := elapsedTime env |}) s
             else s in
    let s := render s in
    let '(id, s) := requestAnimationFrame AnimateFrame s in
    {| s with renderId := Some id |}.

(** *** Opening *)

Definition initThreeJS (s : State) : State :=
  if (negb (THREE s) || bool_decide (is_Some (scene s)))%bool then s
  else
    {| s with scene := Some [];
              clock := true;
              camera := Some {| cam_left := -1; cam_right := 1; cam_top := 1; cam_bottom := -1 |};
              renderer := Some {| size := None; pixelRatio := 1 |} |}.

(** What [open] has in hand when it asks the loader for the texture. *)
Record OpenRequest : Type := MkOpenRequest {
  open_img : Img;
  open_src : option string
}.

(** [open] up to the call of [TextureLoader.load]; the module import awaited
    in between is taken to succeed with nothing else happening meanwhile. *)
Definition open (item : Item) (s : State) : State * option OpenRequest :=
  if isAnimating s then (s, None)
  else
    let s := if bool_decide (is_Some (currentPoints s)) then cleanupScene s else s in
    match getImageFromItem item with
    | None => (s, None)
    | Some img =>
        let s := {| s with THREE := true |} in
        let s := initThreeJS s in
        match scene s, renderer s, camera s, clock s with
        | Some _, Some _, Some _, true =>
            let s := {| s with currentIndex := indexOf (images s) item |} in
            let s := updatePagination s in
            let s := {| s with sourceImage := Some img |} in
            let s := {| s with captionElement :=
                          (fun c => {| innerText := altOf img; caption_visible := true |})
                            <$> captionElement s |} in
            (s, Some {| open_img := img; open_src := sourceOf (config s) img |})
        | _, _, _, _ => (s, None)
        end
    end.

Definition newGeometry (plane : PlaneData) (b : Sampler.Buffers) : Geometry :=
  {| position := pg_position plane;
     uv := pg_uv plane;
     aStartPosition := Sampler.startPositions b;
     aCurveOffset := Sampler.curveOffsets b;
     aDelay := Sampler.delays b;
     aRotationSpeed := Sampler.rotationSpeeds b |}.

Definition newUniforms (texture : Texture) : ShaderUniforms :=
  {| uTime := 0; uTexture := texture; uTextureNext := texture; uTextureMix := 0;
     uProgress := 0; uSize := 2; uOpacity := 1; uMode := 0; uDispersion := 0 |}.

(** The success callback of the loader in [open], lines 440-552. *)
Definition open_onload (req : OpenRequest) (texture : Texture) (s : State) : State :=
  let img := open_img req in
  let bgDuration := if reducedMotion env then 0 else openDuration (config s) in
  let bgDelay := if reducedMotion env then 0 else 600 in
  let s := updateBackground (open_src req) bgDuration bgDelay s in
  let imgWidth := naturalWidth texture in
  let imgHeight := naturalHeight texture in
  let s := {| s with imageWidth := imgWidth; imageHeight := imgHeight |} in
  let plane := planeGeometry env imgWidth imgHeight (segments (config s)) in
  let count := (length (pg_position plane) / 3)%nat in
  let buffers := Sampler.sampleAll (viewOf env img s) (pg_uv plane) (random env) count in
  let pts := {| geometry := newGeometry plane buffers;
                uniforms := newUniforms texture;
                points_visible := true |} in
  let s := {| s with currentPoints := Some pts;
                     scene := (fun c => c ++ [ChildPoints]) <$> scene s |} in
  let mesh := {| map := texture; opacity := 0; mesh_visible := false |} in
  let s := {| s with currentMesh := Some mesh;
                     scene := (fun c => c ++ [ChildMesh]) <$> scene s |} in
  let s := {| s with containerVisible := true;
                     bodyOverflow := "hidden"%string;
                     activeElement := FocusCloseButton |} in
  let s := updateCamera env s in
  let s := tweenProgress 1 (openDuration (config s)) None s in
  match renderId s with
  | None | Some O => animate s
  | Some _ => s
  end.

(** *** Closing *)

Definition close (s : State) : State :=
  if (isAnimating s || negb (bool_decide (is_Some (currentPoints s))))%bool then s
  else
    let s := set_mesh hide_mesh s in
    let s := set_points
               (fun p =>
                  let p := with_uniforms (fun u => {| u with uOpacity := 1; uMode := 1 |}) p in
                  {| p with points_visible := true |}) s in
    let s := {| s with backgrounds :=
                  (fun b => {| b with bg_duration := closeDuration (config s);
                                      bg_delay := 0; bg_opaque := false |})
                    <$> backgrounds s |} in
    tweenProgress 0 (closeDuration (config s)) (Some OnCloseComplete) s.

(** *** Navigation between images *)

Definition next_index (s : State) : Z :=
  Z.rem (currentIndex s + 1) (Z.of_nat (length (images s))).

Definition prev_index (s : State) : Z :=
  Z.rem (currentIndex s - 1 + Z.of_nat (length (images s))) (Z.of_nat (length (images s))).

(** What [transitionTo] has in hand when it asks the loader for the texture. *)
Record NavRequest : Type := MkNavRequest {
  nav_item : Item;
  nav_src : option string
}.

(** [transitionTo] up to the call of [TextureLoader.load].  An index outside
    [this.images] makes [getImageFromItem(undefined)] raise after
    [isAnimating] has been set; that state is what is returned then. *)
Definition transitionTo (newIndex : Z) (s : State) : State * option NavRequest :=
  if (isAnimating s || negb (THREE s))%bool then (s, None)
  else
    let s := {| s with isAnimating := true |} in
    match imageAt (images s) newIndex with
    | None => (s, None)
    | Some newItem =>
        let newImgSrc :=
          match getImageFromItem newItem with
          | Some newImage => sourceOf (config s) newImage
          | None => None
          end in
        match currentPoints s, currentMesh s with
        | Some _, Some _ =>
            if truthy newImgSrc then
              (set_caption_visible false s,
               Some {| nav_item := newItem; nav_src := newImgSrc |})
            else ({| s with isAnimating := false |}, None)
        | _, _ => ({| s with isAnimating := false |}, None)
        end
    end.

Definition next (s : State) : State * option NavRequest :=
  if (isAnimating s || (length (images s) <=? 1)%nat)%bool then (s, None)
  else transitionTo (next_index s) s.

Definition prev (s : State) : State * option NavRequest :=
  if (isAnimating s || (length (images s) <=? 1)%nat)%bool then (s, None)
  else transitionTo (prev_index s) s.

(** The handler of a pagination dot. *)
Definition dotClick (index : Z) (s : State) : State * option NavRequest :=
  if (negb (currentIndex s =? index)%Z && negb (isAnimating s))%bool
  then transitionTo index s else (s, None).

Definition swapImageContent (newItem : Item) (newTexture : Texture) (s : State) : State :=
  match currentPoints s, currentMesh s, THREE s with
  | Some _, Some _, true =>
      match getImageFromItem newItem with
      | None => s
      | Some newImage =>
          let bgDuration := if reducedMotion env then 0 else 1200 in
          let s := updateBackground (sourceOf (config s) newImage) bgDuration 0 s in
          let s := {| s with sourceImage := Some newImage |} in
          let s := {| s with currentIndex := indexOf (images s) newItem |} in
          let s := updatePagination s in
          let s := {| s with captionElement :=
                        (fun c => {| innerText := altOf newImage; caption_visible := true |})
                          <$> captionElement s |} in
          let s := set_uniforms
                     (fun u => {| u with uTexture := newTexture;
                                         uTextureNext := newTexture;
                                         uTextureMix := 0 |}) s in
          let s := set_mesh (fun m => {| m with map := newTexture |}) s in
          let imgWidth := naturalWidth newTexture in
          let imgHeight := naturalHeight newTexture in
          let tempGeo := planeGeometry env imgWidth imgHeight (segments (config s)) in
          let s := set_points
                     (fun p => let g := geometry p in
                               {| p with geometry :=
                                    {| g with position := pg_position tempGeo |} |}) s in
          let s := {| s with imageWidth := imgWidth; imageHeight := imgHeight |} in
          let s := emit DisposeTempGeometry s in
          let s := updateStartPositions env s in
          updateCamera env s
      end
  | _, _, _ => s
  end.

Definition animateReassembly (s : State) : State :=
  let startTime := now env in
  let '(id, s) := requestAnimationFrame (AssembleFrame startTime) s in
  {| s with animationId := Some id |}.

(** The closure [assembleFrame], lines 711-739. *)
Definition assembleFrame (startTime : R) (s : State) : State :=
  let elapsed := now env - startTime in
  let progress := Rmin (elapsed / 800) 1 in
  let ease := 1 - (1 - progress) ^ 4 in
  let dispersionValue := 1 - ease in
  let s := set_uniforms (fun u => {| u with uDispersion := dispersionValue |}) s in
  let crossfadeStart := 0.5 in
  let s :=
    if Rgt_dec progress crossfadeStart then
      match currentMesh s, currentPoints s with
      | Some _, Some _ =>
          let fadeProgress := (progress - crossfadeStart) / (1 - crossfadeStart) in
          set_uniforms (fun u => {| u with uOpacity := 1 - fadeProgress |})
            (set_mesh (show_mesh fadeProgress) s)
      | _, _ => s
      end
    else s in
  if Rlt_dec progress 1 then
    let '(id, s) := requestAnimationFrame (AssembleFrame startTime) s in
    {| s with animationId := Some id |}
  else
    let s := {| s with isAnimating := false |} in
    let s := set_mesh (show_mesh 1) s in
    set_points (fun p => {| p with points_visible := false |}) s.

(** The closure [disperseFrame], lines 642-658. *)
Definition disperseFrame (startTime : R) (newItem : Item) (newTexture : Texture)
    (s : State) : State :=
  let elapsed := now env - startTime in
  let progress := Rmin (elapsed / 800) 1 in
  let ease := progress * progress * (3 - 2 * progress) in
  let s := set_uniforms (fun u => {| u with uDispersion := ease; uTextureMix := ease |}) s in
  if Rlt_dec progress 1 then
    let '(id, s) := requestAnimationFrame (DisperseFrame startTime newItem newTexture) s in
    {| s with animationId := Some id |}
  else
    animateReassembly (swapImageContent newItem newTexture s).

(** The success callback of the loader in [transitionTo], lines 618-659. *)
Definition transition_onload (req : NavRequest) (newTexture : Texture) (s : State) : State :=
  let newItem := nav_item req in
  if reducedMotion env then
    let s := swapImageContent newItem newTexture s in
    let s := set_mesh (show_mesh 1) s in
    let s := set_points (fun p => {| p with points_visible := false |}) s in
    {| s with isAnimating := false |}
  else
    let s := set_mesh (fun m => {| m with mesh_visible := false |}) s in
    let s := set_points
               (fun p =>
                  let p := with_uniforms
                             (fun u => {| u with uOpacity := 1; uTextureNext := newTexture |}) p in
                  {| p with points_visible := true |}) s in
    let startTime := now env in
    let '(id, s) := requestAnimationFrame (DisperseFrame startTime newItem newTexture) s in
    {| s with animationId := Some id |}.

(** The error callback of the loader in [transitionTo], lines 660-663. *)
Definition transition_onerror (s : State) : State :=
  let s := emit ConsoleError s in
  {| s with isAnimating := false |}.

(** The outcome of a texture load. *)
Inductive Loaded : Type :=
| LoadSuccess (texture : Texture)
| LoadFailure.

(** [open] passes the loader a success callback only. *)
Definition open_loaded (req : OpenRequest) (r : Loaded) (s : State) : State :=
  match r with
  | LoadSuccess texture => open_onload req texture s
  | LoadFailure => s
  end.

Definition transition_loaded (req : NavRequest) (r : Loaded) (s : State) : State :=
  match r with
  | LoadSuccess texture => transition_onload req texture s
  | LoadFailure => transition_onerror s
  end.

(** *** The browser runs a pending callback *)

Definition runFrame (f : Frame) (s : State) : State :=
  match f with
  | TweenFrame target duration startValue startTime onComplete =>
      tweenFrame target duration startValue startTime onComplete s
  | DisperseFrame startTime newItem newTexture =>
      disperseFrame startTime newItem newTexture s
  | AssembleFrame startTime => assembleFrame startTime s
  | AnimateFrame => animate s
  | BgFadeIn bg => fadeInBackground bg s
  end.

Definition fireFrame (id : nat) (s : State) : State :=
  match rafPending s !! id with
  | Some f => runFrame f {| s with rafPending := delete id (rafPending s) |}
  | None => s
  end.

(** *** Resize *)

Definition boundResize (s : State) : State :=
  if containerVisible s then updateStartPositions env (updateCamera env s) else s.

End Animation.

(** The first pending [setTimeout] of [updateBackground] expires. *)
Definition fireTimeout (s : State) : State :=
  match timeouts s with
  | (bg, _) :: rest => removeBackground bg {| s with timeouts := rest |}
  | [] => s
  end.

(** *** Tearing the viewer down *)

Definition destroy (s : State) : State :=
  let s := if containerVisible s
           then {| s with containerVisible := false; bodyOverflow := EmptyString |}
           else s in
  let s := match animationId s with
           | Some id => let s := cancelAnimationFrame id s in
                        {| s with animationId := None |}
           | None => s
           end in
  let s := match renderId s with
           | Some id => let s := cancelAnimationFrame id s in
                        {| s with renderId := None |}
           | None => s
           end in
  let s := cleanupScene s in
  let s := match renderer s with
           | Some _ => let s := emit DisposeRenderer s in
                       {| s with renderer := None |}
           | None => s
           end in
  let s := {| s with listenersBound := false |} in
  let s := {| s with itemListeners :=
                filter (fun id => imageHandlers s !! id = None) (itemListeners s) |} in
  let s := {| s with imageHandlers := ∅ |} in
  {| s with backgrounds := [] |}.

(** *** Construction *)

Record UserConfig : Type := MkUserConfig {
  user_segments : option nat;
  user_padding : option R;
  user_openDuration : option R;
  user_closeDuration : option R;
  user_crossfadeStart : option R;
  user_srcAttribute : option string
}.

Definition defaultConfig : Config :=
  {| segments := 180; padding := 1.1; openDuration := 2000; closeDuration := 1200;
     crossfadeStart := 0.2; srcAttribute := "src"%string |}.

Definition mergeConfig (env : Env) (userConfig : UserConfig) : Config :=
  let isMobile := if Rlt_dec (innerWidth env) 768 then true else false in
  let cfg :=
    {| segments := default (if lowPerformance env then 40%nat
                            else if isMobile then 80%nat
                            else segments defaultConfig)
                           (user_segments userConfig);
       padding := default (padding defaultConfig) (user_padding userConfig);
       openDuration := default (openDuration defaultConfig) (user_openDuration userConfig);
       closeDuration := default (closeDuration defaultConfig) (user_closeDuration userConfig);
       crossfadeStart := default (crossfadeStart defaultConfig) (user_crossfadeStart userConfig);
       srcAttribute := default (srcAttribute defaultConfig) (user_srcAttribute userConfig) |} in
  if reducedMotion env then {| cfg with openDuration := 0; closeDuration := 0 |} else cfg.

Definition bindEvents (s : State) : State :=
  let handlersOf (item : Item) :=
    {| click := HandlerOpen (item_id item);
       mouseenter := HandlerLoadThree;
       touchstart := HandlerLoadThree |} in
  {| s with imageHandlers :=
              foldl (fun m item => <[item_id item := handlersOf item]> m)
                    (imageHandlers s) (images s);
            itemListeners := itemListeners s ∪ list_to_set (item_id <$> images s);
            listenersBound := true |}.

Definition initPagination (hasPaginationElement : bool) (s : State) : State :=
  if hasPaginationElement then
    let dots := replicate (length (images s)) {| dot_active := false; dot_shown := true |} in
    updatePaginationVisibility {| s with dotsContainer := Some dots |}
  else s.

(** The constructor, once the container and its controls have been found. *)
Definition construct (env : Env) (userConfig : UserConfig) (imgs : list Item)
    (caption : option Caption) (hasPaginationElement : bool) : State :=
  let s :=
    {| config := mergeConfig env userConfig;
       images := imgs;
       captionElement := caption;
       dotsContainer := None;
       paginationStartIndex := 0;
       THREE := false;
       scene := None;
       clock := false;
       camera := None;
       renderer := None;
       currentPoints := None;
       currentMesh := None;
       isAnimating := false;
       sourceImage := None;
       animationId := None;
       renderId := None;
       currentIndex := 0;
       imageWidth := 0;
       imageHeight := 0;
       imageHandlers := ∅;
       containerVisible := false;
       bodyOverflow := EmptyString;
       activeElement := FocusElsewhere;
       backgrounds := [];
       listenersBound := false;
       itemListeners := ∅;
       rafNext := 1;
       rafPending := ∅;
       timeouts := [];
       nodeNext := 0;
       trace := [] |} in
  let s := bindEvents s in
  if (1 <? length imgs)%nat then initPagination hasPaginationElement s else s.

End Viewer.

(** ** Vocabulary of the statements *)

(** The attributes that fix the identity and the flight of the particles:
    planar positions, curve offsets, delays and rotation speeds. *)
Definition flightParameters (s : Viewer.State) : option (list R * list R * list R * list R) :=
  (fun p => let g := Viewer.geometry p in
            (Viewer.position g, Viewer.aCurveOffset g, Viewer.aDelay g, Viewer.aRotationSpeed g))
    <$> Viewer.currentPoints s.

(** The state [s] with the [aStartPosition] array of its points replaced. *)
Definition withStartPositions (a : list R) (s : Viewer.State) : Viewer.State :=
  Viewer.set_points
    (fun p => let g := Viewer.geometry p in
              {| p with Viewer.geometry := {| g with Viewer.aStartPosition := a |} |}) s.

(** The call that cancels the request [o], if there is one. *)
Definition cancels (o : option nat) : list Viewer.Effect :=
  match o with
  | Some id => [Viewer.CancelAnimationFrame id]
  | None => []
  end.

(** The disposal calls owed to a session: both materials, the shared
    geometry and the textures held by the two uniform slots. *)
Definition releases (pts : Viewer.Points) (mesh : option Viewer.Mesh) : list Viewer.Effect :=
  let texture := Viewer.uTexture (Viewer.uniforms pts) in
  let textureNext := Viewer.uTextureNext (Viewer.uniforms pts) in
  [Viewer.DisposeMaterial Viewer.PointsMaterial]
  ++ match mesh with
     | Some _ => [Viewer.DisposeMaterial Viewer.MeshMaterial]
     | None => []
     end
  ++ [Viewer.DisposeGeometry; Viewer.DisposeTexture (Viewer.tex_id texture)]
  ++ (if Viewer.same_texture textureNext texture then []
      else [Viewer.DisposeTexture (Viewer.tex_id textureNext)]).

Definition is_cancel (e : Viewer.Effect) : bool :=
  match e with
  | Viewer.CancelAnimationFrame _ => true
  | _ => false
  end.

(** How many times [e] occurs in a trace. *)
Definition occurrences (e : Viewer.Effect) (t : list Viewer.Effect) : nat :=
  length (filter (fun x => x = e) t).

Definition unrequest (o : option nat) (m : gmap nat Viewer.Frame) : gmap nat Viewer.Frame :=
  match o with
  | Some id => delete id m
  | None => m
  end.

(** Points exist only inside a scene, and a mesh only next to its points. *)
Definition session_wf (s : Viewer.State) : Prop :=
  (is_Some (Viewer.currentPoints s) -> is_Some (Viewer.scene s)) /\
  (is_Some (Viewer.currentMesh s) -> is_Some (Viewer.currentPoints s)).
(** ** Concrete inputs used by the examples *)

Definition sample_uniforms (progress mode : R) : Vert.Uniforms :=
  {| Vert.uTime := 2; Vert.uProgress := progress; Vert.uSize := 3;
     Vert.uMode := mode; Vert.uQuality := 1; Vert.uDispersion := 0 |}.

Definition sample_particle : Vert.Attributes :=
  {| Vert.position := Vec3 (-40) 25 0;
     Vert.aStartPosition := Vec3 120 (-80) 0;
     Vert.aCurveOffset := Vec3 1.5 (-0.5) 0;
     Vert.aDelay := 0.25 |}.


(** A thumbnail at (100, 50) of size 300 x 200 in a 1000 x 800 window, shown
    in a view of 660 x 528 world units. *)
Definition sample_view : Sampler.View :=
  {| Sampler.imgRect := Sampler.MkRect 100 50 300 200;
     Sampler.vpWidth := 1000; Sampler.vpHeight := 800;
     Sampler.viewWidth := 660; Sampler.viewHeight := 528 |}.

(** The uv array of a plane with one segment per side: four corner vertices. *)
Definition sample_uvs : list R := [0; 1; 1; 1; 0; 0; 1; 0].

Definition sample_random (k : nat) : R := 0.5.

(** A single vertex at the centre of the image, and a draw of
    [Math.random()] close to 1: [1 - 2^-25]. *)
Definition centre_uvs : list R := [0.5; 0.5].
Definition late_draw : R := 33554431 / 33554432.

(** The binary32 number next to 0.30, above it: 0.30000001192092896. *)
Definition delay_max : R := 10066330 / 33554432.

(** A gallery of three images, the second one shown full screen. *)
Definition sample_img (k : nat) : Viewer.Img :=
  {| Viewer.img_id := k;
     Viewer.img_attrs := <["alt"%string := "A photo"%string]> {["src"%string := "photo.jpg"%string]} |}.

Definition sample_item (k : nat) : Viewer.Item :=
  {| Viewer.item_id := k; Viewer.item_focusable := true;
     Viewer.item_img := Some (sample_img k) |}.

Definition sample_items : list Viewer.Item := [sample_item 0; sample_item 1; sample_item 2].

Definition sample_config : Viewer.Config :=
  {| Viewer.segments := 1; Viewer.padding := 1.1; Viewer.openDuration := 2000;
     Viewer.closeDuration := 1200; Viewer.crossfadeStart := 0.2;
     Viewer.srcAttribute := "src"%string |}.

Definition sample_texture (k : nat) : Viewer.Texture :=
  {| Viewer.tex_id := k; Viewer.naturalWidth := 600; Viewer.naturalHeight := 400 |}.

(** The four corners of a [w] x [h] plane with one segment per side. *)
Definition sample_plane (w h : R) (segments : nat) : Viewer.PlaneData :=
  {| Viewer.pg_position :=
       [- w / 2; h / 2; 0; w / 2; h / 2; 0; - w / 2; - h / 2; 0; w / 2; - h / 2; 0];
     Viewer.pg_uv := sample_uvs |}.

(** The page at time [t] (in ms), with or without the reduced-motion
    preference. *)
Definition sample_env (t : R) (reduced : bool) : Viewer.Env :=
  {| Viewer.innerWidth := 1000; Viewer.innerHeight := 800;
     Viewer.devicePixelRatio := 1;
     Viewer.reducedMotion := reduced;
     Viewer.lowPerformance := false;
     Viewer.now := t;
     Viewer.elapsedTime := t / 1000;
     Viewer.rectOf := fun _ => Sampler.MkRect 100 50 300 200;
     Viewer.planeGeometry := sample_plane;
     Viewer.random := sample_random |}.

Definition sample_geometry : Viewer.Geometry :=
  {| Viewer.position := Viewer.pg_position (sample_plane 600 400 1);
     Viewer.uv := sample_uvs;
     Viewer.aStartPosition := [-264; 231; 0; -66; 231; 0; -264; 99; 0; -66; 99; 0];
     Viewer.aCurveOffset := [0; 0; 0; 0; 0; 0; 0; 0; 0; 0; 0; 0];
     Viewer.aDelay := [0.025; 0.025; 0.025; 0.025];
     Viewer.aRotationSpeed := [0; 0; 0; 0] |}.

Definition sample_points : Viewer.Points :=
  {| Viewer.geometry := sample_geometry;
     Viewer.uniforms :=
       {| Viewer.uTime := 0; Viewer.uTexture := sample_texture 1;
          Viewer.uTextureNext := sample_texture 1; Viewer.uTextureMix := 0;
          Viewer.uProgress := 1; Viewer.uSize := 10000 / 11; Viewer.uOpacity := 0;
          Viewer.uMode := 0; Viewer.uDispersion := 0 |};
     Viewer.points_visible := false |}.

Definition sample_mesh : Viewer.Mesh :=
  {| Viewer.map := sample_texture 1; Viewer.opacity := 1; Viewer.mesh_visible := true |}.

Definition sample_handlers (k : nat) : Viewer.Handlers :=
  {| Viewer.click := Viewer.HandlerOpen k;
     Viewer.mouseenter := Viewer.HandlerLoadThree;
     Viewer.touchstart := Viewer.HandlerLoadThree |}.

(** The viewer showing image 1, its opening animation finished: the mesh is
    displayed, the points are hidden, the render loop has one request
    pending (handle 5) and [animationId] still holds the handle of the last
    tween frame, which has run. *)
Definition sample_open : Viewer.State :=
  {| Viewer.config := sample_config;
     Viewer.images := sample_items;
     Viewer.captionElement :=
       Some {| Viewer.innerText := "A photo"%string; Viewer.caption_visible := true |};
     Viewer.dotsContainer :=
       Some [Viewer.MkDot false true; Viewer.MkDot true true; Viewer.MkDot false true];
     Viewer.paginationStartIndex := 0;
     Viewer.THREE := true;
     Viewer.scene := Some [Viewer.ChildPoints; Viewer.ChildMesh];
     Viewer.clock := true;
     Viewer.camera := Some (Viewer.MkCamera (-330) 330 264 (-264));
     Viewer.renderer := Some {| Viewer.size := Some (1000, 800); Viewer.pixelRatio := 1 |};
     Viewer.currentPoints := Some sample_points;
     Viewer.currentMesh := Some sample_mesh;
     Viewer.isAnimating := false;
     Viewer.sourceImage := Some (sample_img 1);
     Viewer.animationId := Some 3%nat;
     Viewer.renderId := Some 5%nat;
     Viewer.currentIndex := 1;
     Viewer.imageWidth := 600;
     Viewer.imageHeight := 400;
     Viewer.imageHandlers :=
       <[2%nat := sample_handlers 2]>
         (<[1%nat := sample_handlers 1]> {[0%nat := sample_handlers 0]});
     Viewer.containerVisible := true;
     Viewer.bodyOverflow := "hidden"%string;
     Viewer.activeElement := Viewer.FocusCloseButton;
     Viewer.backgrounds :=
       [{| Viewer.bg_id := 0; Viewer.bg_src := Some "photo.jpg"%string;
           Viewer.bg_opaque := true; Viewer.bg_duration := 2000; Viewer.bg_delay := 600 |}];
     Viewer.listenersBound := true;
     Viewer.itemListeners := {[0%nat; 1%nat; 2%nat]};
     Viewer.rafNext := 6;
     Viewer.rafPending := {[5%nat := Viewer.AnimateFrame]};
     Viewer.timeouts := [];
     Viewer.nodeNext := 1;
     Viewer.trace := [] |}.

(** The same viewer configured with a padding of 1.25, and the page after the
    window has been resized to 1024 x 512, where the thumbnail now lies at
    (256, 128) with size 512 x 256. *)
Definition sample_open_padded : Viewer.State :=
  {| sample_open with Viewer.config := {| sample_config with Viewer.padding := 1.25 |} |}.

Definition sample_env_resized : Viewer.Env :=
  {| Viewer.innerWidth := 1024; Viewer.innerHeight := 512;
     Viewer.devicePixelRatio := 1;
     Viewer.reducedMotion := false;
     Viewer.lowPerformance := false;
     Viewer.now := 0;
     Viewer.elapsedTime := 0;
     Viewer.rectOf := fun _ => Sampler.MkRect 256 128 512 256;
     Viewer.planeGeometry := sample_plane;
     Viewer.random := sample_random |}.

(** ** Fallback detection ([performance.ts])

    The module exists in two revisions.  [Performance.Network] is
    [src/lib/particle-viewer/performance.ts], whose [isLowPerformance] looks
    at the connection only and whose [isWebGLSupported] also tries
    [webgl2]; [Performance.Hardware] is the revision bundled with the
    viewer, which adds the memory and CPU checks. *)

Module Performance.

Record Connection : Type := MkConnection {
  saveData : option bool;
  effectiveType : option string
}.

(** [navigator], with the optional members the module reads. *)
Record Navigator : Type := MkNavigator {
  connection : option Connection;
  deviceMemory : option R;
  hardwareConcurrency : option nat
}.

(** What [canvas.getContext(name)] does: a context, [null], or an
    exception. *)
Inductive ContextResult : Type :=
| Context
| Null
| Throws.

Record Page : Type := MkPage {
  reducedMotionMatches : bool;       (* [matchMedia(...).matches] *)
  navigator : Navigator;
  getContext : string -> ContextResult
}.

Definition prefersReducedMotion (p : Page) : bool := reducedMotionMatches p.

(** [a || b || ...] over [getContext] calls inside [try]: the calls are made
    from the left until one gives a context; the result is [gl !== null],
    and [false] when a call made throws. *)
Fixpoint firstContext (p : Page) (names : list string) : bool :=
  match names with
  | [] => false
  | name :: names' =>
      match getContext p name with
      | Context => true
      | Null => firstContext p names'
      | Throws => false
      end
  end.

Definition slowConnection (nav : Navigator) : bool :=
  let effectiveType := connection nav ≫= effectiveType in
  match effectiveType with
  | Some t => (String.eqb t "2g" || String.eqb t "slow-2g")%bool
  | None => false
  end.

Definition dataSaver (nav : Navigator) : bool :=
  match connection nav ≫= saveData with
  | Some true => true
  | _ => false
  end.

Module Network.

Definition isLowPerformance (p : Page) : bool :=
  let nav := navigator p in
  if dataSaver nav then true
  else if slowConnection nav then true
  else false.

Definition isWebGLSupported (p : Page) : bool :=
  firstContext p ["webgl2"; "webgl"; "experimental-webgl"]%string.

Definition shouldUseFallback (p : Page) : bool :=
  (prefersReducedMotion p || isLowPerformance p || negb (isWebGLSupported p))%bool.

Definition getFallbackReason (p : Page) : option string :=
  if prefersReducedMotion p then Some "prefers-reduced-motion"%string
  else if negb (isWebGLSupported p) then Some "webgl-not-supported"%string
  else if isLowPerformance p then Some "low-performance-device"%string
  else None.

End Network.

Module Hardware.

Definition isLowPerformance (p : Page) : bool :=
  let nav := navigator p in
  if dataSaver nav then true
  else if slowConnection nav then true
  else if match deviceMemory nav with
          | Some memory => if Rlt_dec memory 4 then true else false
          | None => false
          end then true
  else if match hardwareConcurrency nav with
          | Some cores => (cores <=? 2)%nat
          | None => false
          end then true
  else false.

Definition isWebGLSupported (p : Page) : bool :=
  firstContext p ["webgl"; "experimental-webgl"]%string.

Definition shouldUseFallback (p : Page) : bool :=
  (prefersReducedMotion p || isLowPerformance p || negb (isWebGLSupported p))%bool.

Definition getFallbackReason (p : Page) : option string :=
  if prefersReducedMotion p then Some "prefers-reduced-motion"%string
  else if negb (isWebGLSupported p) then Some "webgl-not-supported"%string
  else if isLowPerformance p then Some "low-performance-device"%string
  else None.

End Hardware.

End Performance.

(** A page on a slow connection with WebGL. *)
Definition slow_page : Performance.Page :=
  {| Performance.reducedMotionMatches := false;
     Performance.navigator :=
       {| Performance.connection :=
            Some {| Performance.saveData := None;
                    Performance.effectiveType := Some "slow-2g"%string |};
          Performance.deviceMemory := Some 8;
          Performance.hardwareConcurrency := Some 8%nat |};
     Performance.getContext := fun _ => Performance.Context |}.


(** ** The lightbox without animations ([SimpleLightbox.ts])

    The fallback used instead of the particle viewer.  Its state is the
    object's fields and the part of the page it writes to.  A method that
    can raise a [TypeError] returns [None] then. *)

Module Lightbox.

Import Viewer (Img, Item, Caption, Dot).

Inductive Focus : Type :=
| FocusElsewhere
| FocusCloseButton
| FocusPrevButton
| FocusNextButton
| FocusItem (id : nat).

#[global] Instance Focus_eq_dec : EqDecision Focus.
Proof. solve_decision. Defined.

(** The [<img>] the constructor creates. *)
Record ImageElement : Type := MkImageElement {
  src : string;
  alt : string
}.

Record State : Type := MkState {
  images : list Item;
  srcAttribute : string;
  captionElement : option Caption;
  imageElement : ImageElement;
  imageAttached : bool;               (* [imageElement.parentNode] is set *)
  currentIndex : Z;
  dotsContainer : option (list Dot);
  paginationStartIndex : Z;
  touchStartX : R;
  touchStartY : R;
  containerVisible : bool;            (* class [visible] of the container *)
  bodyOverflow : string;
  activeElement : Focus;
  keydownBound : bool;                (* [boundKeydown] on the document *)
  touchBound : bool;                  (* the two touch listeners on the container *)
  imageClickHandlers : gset nat;      (* keys of the map *)
  itemListeners : gset nat            (* items with a click listener *)
}.

Definition maxVisibleDots : Z := 5.
Definition swipeThreshold : R := 50.

(** *** Pagination, lines 201-242 *)

Definition updatePaginationVisibility (s : State) : State :=
  match dotsContainer s with
  | None => s
  | Some dots =>
      let total := Z.of_nat (length (images s)) in
      let startIndex := paginationStartIndex s in
      let endIndex := Z.min (startIndex + maxVisibleDots) total in
      let startIndex :=
        if ((endIndex - startIndex <? maxVisibleDots)%Z && (maxVisibleDots <=? total)%Z)%bool
        then (total - maxVisibleDots)%Z else startIndex in
      let isVisible (i : nat) :=
        ((startIndex <=? Z.of_nat i)%Z && (Z.of_nat i <? endIndex)%Z)%bool in
      {| s with dotsContainer :=
           Some (imap (fun i d => {| d with Viewer.dot_shown := isVisible i |}) dots) |}
  end.

Definition updatePagination (s : State) : State :=
  match dotsContainer s with
  | None => s
  | Some dots =>
      let dots :=
        imap (fun i d => {| d with Viewer.dot_active := (Z.of_nat i =? currentIndex s)%Z |})
             dots in
      let s := {| s with dotsContainer := Some dots |} in
      let total := Z.of_nat (length (images s)) in
      let s :=
        if (maxVisibleDots <? total)%Z then
          let minStart := Z.max 0 (currentIndex s - maxVisibleDots + 1) in
          let maxStart := Z.min (currentIndex s) (total - maxVisibleDots) in
          if (paginationStartIndex s <? minStart)%Z then
            {| s with paginationStartIndex := minStart |}
          else if (maxStart <? paginationStartIndex s)%Z then
            {| s with paginationStartIndex := maxStart |}
          else s
        else s in
      updatePaginationVisibility s
  end.

(** *** Showing an image, lines 248-311 *)

(** Lines 255-264 and 301-310, shared by [open] and [goTo]. *)
Definition showImage (img : Img) (s : State) : State :=
  let imgSrc :=
    Viewer.or_else (Viewer.getAttribute img (srcAttribute s))
                   (Viewer.getAttribute img "src"%string) in
  let s :=
    match imgSrc with
    | Some (String _ _ as url) =>
        {| s with imageElement := {| src := url; alt := Viewer.altOf img |} |}
    | _ => s
    end in
  match captionElement s with
  | Some _ =>
      {| s with captionElement :=
           Some {| Viewer.innerText := Viewer.altOf img; Viewer.caption_visible := true |} |}
  | None => s
  end.

Definition open (item : Item) (s : State) : State :=
  match Viewer.getImageFromItem item with
  | None => s
  | Some img =>
      let s := {| s with currentIndex := Viewer.indexOf (images s) item |} in
      let s := updatePagination s in
      let s := showImage img s in
      {| s with containerVisible := true;
                bodyOverflow := "hidden"%string;
                activeElement := FocusCloseButton |}
  end.

Definition close (s : State) : State :=
  let s := {| s with containerVisible := false |} in
  let s := {| s with captionElement :=
                (fun c => {| c with Viewer.caption_visible := false |}) <$> captionElement s |} in
  let s := {| s with bodyOverflow := EmptyString |} in
  match Viewer.imageAt (images s) (currentIndex s) with
  | Some item =>
      if Viewer.item_focusable item
      then {| s with activeElement := FocusItem (Viewer.item_id item) |}
      else s
  | None => s
  end.

(** [goTo]: [this.images[index]] is [undefined] outside the list, and
    [getImageFromItem(undefined)] raises. *)
Definition goTo (index : Z) (s : State) : option State :=
  match Viewer.imageAt (images s) index with
  | None => None
  | Some item =>
      match Viewer.getImageFromItem item with
      | None => Some s
      | Some img =>
          let s := {| s with currentIndex := index |} in
          let s := updatePagination s in
          Some (showImage img s)
      end
  end.

Definition next (s : State) : option State :=
  if (length (images s) <=? 1)%nat then Some s
  else
    let nextIndex := Z.rem (currentIndex s + 1) (Z.of_nat (length (images s))) in
    goTo nextIndex s.

Definition prev (s : State) : option State :=
  if (length (images s) <=? 1)%nat then Some s
  else
    let prevIndex :=
      Z.rem (currentIndex s - 1 + Z.of_nat (length (images s)))
            (Z.of_nat (length (images s))) in
    goTo prevIndex s.

(** *** Keyboard and touch, lines 92-146 *)

(** [boundKeydown]; the boolean tells whether [preventDefault] was
    called. *)
Definition boundKeydown (key : string) (shiftKey : bool) (s : State)
    : option (State * bool) :=
  if containerVisible s then
    if String.eqb key "Escape" then Some (close s, false)
    else if String.eqb key "ArrowLeft" then (fun s => (s, true)) <$> prev s
    else if String.eqb key "ArrowRight" then (fun s => (s, true)) <$> next s
    else if String.eqb key "Tab" then
      let multiple := (1 <? length (images s))%nat in
      let first := FocusCloseButton in
      let last := if multiple then FocusNextButton else FocusCloseButton in
      if (shiftKey && bool_decide (activeElement s = first))%bool then
        Some ({| s with activeElement := last |}, true)
      else if (negb shiftKey && bool_decide (activeElement s = last))%bool then
        Some ({| s with activeElement := first |}, true)
      else Some (s, false)
    else Some (s, false)
  else Some (s, false).

Definition boundTouchStart (clientX clientY : R) (s : State) : State :=
  {| s with touchStartX := clientX; touchStartY := clientY |}.

Definition boundTouchEnd (touchEndX touchEndY : R) (s : State) : option State :=
  if negb (containerVisible s) then Some s
  else if (length (images s) <=? 1)%nat then Some s
  else
    let deltaX := touchEndX - touchStartX s in
    let deltaY := touchEndY - touchStartY s in
    if Rgt_dec (Rabs deltaX) (Rabs deltaY) then
      if Rgt_dec (Rabs deltaX) swipeThreshold then
        if Rgt_dec deltaX 0 then prev s else next s
      else Some s
    else Some s.

(** *** Construction and teardown *)

Definition bindEvents (s : State) : State :=
  {| s with imageClickHandlers :=
              imageClickHandlers s ∪ list_to_set (Viewer.item_id <$> images s);
            itemListeners := itemListeners s ∪ list_to_set (Viewer.item_id <$> images s);
            keydownBound := true;
            touchBound := true |}.

Definition initPagination (hasPaginationElement : bool) (s : State) : State :=
  if hasPaginationElement then
    let dots :=
      replicate (length (images s))
        {| Viewer.dot_active := false; Viewer.dot_shown := true |} in
    updatePaginationVisibility {| s with dotsContainer := Some dots |}
  else s.

(** The constructor, once the container and its controls have been found. *)
Definition construct (srcAttr : string) (imgs : list Item) (caption : option Caption)
    (hasPaginationElement : bool) : State :=
  let s :=
    {| images := imgs;
       srcAttribute := srcAttr;
       captionElement := caption;
       imageElement := {| src := EmptyString; alt := EmptyString |};
       imageAttached := true;
       currentIndex := 0;
       dotsContainer := None;
       paginationStartIndex := 0;
       touchStartX := 0;
       touchStartY := 0;
       containerVisible := false;
       bodyOverflow := EmptyString;
       activeElement := FocusElsewhere;
       keydownBound := false;
       touchBound := false;
       imageClickHandlers := ∅;
       itemListeners := ∅ |} in
  let s := bindEvents s in
  if (1 <? length imgs)%nat then initPagination hasPaginationElement s else s.

Definition destroy (s : State) : State :=
  let s := if containerVisible s then close s else s in
  let s := {| s with keydownBound := false; touchBound := false |} in
  let s := {| s with itemListeners := itemListeners s ∖ imageClickHandlers s |} in
  let s := {| s with imageClickHandlers := ∅ |} in
  if imageAttached s then {| s with imageAttached := false |} else s.

(** *** Events

    What the listeners registered by [bindEvents] and [initPagination] do
    when the page delivers an event.  A dot exists for every image once
    [initPagination] has run. *)

Inductive Event : Type :=
| ItemClick (i : nat)                 (* click on [images[i]] *)
| CloseClick
| BackdropClick
| PrevClick
| NextClick
| DotClick (index : nat)
| Keydown (key : string) (shiftKey : bool)
| TouchStart (clientX clientY : R)
| TouchEnd (clientX clientY : R).

Definition dispatch (e : Event) (s : State) : option State :=
  match e with
  | ItemClick i =>
      match images s !! i with
      | Some item =>
          if bool_decide (Viewer.item_id item ∈ itemListeners s)
          then Some (open item s) else Some s
      | None => Some s
      end
  | CloseClick | BackdropClick => Some (close s)
  | PrevClick => prev s
  | NextClick => next s
  | DotClick index =>
      match dotsContainer s ≫= (.!! index) with
      | Some _ =>
          if negb (currentIndex s =? Z.of_nat index)%Z then goTo (Z.of_nat index) s
          else Some s
      | None => Some s
      end
  | Keydown key shiftKey =>
      if keydownBound s then fst <$> boundKeydown key shiftKey s else Some s
  | TouchStart x y =>
      if touchBound s then Some (boundTouchStart x y s) else Some s
  | TouchEnd x y =>
      if touchBound s then boundTouchEnd x y s else Some s
  end.

(** A sequence of events, delivered one after the other; it stops at the
    first handler that raises. *)
Fixpoint run (events : list Event) (s : State) : option State :=
  match events with
  | [] => Some s
  | e :: events' => dispatch e s ≫= run events'
  end.

(** *** Vocabulary of the properties *)

(** The dots shown are those of the window of [maxVisibleDots] dots that
    starts at [paginationStartIndex], or all of them in a small gallery. *)
Definition shownWindow (s : State) (i : nat) : bool :=
  if (maxVisibleDots <? Z.of_nat (length (images s)))%Z then
    ((paginationStartIndex s <=? Z.of_nat i)%Z &&
     (Z.of_nat i <? paginationStartIndex s + maxVisibleDots)%Z)%bool
  else true.

(** The start of the window after [updatePagination], lines 229-239. *)
Definition windowStart (total currentIndex startIndex : Z) : Z :=
  if (maxVisibleDots <? total)%Z then
    let minStart := Z.max 0 (currentIndex - maxVisibleDots + 1) in
    let maxStart := Z.min currentIndex (total - maxVisibleDots) in
    if (startIndex <? minStart)%Z then minStart
    else if (maxStart <? startIndex)%Z then maxStart
    else startIndex
  else startIndex.

(** What the pagination shows and what it is computed from. *)
Definition pagination (s : State) : list Item * Z * Z * option (list Dot) :=
  (images s, currentIndex s, paginationStartIndex s, dotsContainer s).

(** The dot of the current image is marked. *)
Definition currentDotActive (s : State) : Prop :=
  forall dots i d, dotsContainer s = Some dots -> dots !! i = Some d ->
    Z.of_nat i = currentIndex s -> Viewer.dot_active d = true.

Record consistent (s : State) : Prop := MkConsistent {
  index_in_range :
    (0 <= currentIndex s < Z.max 1 (Z.of_nat (length (images s))))%Z;
  window_in_range :
    (0 <= paginationStartIndex s
       <= Z.max 0 (Z.of_nat (length (images s)) - maxVisibleDots))%Z;
  dots_per_image :
    forall dots, dotsContainer s = Some dots -> length dots = length (images s);
  window_holds_index :
    is_Some (dotsContainer s) ->
    (paginationStartIndex s <= currentIndex s)%Z /\
    ((maxVisibleDots < Z.of_nat (length (images s)))%Z ->
     (currentIndex s < paginationStartIndex s + maxVisibleDots)%Z);
  dots_shown :
    forall dots i d, dotsContainer s = Some dots -> dots !! i = Some d ->
      Viewer.dot_shown d = shownWindow s i;
  dots_active :
    forall dots i d, dotsContainer s = Some dots -> dots !! i = Some d ->
      Viewer.dot_active d = true -> Z.of_nat i = currentIndex s;
  visible_active : containerVisible s = true -> currentDotActive s
}.

End Lightbox.

(** A gallery of seven linked images for the lightbox. *)
Definition sample_gallery : list Viewer.Item :=
  (fun i => Viewer.MkItem i true
     (Some (Viewer.MkImg (100 + i) {[ "src"%string := "photo.jpg"%string ]}))) <$> seq 0 7.

Definition sample_lightbox : Lightbox.State :=
  Lightbox.construct "src" sample_gallery
    (Some {| Viewer.innerText := EmptyString; Viewer.caption_visible := false |}) true.

(** The same lightbox once its third image has been clicked. *)
Definition sample_lightbox_open : Lightbox.State :=
  match sample_gallery !! 2%nat with
  | Some item => Lightbox.open item sample_lightbox
  | None => sample_lightbox
  end.

(** The viewer of [sample_open] over a gallery of eight images, the seventh
    one current and the pagination not yet updated. *)
Definition sample_wide : Viewer.State :=
  {| sample_open with
       Viewer.images := sample_item <$> seq 0 8;
       Viewer.dotsContainer := Some (replicate 8 (Viewer.MkDot false true));
       Viewer.currentIndex := 6 |}.

(** ** particles.frag: the whole of [main]

    The colour written for one fragment of a point sprite, or nothing when
    the fragment is discarded.  A sampler is the function from texture
    coordinates to texels.  [smoothstep(0.5, 0.2, x)] has its edges in
    decreasing order; it is taken by the formula, as GPUs compute it. *)

Module Fragment.

Record vec2 : Type := Vec2 { x2 : R; y2 : R }.

Record vec4 : Type := Vec4 { red : R; green : R; blue : R; alpha : R }.

Definition add2 (a b : vec2) : vec2 := Vec2 (x2 a + x2 b) (y2 a + y2 b).
Definition sub2 (a b : vec2) : vec2 := Vec2 (x2 a - x2 b) (y2 a - y2 b).
Definition scale2 (a : vec2) (s : R) : vec2 := Vec2 (x2 a * s) (y2 a * s).
Definition div2 (a : vec2) (s : R) : vec2 := Vec2 (x2 a / s) (y2 a / s).
Definition dot2 (a b : vec2) : R := x2 a * x2 b + y2 a * y2 b.
Definition length2 (a : vec2) : R := sqrt (x2 a * x2 a + y2 a * y2 a).

(** [mat2(a, b, c, d) * v]: the constructor takes the matrix by columns. *)
Definition mat2_mul (a b c d : R) (v : vec2) : vec2 :=
  Vec2 (a * x2 v + c * y2 v) (b * x2 v + d * y2 v).

Definition mix4 (p q : vec4) (t : R) : vec4 :=
  Vec4 (mix (red p) (red q) t) (mix (green p) (green q) t)
       (mix (blue p) (blue q) t) (mix (alpha p) (alpha q) t).

Definition sampler2D : Type := vec2 -> vec4.

Record Uniforms : Type := MkUniforms {
  uTexture : sampler2D;
  uTextureNext : sampler2D;
  uTime : R;
  uTextureMix : R;
  uOpacity : R;
  uDispersion : R
}.

Record Varyings : Type := MkVaryings {
  vUv : vec2;
  vProgress : R;
  vRotation : R;
  vShapeMix : R;
  vVelocity : vec2;
  vRandom : R
}.

(** Lines 26-27: red and blue are read to the right and to the left of the
    texel that gives green and alpha. *)
Definition splitSample (texture : sampler2D) (uv : vec2) (rgbShift : R) : vec4 :=
  Vec4 (red (texture (add2 uv (Vec2 rgbShift 0))))
       (green (texture uv))
       (blue (texture (sub2 uv (Vec2 rgbShift 0))))
       (alpha (texture uv)).

Definition main (u : Uniforms) (v : Varyings) (gl_PointCoord : vec2) : option vec4 :=
  let noisyUv :=
    if Rgt_dec (uDispersion u) 0.01 then
      let noise := sin (y2 (vUv v) * 50 + uTime u * 30) * cos (x2 (vUv v) * 20) in
      Vec2 (x2 (vUv v) + noise * 0.05 * uDispersion u) (y2 (vUv v))
    else vUv v in
  let rgbShift := uDispersion u * 0.02 in
  let color1 := splitSample (uTexture u) noisyUv rgbShift in
  let color2 := splitSample (uTextureNext u) noisyUv rgbShift in
  let textureColor := mix4 color1 color2 (uTextureMix u) in
  if Rlt_dec (alpha textureColor) 0.1 then None
  else
    let coord := sub2 gl_PointCoord (Vec2 0.5 0.5) in
    let speed := length2 (vVelocity v) in
    let finalCoord :=
      if Rgt_dec speed 0.0001 then
        if Rgt_dec (vShapeMix v) 0 then
          let stretchFactor := 1 + speed * 3000 in
          let stretchFactor := mix 1 stretchFactor (vShapeMix v) in
          let dir := div2 (vVelocity v) speed in
          let proj := dot2 coord dir in
          sub2 coord (scale2 (scale2 dir proj) (1 - 1 / stretchFactor))
        else coord
      else coord in
    let s := sin (vRotation v) in
    let c := cos (vRotation v) in
    let rotatedCoord := mat2_mul c (- s) s c finalCoord in
    let distSquare := Rmax (Rabs (x2 finalCoord)) (Rabs (y2 finalCoord)) in
    let distRotated := Rmax (Rabs (x2 rotatedCoord)) (Rabs (y2 rotatedCoord)) in
    let distCircle := length2 finalCoord in
    let p := Vec2 (x2 rotatedCoord) (y2 rotatedCoord + 0.15) in
    let distTriangle := Rmax (Rabs (x2 p) * 0.866025 + y2 p * 0.5) (- y2 p) in
    let targetShapeDist :=
      Frag.targetShapeDist (vRandom v) distRotated distCircle distTriangle in
    let dist := mix distSquare targetShapeDist (vShapeMix v) in
    let speedFactor := smoothstep 0 0.05 speed in
    let intensity := smoothstep 0 0.2 (uDispersion u) in
    let glow := speedFactor * 0.3 * intensity in
    let finalColor :=
      Vec3 (mix (red textureColor) 1 glow) (mix (green textureColor) 1 glow)
           (mix (blue textureColor) 1 glow) in
    let bloomFactor := 1 + speedFactor * 1 * intensity in
    let shapeAlpha := smoothstep 0.5 0.2 (dist / bloomFactor) in
    if Rlt_dec shapeAlpha 0.01 then None
    else
      Some (Vec4 (vx finalColor) (vy finalColor) (vz finalColor)
                 (alpha textureColor * (shapeAlpha * vProgress v * uOpacity u))).

End Fragment.

(** A fragment at the centre of a settled sprite over two flat textures. *)
Definition sample_fragment_uniforms (mixing : R) : Fragment.Uniforms :=
  {| Fragment.uTexture := fun _ => Fragment.Vec4 0.8 0.4 0.2 1;
     Fragment.uTextureNext := fun _ => Fragment.Vec4 0.1 0.3 0.5 1;
     Fragment.uTime := 2;
     Fragment.uTextureMix := mixing;
     Fragment.uOpacity := 1;
     Fragment.uDispersion := 0 |}.

Definition sample_fragment_varyings : Fragment.Varyings :=
  {| Fragment.vUv := Fragment.Vec2 0.25 0.75;
     Fragment.vProgress := 1;
     Fragment.vRotation := 0;
     Fragment.vShapeMix := 0;
     Fragment.vVelocity := Fragment.Vec2 0 0;
     Fragment.vRandom := 0 |}.
(** * Properties *)

(** ** GLSL helpers *)

Lemma clamp_above (x lo hi : R) : lo <= hi -> hi <= x -> clamp x lo hi = hi.
Proof.
  intros Hlh Hx. unfold clamp.
  rewrite Rmax_left by lra. apply Rmin_right; lra.
Qed.

Lemma clamp_below (x lo hi : R) : lo <= hi -> x <= lo -> clamp x lo hi = lo.
Proof.
  intros Hlh Hx. unfold clamp.
  rewrite Rmax_right by lra. apply Rmin_left; lra.
Qed.

Lemma clamp_range (x lo hi : R) : lo <= hi -> lo <= clamp x lo hi <= hi.
Proof.
  intros Hlh. unfold clamp, Rmin, Rmax.
  destruct (Rle_dec x lo); destruct (Rle_dec _ hi); lra.
Qed.

Lemma div_ge_one (n d : R) : 0 < d -> d <= n -> 1 <= n / d.
Proof.
  intros Hd Hn. pose proof (Rinv_0_lt_compat d Hd) as Hi.
  replace 1 with (d * / d) by (field; lra). unfold Rdiv. nra.
Qed.

Lemma div_le_zero (n d : R) : 0 < d -> n <= 0 -> n / d <= 0.
Proof.
  intros Hd Hn. pose proof (Rinv_0_lt_compat d Hd) as Hi. unfold Rdiv. nra.
Qed.

Lemma div_ge_zero (n d : R) : 0 < d -> 0 <= n -> 0 <= n / d.
Proof.
  intros Hd Hn. pose proof (Rinv_0_lt_compat d Hd) as Hi. unfold Rdiv. nra.
Qed.

Lemma smoothstep_above (e0 e1 x : R) : e0 < e1 -> e1 <= x -> smoothstep e0 e1 x = 1.
Proof.
  intros He Hx. unfold smoothstep.
  rewrite clamp_above; [lra | lra |].
  apply div_ge_one; lra.
Qed.

Lemma smoothstep_below (e0 e1 x : R) : e0 < e1 -> x <= e0 -> smoothstep e0 e1 x = 0.
Proof.
  intros He Hx. unfold smoothstep.
  rewrite clamp_below; [lra | lra |].
  apply div_le_zero; lra.
Qed.

Lemma vec3_eq (a b : vec3) : vx a = vx b -> vy a = vy b -> vz a = vz b -> a = b.
Proof. destruct a, b; simpl; intros; subst; reflexivity. Qed.

(** ** Vertex shader trajectory *)

Lemma localProgress_at_one (u : Vert.Uniforms) (a : Vert.Attributes) :
  Vert.uProgress u = 1 -> 0 <= Vert.aDelay a < 1 -> Vert.localProgress u a = 1.
Proof.
  intros Hp Hd. unfold Vert.localProgress. rewrite Hp.
  replace ((1 - Vert.aDelay a) / (1 - Vert.aDelay a)) with 1 by (field; lra).
  apply clamp_above; lra.
Qed.

Lemma localProgress_at_zero (u : Vert.Uniforms) (a : Vert.Attributes) :
  Vert.uProgress u = 0 -> 0 <= Vert.aDelay a < 1 -> Vert.localProgress u a = 0.
Proof.
  intros Hp Hd. unfold Vert.localProgress. rewrite Hp.
  apply clamp_below; [lra |].
  apply div_le_zero; lra.
Qed.

Lemma disperseStrength_settled (u : Vert.Uniforms) : Vert.disperseStrength u 1 = 0.
Proof.
  unfold Vert.disperseStrength. rewrite smoothstep_above by lra. simpl. ring.
Qed.

(** C1: at [uProgress = 1] and [uDispersion = 0] every particle whose delay
    lies in [0, 1) has local progress 1 and is placed exactly on its planar
    grid position: the Bezier curve is at its end point and the
    disintegration offset, the z-separation, the float noise and the morph
    displacement all vanish. *)
Theorem position_converges_to_final (u : Vert.Uniforms) (a : Vert.Attributes) :
  Vert.uProgress u = 1 ->
  Vert.uDispersion u = 0 ->
  0 <= Vert.aDelay a < 1 ->
  Vert.localProgress u a = 1 /\
  Vert.currentPos (Vert.main u a) = Vert.position a.
Proof.
  intros Hp Hdisp Hd.
  pose proof (localProgress_at_one u a Hp Hd) as Hl.
  split; [exact Hl |].
  unfold Vert.main; cbn [Vert.currentPos]. rewrite Hl.
  unfold Vert.getParticlePosition, Vert.bezierQuadratic.
  rewrite disperseStrength_settled, Hdisp.
  rewrite !smoothstep_above by lra.
  apply vec3_eq; cbn; ring.
Qed.

Lemma position_converges_to_final_witness :
  Vert.localProgress (sample_uniforms 1 0) sample_particle = 1 /\
  Vert.currentPos (Vert.main (sample_uniforms 1 0) sample_particle) = Vec3 (-40) 25 0.
Proof.
  apply (position_converges_to_final (sample_uniforms 1 0) sample_particle);
    simpl; [reflexivity | reflexivity | lra].
Defined.

Lemma disperseStrength_at_rest (u : Vert.Uniforms) :
  Vert.disperseStrength u 0 = 1 - Vert.uMode u.
Proof.
  unfold Vert.disperseStrength. rewrite !smoothstep_below by lra.
  unfold mix. simpl. ring.
Qed.

(** At local progress 0 the Bezier curve is at its first control point, the
    float noise has amplitude [sin 0 = 0] and nothing is attenuated yet, so
    what is left is the disintegration offset (and the z-separation) scaled
    by [1 - uMode]. *)
Lemma currentPos_at_rest (u : Vert.Uniforms) (a : Vert.Attributes) :
  Vert.uProgress u = 0 ->
  Vert.uDispersion u = 0 ->
  0 <= Vert.aDelay a < 1 ->
  Vert.currentPos (Vert.main u a) =
    add_z (Vert.aStartPosition a +v Vert.disperseDir a *s (200 * (1 - Vert.uMode u)))%vec
          (300 * (1 - Vert.uMode u) * vz (Vert.aCurveOffset a)).
Proof.
  intros Hp Hdisp Hd.
  unfold Vert.main; cbn [Vert.currentPos].
  rewrite (localProgress_at_zero u a Hp Hd).
  unfold Vert.getParticlePosition, Vert.bezierQuadratic, Vert.floatOffset.
  rewrite disperseStrength_at_rest, Hdisp.
  rewrite !smoothstep_below by lra.
  replace (0 * 3.14159) with 0 by lra. rewrite sin_0.
  apply vec3_eq; cbn; ring.
Qed.

(** C2, as amended: at [uProgress = 0] and [uDispersion = 0] a particle with
    delay in [0, 1) sits exactly on its start position in closing mode
    ([uMode = 1]); in opening mode ([uMode = 0]) it is displaced from the
    start position by the full disintegration offset, 200 units along its
    dispersal direction, plus the z-separation [300 * aCurveOffset.z]. *)
Theorem position_at_rest (u : Vert.Uniforms) (a : Vert.Attributes) :
  Vert.uProgress u = 0 ->
  Vert.uDispersion u = 0 ->
  0 <= Vert.aDelay a < 1 ->
  (Vert.uMode u = 1 ->
   Vert.currentPos (Vert.main u a) = Vert.aStartPosition a) /\
  (Vert.uMode u = 0 ->
   Vert.currentPos (Vert.main u a) =
     add_z (Vert.aStartPosition a +v Vert.disperseDir a *s 200)%vec
           (300 * vz (Vert.aCurveOffset a))).
Proof.
  intros Hp Hdisp Hd.
  rewrite (currentPos_at_rest u a Hp Hdisp Hd).
  split; intros ->; apply vec3_eq; cbn; ring.
Qed.

Lemma position_at_rest_witness :
  Vert.currentPos (Vert.main (sample_uniforms 0 1) sample_particle) = Vec3 120 (-80) 0 /\
  Vert.currentPos (Vert.main (sample_uniforms 0 0) sample_particle) =
    add_z (Vec3 120 (-80) 0 +v Vert.disperseDir sample_particle *s 200)%vec (300 * 0).
Proof.
  split.
  - apply (position_at_rest (sample_uniforms 0 1) sample_particle);
      simpl; [reflexivity | reflexivity | lra | reflexivity].
  - apply (position_at_rest (sample_uniforms 0 0) sample_particle);
      simpl; [reflexivity | reflexivity | lra | reflexivity].
Defined.

Lemma normalize_vx_pos (v : vec3) : 0 < vx v -> 0 < vx (normalize v).
Proof.
  intros Hx.
  assert (Hl : 0 < length3 v) by (unfold length3; apply sqrt_lt_R0; nra).
  pose proof (Rinv_0_lt_compat _ Hl) as Hi.
  unfold normalize, Rdiv. cbn. nra.
Qed.

(** C2 fails in opening mode: the sample particle at [uProgress = 0],
    [uMode = 0], [uDispersion = 0] is not on its start position (its x
    coordinate is larger than the start's 120). *)
Lemma position_at_rest_opening_counterexample :
  Vert.uProgress (sample_uniforms 0 0) = 0 /\
  Vert.uMode (sample_uniforms 0 0) = 0 /\
  Vert.uDispersion (sample_uniforms 0 0) = 0 /\
  Vert.localProgress (sample_uniforms 0 0) sample_particle = 0 /\
  Vert.currentPos (Vert.main (sample_uniforms 0 0) sample_particle)
    <> Vert.aStartPosition sample_particle.
Proof.
  assert (Hd : 0 <= Vert.aDelay sample_particle < 1) by (simpl; lra).
  repeat split; try reflexivity.
  - apply localProgress_at_zero; [reflexivity | exact Hd].
  - rewrite currentPos_at_rest by (try reflexivity; exact Hd).
    intros Heq. apply (f_equal vx) in Heq. revert Heq.
    assert (Hx : 0 < vx (Vert.disperseDir sample_particle)).
    { apply normalize_vx_pos. cbn. lra. }
    cbn [vx add_z vadd vscale]. cbn [sample_particle sample_uniforms Vert.uMode Vert.aStartPosition].
    intros Heq. nra.
Qed.

(** ** Rounding *)

Lemma rne_error (x : R) : Rabs (IZR (IEEE.rne x) - x) <= 1 / 2.
Proof.
  unfold IEEE.rne. cbv zeta.
  pose proof (Zfloor_bound x) as Hf.
  destruct (Rlt_dec _ _) as [H1|H1].
  - apply Rabs_le. lra.
  - destruct (Rlt_dec _ _) as [H2|H2].
    + rewrite plus_IZR. apply Rabs_le. lra.
    + destruct (Z.even _); [| rewrite plus_IZR]; apply Rabs_le; lra.
Qed.

Lemma rne_IZR (n : Z) : IEEE.rne (IZR n) = n.
Proof.
  unfold IEEE.rne. cbv zeta. rewrite ZfloorZ.
  destruct (Rlt_dec _ _) as [H1|H1]; [reflexivity | lra].
Qed.

Lemma rne_floor (x : R) : (Zfloor x <= IEEE.rne x <= Zfloor x + 1)%Z.
Proof.
  unfold IEEE.rne. cbv zeta.
  destruct (Rlt_dec _ _); [lia |].
  destruct (Rlt_dec _ _); [lia |].
  destruct (Z.even _); lia.
Qed.

Lemma rne_le (x y : R) : x <= y -> (IEEE.rne x <= IEEE.rne y)%Z.
Proof.
  intros Hxy.
  pose proof (Zfloor_le x y Hxy) as Hf.
  destruct (Z.eq_dec (Zfloor x) (Zfloor y)) as [He|Hne].
  - unfold IEEE.rne. cbv zeta. rewrite He.
    destruct (Rlt_dec (x - _) _) as [H1|H1].
    + destruct (Rlt_dec (y - _) _); [lia |].
      destruct (Rlt_dec _ (y - _)); [lia |].
      destruct (Z.even _); lia.
    + destruct (Rlt_dec (y - _) _) as [H2|H2]; [lra |].
      destruct (Rlt_dec _ (x - _)) as [H3|H3].
      * destruct (Rlt_dec _ (y - _)) as [H4|H4]; [lia | lra].
      * destruct (Rlt_dec _ (y - _)) as [H4|H4]; destruct (Z.even _); lia.
  - pose proof (rne_floor x). pose proof (rne_floor y). lia.
Qed.

Lemma rne_opp (x : R) : IEEE.rne (- x) = (- IEEE.rne x)%Z.
Proof.
  pose proof (Zfloor_bound x) as Hf.
  destruct (Req_dec x (IZR (Zfloor x))) as [He|Hne].
  - clear Hf. revert He. generalize (Zfloor x). intros f ->.
    rewrite <- opp_IZR, !rne_IZR. reflexivity.
  - assert (Hn : Zfloor (- x) = (- Zfloor x - 1)%Z).
    { apply Zfloor_eq. rewrite minus_IZR, opp_IZR. lra. }
    unfold IEEE.rne. cbv zeta. rewrite Hn, minus_IZR, opp_IZR.
    destruct (Rlt_dec (x - _) _) as [H1|H1].
    + destruct (Rlt_dec (- x - _) _) as [H2|H2]; [lra |].
      destruct (Rlt_dec _ (- x - _)) as [H3|H3]; [lia | lra].
    + destruct (Rlt_dec _ (x - _)) as [H2|H2].
      * destruct (Rlt_dec (- x - _) _) as [H3|H3]; [lia | lra].
      * destruct (Rlt_dec (- x - _) _) as [H3|H3]; [lra |].
        destruct (Rlt_dec _ (- x - _)) as [H4|H4]; [lra |].
        replace (- Zfloor x - 1)%Z with (- (Z.succ (Zfloor x)))%Z by lia.
        rewrite Z.even_opp, Z.even_succ, <- Z.negb_even.
        destruct (Z.even (Zfloor x)); cbn; lia.
Qed.

(** *** Powers of two *)

Lemma pow2_pos (e : Z) : 0 < powerRZ 2 e.
Proof. apply powerRZ_lt. lra. Qed.

Lemma pow2_add (a b : Z) : powerRZ 2 (a + b) = powerRZ 2 a * powerRZ 2 b.
Proof. apply powerRZ_add. lra. Qed.

Lemma pow2_cancel (a : Z) : powerRZ 2 a * powerRZ 2 (- a) = 1.
Proof. rewrite <- pow2_add, Z.add_opp_diag_r. reflexivity. Qed.

Lemma pow2_le (a b : Z) : (a <= b)%Z -> powerRZ 2 a <= powerRZ 2 b.
Proof.
  intros Hab. rewrite !powerRZ_Rpower by lra.
  apply Rle_Rpower; [lra |]. apply IZR_le. exact Hab.
Qed.

Lemma pow2_lt (a b : Z) : (a < b)%Z -> powerRZ 2 a < powerRZ 2 b.
Proof.
  intros Hab. rewrite !powerRZ_Rpower by lra.
  apply Rpower_lt; [lra |]. apply IZR_lt. exact Hab.
Qed.

Lemma pow2_IZR (n : Z) : (0 <= n)%Z -> powerRZ 2 n = IZR (2 ^ n).
Proof.
  intros Hn. rewrite <- (Z2Nat.id n Hn) at 1.
  rewrite <- pow_powerRZ, pow_IZR, Z2Nat.id by exact Hn. reflexivity.
Qed.

(** *** The exponent *)

Lemma ln2_pos : 0 < ln 2.
Proof. pose proof ln_lt_2. lra. Qed.

Lemma mag_spec (x : R) :
  x <> 0 -> powerRZ 2 (IEEE.mag x - 1) <= Rabs x < powerRZ 2 (IEEE.mag x).
Proof.
  intros Hx. pose proof (Rabs_pos_lt x Hx) as Ha. pose proof ln2_pos as Hl.
  unfold IEEE.mag. set (L := ln (Rabs x) / ln 2).
  pose proof (Zfloor_bound L) as Hf.
  assert (HL : ln (Rabs x) = L * ln 2) by (unfold L; field; lra).
  assert (Hax : Rabs x = exp (L * ln 2)) by (rewrite <- HL, exp_ln; [reflexivity | exact Ha]).
  rewrite !powerRZ_Rpower by lra. unfold Rpower. rewrite Hax.
  replace (Zfloor L + 1 - 1)%Z with (Zfloor L) by lia. rewrite plus_IZR.
  split.
  - destruct (Req_dec (IZR (Zfloor L)) L) as [->|Hne]; [lra |].
    left. apply exp_increasing. nra.
  - apply exp_increasing. nra.
Qed.

Lemma mag_opp (x : R) : IEEE.mag (- x) = IEEE.mag x.
Proof. unfold IEEE.mag. rewrite Rabs_Ropp. reflexivity. Qed.

Lemma mag_le (x y : R) : 0 < x -> x <= y -> (IEEE.mag x <= IEEE.mag y)%Z.
Proof.
  intros Hx Hxy. unfold IEEE.mag. pose proof ln2_pos as Hl.
  apply Z.add_le_mono_r, Zfloor_le.
  rewrite !Rabs_right by lra.
  apply Rmult_le_compat_r; [left; apply Rinv_0_lt_compat; lra |].
  destruct Hxy as [Hlt| ->]; [left; apply ln_increasing; lra | lra].
Qed.

Lemma mag_lt_pow (x : R) (e : Z) : x <> 0 -> Rabs x < powerRZ 2 e -> (IEEE.mag x <= e)%Z.
Proof.
  intros Hx Hlt. destruct (mag_spec x Hx) as [Hlo _].
  destruct (Z_lt_le_dec e (IEEE.mag x)) as [Hc|Hc]; [| exact Hc].
  pose proof (pow2_le e (IEEE.mag x - 1) ltac:(lia)). lra.
Qed.

Lemma mag_ge_pow (x : R) (e : Z) : powerRZ 2 (e - 1) <= Rabs x -> (e <= IEEE.mag x)%Z.
Proof.
  intros Hle. pose proof (pow2_pos (e - 1)) as Hp.
  assert (Hx : x <> 0) by (intros ->; rewrite Rabs_R0 in Hle; lra).
  destruct (mag_spec x Hx) as [_ Hhi].
  destruct (Z_lt_le_dec (IEEE.mag x) e) as [Hc|Hc]; [| exact Hc].
  pose proof (pow2_le (IEEE.mag x) (e - 1) ltac:(lia)). lra.
Qed.

(** *** Rounding *)

Section Round.

Variables prec emin : Z.
Hypothesis prec_pos : (0 < prec)%Z.

Let round := IEEE.round prec emin.

Lemma round_opp (x : R) : round (- x) = - round x.
Proof.
  unfold round, IEEE.round. cbv zeta. rewrite mag_opp.
  rewrite <- Ropp_mult_distr_l, rne_opp, opp_IZR. ring.
Qed.

Lemma round_0 : round 0 = 0.
Proof.
  unfold round, IEEE.round. cbv zeta. rewrite Rmult_0_l.
  change 0 with (IZR 0) at 1. rewrite rne_IZR. ring.
Qed.

(** A number [m * 2^e] with less than [prec] bits in [m] is not changed. *)
Lemma round_generic (x : R) (m e : Z) :
  x = IZR m * powerRZ 2 e ->
  (Z.abs m < 2 ^ prec)%Z -> (emin - prec <= e)%Z ->
  round x = x.
Proof.
  intros Hx Hm He.
  destruct (Z.eq_dec m 0%Z) as [->|Hm0].
  { rewrite Hx, Rmult_0_l. apply round_0. }
  assert (Hx0 : x <> 0).
  { rewrite Hx. apply Rmult_integral_contrapositive_currified.
    - apply not_0_IZR. exact Hm0.
    - apply powerRZ_NOR. lra. }
  unfold round, IEEE.round. cbv zeta.
  set (ex := Z.max (IEEE.mag x) emin).
  assert (Hex : (ex - prec <= e)%Z).
  { assert (IEEE.mag x <= prec + e)%Z; [| lia].
    apply mag_lt_pow; [exact Hx0 |].
    rewrite Hx, Rabs_mult, (Rabs_right (powerRZ 2 e)) by (left; apply pow2_pos).
    rewrite pow2_add. apply Rmult_lt_compat_r; [apply pow2_pos |].
    rewrite pow2_IZR by lia. rewrite <- abs_IZR. apply IZR_lt. exact Hm. }
  assert (Hint : x * powerRZ 2 (prec - ex) = IZR (m * 2 ^ (e + prec - ex))).
  { rewrite mult_IZR, <- pow2_IZR by lia. rewrite Hx, Rmult_assoc, <- pow2_add.
    do 2 f_equal. lia. }
  rewrite Hint, rne_IZR, mult_IZR, <- pow2_IZR by lia.
  rewrite Rmult_assoc, <- pow2_add, Hx. do 2 f_equal. lia.
Qed.

Lemma round_pos_le_pow (x : R) :
  0 < x -> round x <= powerRZ 2 (Z.max (IEEE.mag x) emin).
Proof.
  intros Hx. unfold round, IEEE.round. cbv zeta.
  set (e := Z.max (IEEE.mag x) emin).
  destruct (mag_spec x ltac:(lra)) as [_ Hhi]. rewrite Rabs_right in Hhi by lra.
  pose proof (pow2_le (IEEE.mag x) e ltac:(lia)) as Hle.
  assert (Hr : (IEEE.rne (x * powerRZ 2 (prec - e)) <= 2 ^ prec)%Z).
  { rewrite <- (rne_IZR (2 ^ prec)). apply rne_le.
    rewrite <- pow2_IZR by lia.
    replace prec with (e + (prec - e))%Z at 2 by lia. rewrite pow2_add.
    apply Rmult_le_compat_r; [left; apply pow2_pos | lra]. }
  apply IZR_le in Hr. rewrite <- pow2_IZR in Hr by lia.
  replace e with (prec + (e - prec))%Z at 3 by lia. rewrite pow2_add.
  apply Rmult_le_compat_r; [left; apply pow2_pos | exact Hr].
Qed.

Lemma round_pos_ge_pow (x : R) :
  0 < x -> (emin <= IEEE.mag x)%Z -> powerRZ 2 (IEEE.mag x - 1) <= round x.
Proof.
  intros Hx He. unfold round, IEEE.round. cbv zeta.
  rewrite Z.max_l by exact He. set (e := IEEE.mag x).
  destruct (mag_spec x ltac:(lra)) as [Hlo _]. rewrite Rabs_right in Hlo by lra.
  fold e in Hlo.
  assert (Hr : (2 ^ (prec - 1) <= IEEE.rne (x * powerRZ 2 (prec - e)))%Z).
  { rewrite <- (rne_IZR (2 ^ (prec - 1))). apply rne_le.
    rewrite <- pow2_IZR by lia.
    replace (prec - 1)%Z with ((e - 1) + (prec - e))%Z by lia. rewrite pow2_add.
    apply Rmult_le_compat_r; [left; apply pow2_pos | lra]. }
  apply IZR_le in Hr. rewrite <- pow2_IZR in Hr by lia.
  replace (e - 1)%Z with ((prec - 1) + (e - prec))%Z by lia. rewrite pow2_add.
  apply Rmult_le_compat_r; [left; apply pow2_pos | exact Hr].
Qed.

Lemma round_pos_le (x y : R) : 0 < x -> x <= y -> round x <= round y.
Proof.
  intros Hx Hxy. pose proof (mag_le x y Hx Hxy) as Hm.
  destruct (Z.eq_dec (Z.max (IEEE.mag x) emin) (Z.max (IEEE.mag y) emin)) as [He|Hne].
  - unfold round, IEEE.round. cbv zeta. rewrite He.
    apply Rmult_le_compat_r; [left; apply pow2_pos |].
    apply IZR_le, rne_le.
    apply Rmult_le_compat_r; [left; apply pow2_pos | exact Hxy].
  - apply Rle_trans with (powerRZ 2 (Z.max (IEEE.mag x) emin));
      [apply round_pos_le_pow; exact Hx |].
    apply Rle_trans with (powerRZ 2 (IEEE.mag y - 1));
      [apply pow2_le; lia | apply round_pos_ge_pow; [lra | lia]].
Qed.

Lemma round_nonneg (x : R) : 0 <= x -> 0 <= round x.
Proof.
  intros Hx. unfold round, IEEE.round. cbv zeta.
  apply Rmult_le_pos; [| left; apply pow2_pos].
  apply IZR_le. rewrite <- (rne_IZR 0). apply rne_le.
  apply Rmult_le_pos; [exact Hx | left; apply pow2_pos].
Qed.

(** Rounding is monotone. *)
Lemma round_le (x y : R) : x <= y -> round x <= round y.
Proof.
  intros Hxy.
  destruct (Rlt_dec 0 x) as [Hx|Hx]; [apply round_pos_le; assumption |].
  destruct (Rle_dec 0 y) as [Hy|Hy].
  - pose proof (round_nonneg y Hy) as H1.
    pose proof (round_nonneg (- x) ltac:(lra)) as H2.
    rewrite round_opp in H2. lra.
  - pose proof (round_pos_le (- y) (- x) ltac:(lra) ltac:(lra)) as H.
    rewrite !round_opp in H. lra.
Qed.

(** The error of a rounding is at most half the weight of the last bit. *)
Lemma round_error (x : R) (e : Z) :
  Rabs x < powerRZ 2 e -> (emin <= e)%Z ->
  Rabs (round x - x) <= powerRZ 2 (e - prec - 1).
Proof.
  intros Hx He.
  destruct (Req_dec x 0) as [->|Hx0].
  { rewrite round_0, Rminus_0_r, Rabs_R0. left. apply pow2_pos. }
  pose proof (mag_lt_pow x e Hx0 Hx) as Hm.
  unfold round, IEEE.round. cbv zeta.
  set (k := Z.max (IEEE.mag x) emin).
  set (y := x * powerRZ 2 (prec - k)).
  assert (Hxy : x = y * powerRZ 2 (k - prec)).
  { unfold y. rewrite Rmult_assoc, <- pow2_add.
    replace (prec - k + (k - prec))%Z with 0%Z by lia. cbn. ring. }
  replace (IZR (IEEE.rne y) * powerRZ 2 (k - prec) - x)
    with ((IZR (IEEE.rne y) - y) * powerRZ 2 (k - prec)) by (rewrite Hxy at 1; ring).
  rewrite Rabs_mult.
  rewrite (Rabs_right (powerRZ 2 _)) by (left; apply pow2_pos).
  pose proof (rne_error y) as Hr. pose proof (pow2_pos (k - prec)) as Hp.
  apply Rle_trans with (1 / 2 * powerRZ 2 (k - prec)); [nra |].
  replace (1 / 2) with (powerRZ 2 (- 1)) by (unfold powerRZ; simpl; lra).
  rewrite <- pow2_add. apply pow2_le. lia.
Qed.

(** Away from the smallest numbers the error is relative: at most
    [2^-prec] of the value. *)
Lemma round_relative_error (x : R) :
  powerRZ 2 (emin - 1) <= Rabs x ->
  Rabs (round x - x) <= powerRZ 2 (- prec) * Rabs x.
Proof.
  intros Hx. pose proof (mag_ge_pow x emin Hx) as Hm.
  pose proof (pow2_pos (emin - 1)) as Hp0.
  assert (Hx0 : x <> 0) by (intros ->; rewrite Rabs_R0 in Hx; lra).
  destruct (mag_spec x Hx0) as [Hlo Hhi].
  pose proof (round_error x (IEEE.mag x) Hhi Hm) as He.
  apply Rle_trans with (1 := He).
  replace (IEEE.mag x - prec - 1)%Z with (- prec + (IEEE.mag x - 1))%Z by lia.
  rewrite pow2_add. apply Rmult_le_compat_l; [left; apply pow2_pos | exact Hlo].
Qed.

End Round.

Lemma rne_above_half (y : R) (n : Z) : IZR n - 1 / 2 < y -> (n <= IEEE.rne y)%Z.
Proof.
  intros Hy. pose proof (Zfloor_bound y) as Hf. pose proof (rne_floor y) as Hr.
  destruct (Z_lt_le_dec (Zfloor y) (n - 1)) as [Hc|Hc].
  - assert (Zfloor y + 1 <= n - 1)%Z as Hc' by lia.
    apply IZR_le in Hc'. rewrite plus_IZR, minus_IZR in Hc'. lra.
  - destruct (Z.eq_dec (Zfloor y) (n - 1)%Z) as [He|Hne]; [| lia].
    unfold IEEE.rne. cbv zeta. rewrite He, minus_IZR.
    destruct (Rlt_dec _ _) as [H1|H1]; [lra |].
    destruct (Rlt_dec _ _) as [H2|H2]; [lia | lra].
Qed.

Lemma Rabs_le_between (a b : R) : Rabs a <= b -> - b <= a <= b.
Proof. unfold Rabs. destruct (Rcase_abs a); lra. Qed.

(** *** binary64 and binary32 *)

Lemma F64_round_le (x y : R) : x <= y -> F64.round x <= F64.round y.
Proof. apply round_le. reflexivity. Qed.

Lemma F64_round_exact (x : R) (m e : Z) :
  x = IZR m * powerRZ 2 e -> (Z.abs m < 2 ^ 53)%Z -> (-1074 <= e)%Z -> F64.round x = x.
Proof. intros Hx Hm He. apply (round_generic 53 (-1021) eq_refl x m e); [exact Hx | exact Hm | lia]. Qed.

Lemma F64_round_error (x : R) :
  Rabs x < 1 / 2 -> Rabs (F64.round x - x) <= / 36028797018963968.
Proof.
  intros Hx.
  pose proof (round_error 53 (-1021) x (-1)) as H.
  replace (powerRZ 2 (-1)) with (1 / 2) in H by (unfold powerRZ; simpl; lra).
  specialize (H Hx ltac:(lia)).
  replace (powerRZ 2 (-1 - 53 - 1)) with (/ 36028797018963968) in H; [exact H |].
  change (powerRZ 2 (-1 - 53 - 1)) with (/ 2 ^ 55). rewrite pow_IZR. reflexivity.
Qed.

Lemma F32_fround_le (x y : R) : x <= y -> F32.fround x <= F32.fround y.
Proof. apply round_le. reflexivity. Qed.

Lemma F32_fround_exact (x : R) (m e : Z) :
  x = IZR m * powerRZ 2 e -> (Z.abs m < 2 ^ 24)%Z -> (-149 <= e)%Z -> F32.fround x = x.
Proof. intros Hx Hm He. apply (round_generic 24 (-125) eq_refl x m e); [exact Hx | exact Hm | lia]. Qed.

Lemma F32_fround_error (x : R) :
  Rabs x < 1 / 2 -> Rabs (F32.fround x - x) <= / 67108864.
Proof.
  intros Hx.
  pose proof (round_error 24 (-125) x (-1)) as H.
  replace (powerRZ 2 (-1)) with (1 / 2) in H by (unfold powerRZ; simpl; lra).
  specialize (H Hx ltac:(lia)).
  replace (powerRZ 2 (-1 - 24 - 1)) with (/ 67108864) in H; [exact H |].
  change (powerRZ 2 (-1 - 24 - 1)) with (/ 2 ^ 26). rewrite pow_IZR. reflexivity.
Qed.

(** A binary64 operation whose result is not tiny is off by at most one
    part in [2^53]. *)
Lemma F64_round_relative (x : R) :
  / 1099511627776 <= x ->
  x * (1 - / 9007199254740992) <= F64.round x <= x * (1 + / 9007199254740992).
Proof.
  intros Hx.
  pose proof (round_relative_error 53 (-1021) x) as H.
  rewrite (Rabs_right x) in H by lra.
  assert (Hsmall : powerRZ 2 (-1021 - 1) <= / 1099511627776).
  { apply Rle_trans with (powerRZ 2 (-40)); [apply pow2_le; lia |].
    change (powerRZ 2 (-40)) with (/ 2 ^ 40). rewrite pow_IZR. right. reflexivity. }
  specialize (H ltac:(lra)).
  change (powerRZ 2 (Z.opp 53)) with (/ 2 ^ 53) in H. rewrite pow_IZR in H.
  change (2 ^ Z.of_nat 53)%Z with 9007199254740992%Z in H.
  apply Rabs_le_between in H. unfold F64.round. lra.
Qed.

(** Numbers written [m * 2^e] that binary64, or binary32, holds exactly. *)
Ltac dyadic m e :=
  first [ apply (F64_round_exact _ m e) | apply (F32_fround_exact _ m e) ];
  [ unfold powerRZ; simpl; lra | reflexivity | lia ].

Lemma F64_round_0 : F64.round 0 = 0.
Proof. dyadic 0%Z 0%Z. Qed.

Lemma F64_round_1 : F64.round 1 = 1.
Proof. dyadic 1%Z 0%Z. Qed.

Lemma F64_round_half : F64.round 0.5 = 0.5.
Proof. dyadic 1%Z (-1)%Z. Qed.

Lemma F64_round_quarter : F64.round 0.25 = 0.25.
Proof. dyadic 1%Z (-2)%Z. Qed.

Lemma F32_fround_0 : F32.fround 0 = 0.
Proof. dyadic 0%Z 0%Z. Qed.

Lemma F64_round_below (x c : R) : F64.round c = c -> x <= c -> F64.round x <= c.
Proof. intros Hc Hx. rewrite <- Hc. apply F64_round_le. exact Hx. Qed.

Lemma F64_round_above (x c : R) : F64.round c = c -> c <= x -> c <= F64.round x.
Proof. intros Hc Hx. rewrite <- Hc. apply F64_round_le. exact Hx. Qed.

Lemma F32_fround_below (x c : R) : F32.fround c = c -> x <= c -> F32.fround x <= c.
Proof. intros Hc Hx. rewrite <- Hc. apply F32_fround_le. exact Hx. Qed.

Lemma F32_fround_above (x c : R) : F32.fround c = c -> c <= x -> c <= F32.fround x.
Proof. intros Hc Hx. rewrite <- Hc. apply F32_fround_le. exact Hx. Qed.

(** ** Geometry sampler *)

Lemma maxDistance_eq : Sampler.maxDistance = F64.round (sqrt 0.5).
Proof.
  unfold Sampler.maxDistance, F64.sqrt, F64.add, F64.mul.
  replace (0.5 * 0.5) with 0.25 by lra. rewrite F64_round_quarter.
  replace (0.25 + 0.25) with 0.5 by lra. rewrite F64_round_half. reflexivity.
Qed.

Lemma maxDistance_pos : 0.5 <= Sampler.maxDistance.
Proof.
  rewrite maxDistance_eq. apply (F64_round_above _ _ F64_round_half).
  rewrite <- (sqrt_square 0.5) at 1 by lra. apply sqrt_le_1_alt. lra.
Qed.

Lemma centered_range (u : R) : 0 <= u <= 1 -> - 0.5 <= F64.sub u 0.5 <= 0.5.
Proof.
  intros Hu. unfold F64.sub.
  assert (Hm : F64.round (- 0.5) = - 0.5) by dyadic (-1)%Z (-1)%Z.
  split.
  - apply (F64_round_above _ _ Hm). lra.
  - apply (F64_round_below _ _ F64_round_half). lra.
Qed.

Lemma square_range (c : R) : - 0.5 <= c <= 0.5 -> 0 <= F64.mul c c <= 0.25.
Proof.
  intros Hc. unfold F64.mul. split.
  - apply (F64_round_above _ _ F64_round_0). nra.
  - apply (F64_round_below _ _ F64_round_quarter). nra.
Qed.

Lemma normalizedDistance_range (u v : R) :
  0 <= u <= 1 -> 0 <= v <= 1 -> 0 <= Sampler.normalizedDistance u v <= 1.
Proof.
  intros Hu Hv. unfold Sampler.normalizedDistance. cbv zeta.
  pose proof maxDistance_pos as Hm.
  pose proof (square_range _ (centered_range u Hu)) as Hcu.
  pose proof (square_range _ (centered_range v Hv)) as Hcv.
  set (cu2 := F64.mul (F64.sub u 0.5) _) in *. set (cv2 := F64.mul (F64.sub v 0.5) _) in *.
  assert (Hs : 0 <= F64.add cu2 cv2 <= 0.5).
  { unfold F64.add. split.
    - apply (F64_round_above _ _ F64_round_0). lra.
    - apply (F64_round_below _ _ F64_round_half). lra. }
  set (s := F64.add cu2 cv2) in *.
  assert (Hd : 0 <= F64.sqrt s <= Sampler.maxDistance).
  { unfold F64.sqrt. split.
    - apply (F64_round_above _ _ F64_round_0). apply sqrt_pos.
    - rewrite maxDistance_eq. apply F64_round_le. apply sqrt_le_1_alt. lra. }
  set (d := F64.sqrt s) in *.
  pose proof (Rinv_0_lt_compat Sampler.maxDistance ltac:(lra)) as Hi.
  unfold F64.div. split.
  - apply (F64_round_above _ _ F64_round_0). unfold Rdiv. nra.
  - apply (F64_round_below _ _ F64_round_1).
    apply Rmult_le_reg_r with (r := Sampler.maxDistance); [lra |].
    unfold Rdiv. rewrite Rmult_assoc, Rinv_l by lra. lra.
Qed.

(** The part of the delay that depends on the place of the vertex. *)
Lemma delay_base_range (nd : R) :
  0 <= nd <= 1 -> 0 <= F64.mul (F64.sub 1 nd) 0.25 <= 0.25.
Proof.
  intros Hnd.
  assert (H1 : 0 <= F64.sub 1 nd <= 1).
  { unfold F64.sub. split.
    - apply (F64_round_above _ _ F64_round_0). lra.
    - apply (F64_round_below _ _ F64_round_1). lra. }
  unfold F64.mul. split.
  - apply (F64_round_above _ _ F64_round_0). lra.
  - apply (F64_round_below _ _ F64_round_quarter). lra.
Qed.

Lemma delay_base_decreasing (nd nd' : R) :
  nd <= nd' -> F64.mul (F64.sub 1 nd') 0.25 <= F64.mul (F64.sub 1 nd) 0.25.
Proof.
  intros Hle. unfold F64.mul. apply F64_round_le.
  assert (F64.sub 1 nd' <= F64.sub 1 nd) by (apply F64_round_le; lra). lra.
Qed.

Lemma literal_005_range :
  0.05 - / 36028797018963968 <= F64.round 0.05 <= 0.05 + / 36028797018963968.
Proof.
  pose proof (F64_round_error 0.05) as H.
  rewrite Rabs_right in H by lra. specialize (H ltac:(lra)).
  apply Rabs_le_between in H. lra.
Qed.

(** The jitter [Math.random() * 0.05]. *)
Lemma jitter_range (r : R) :
  0 <= r < 1 -> 0 <= F64.mul r (F64.round 0.05) <= 0.05 + / 18014398509481984.
Proof.
  intros Hr. pose proof literal_005_range as Hc. unfold F64.mul.
  split.
  - apply (F64_round_above _ _ F64_round_0). nra.
  - pose proof (F64_round_error (r * F64.round 0.05)) as H.
    rewrite Rabs_right in H by nra. specialize (H ltac:(nra)).
    apply Rabs_le_between in H. nra.
Qed.

Lemma jitter_below (r : R) :
  0 <= r < 1 -> r * 0.05 - / 18014398509481984 <= F64.mul r (F64.round 0.05).
Proof.
  intros Hr. pose proof literal_005_range as Hc. unfold F64.mul.
  pose proof (F64_round_error (r * F64.round 0.05)) as H.
  rewrite Rabs_right in H by nra. specialize (H ltac:(nra)).
  apply Rabs_le_between in H. nra.
Qed.

Lemma delay_max_value : 0.30 < delay_max /\ delay_max < 0.3000000120.
Proof. unfold delay_max. lra. Qed.

Lemma delay_max_exact : F64.round delay_max = delay_max /\ F32.fround delay_max = delay_max.
Proof. unfold delay_max. split; dyadic 10066330%Z (-25)%Z. Qed.

Lemma stored_delay_range (a j : R) :
  0 <= a <= 0.25 -> 0 <= j <= 0.05 + / 18014398509481984 ->
  0 <= F64.add a j <= delay_max /\
  0 <= F32.fround (F64.add a j) <= delay_max.
Proof.
  intros Ha Hj. unfold F64.add. destruct delay_max_exact as [H64 H32].
  assert (Hsum : 0 <= F64.round (a + j) <= delay_max).
  { split.
    - apply (F64_round_above _ _ F64_round_0). lra.
    - apply (F64_round_below _ _ H64). unfold delay_max. lra. }
  split; [exact Hsum |]. split.
  - apply (F32_fround_above _ _ F32_fround_0). lra.
  - apply (F32_fround_below _ _ H32). lra.
Qed.

(** Both roundings of the last two steps move the sum by less than
    [2^-25]. *)
Lemma stored_delay_error (a j : R) :
  0 <= a <= 0.25 -> 0 <= j <= 0.05 + / 18014398509481984 ->
  Rabs (F32.fround (F64.add a j) - (a + j)) <= / 33554432.
Proof.
  intros Ha Hj. destruct (stored_delay_range a j Ha Hj) as [Hs _].
  pose proof delay_max_value as Hm.
  pose proof (F32_fround_error (F64.add a j)) as H32.
  rewrite Rabs_right in H32 by lra. specialize (H32 ltac:(lra)).
  pose proof (F64_round_error (a + j)) as H64.
  rewrite Rabs_right in H64 by lra. specialize (H64 ltac:(lra)).
  fold (F64.add a j) in H64.
  apply Rabs_le_between in H32. apply Rabs_le_between in H64. apply Rabs_le. lra.
Qed.

Lemma delayOf_range (u v r : R) :
  0 <= u <= 1 -> 0 <= v <= 1 -> 0 <= r < 1 ->
  0 <= F32.fround (Sampler.delayOf u v r) <= delay_max.
Proof.
  intros Hu Hv Hr. unfold Sampler.delayOf.
  apply stored_delay_range.
  - apply delay_base_range, normalizedDistance_range; assumption.
  - apply jitter_range. exact Hr.
Qed.

(** A vertex on the rim gets little more than its jitter, one at the centre
    a quarter more. *)
Lemma delayOf_rim (u v r : R) :
  0 <= r < 1 -> Sampler.normalizedDistance u v = 1 ->
  0 <= F32.fround (Sampler.delayOf u v r) <= 13421773 / 268435456.
Proof.
  intros Hr Hnd. unfold Sampler.delayOf. rewrite Hnd.
  pose proof (jitter_range r Hr) as Hj.
  assert (Ha : F64.mul (F64.sub 1 1) 0.25 = 0).
  { unfold F64.mul, F64.sub. replace (1 - 1) with 0 by lra.
    rewrite F64_round_0, Rmult_0_l. apply F64_round_0. }
  rewrite Ha. unfold F64.add. rewrite Rplus_0_l.
  assert (H64 : F64.round (13421773 / 268435456) = 13421773 / 268435456)
    by dyadic 13421773%Z (-28)%Z.
  assert (H32 : F32.fround (13421773 / 268435456) = 13421773 / 268435456)
    by dyadic 13421773%Z (-28)%Z.
  split.
  - apply (F32_fround_above _ _ F32_fround_0).
    apply (F64_round_above _ _ F64_round_0). lra.
  - apply (F32_fround_below _ _ H32).
    apply (F64_round_below _ _ H64). lra.
Qed.

Lemma delayOf_centre (u v r : R) :
  0 <= r < 1 -> Sampler.normalizedDistance u v = 0 ->
  0.25 <= F32.fround (Sampler.delayOf u v r) <= delay_max.
Proof.
  intros Hr Hnd. unfold Sampler.delayOf. rewrite Hnd.
  pose proof (jitter_range r Hr) as Hj.
  assert (Ha : F64.mul (F64.sub 1 0) 0.25 = 0.25).
  { unfold F64.mul, F64.sub. replace (1 - 0) with 1 by lra.
    rewrite F64_round_1, Rmult_1_l. apply F64_round_quarter. }
  rewrite Ha. split.
  - assert (H32 : F32.fround 0.25 = 0.25) by dyadic 1%Z (-2)%Z.
    apply (F32_fround_above _ _ H32). unfold F64.add.
    apply (F64_round_above _ _ F64_round_quarter). lra.
  - apply stored_delay_range; lra.
Qed.

(** Of two vertices, the one farther from the centre starts earlier, up to
    the jitter and the roundings. *)
Lemma delayOf_ordered (u v r u' v' r' : R) :
  0 <= u <= 1 -> 0 <= v <= 1 -> 0 <= r < 1 ->
  0 <= u' <= 1 -> 0 <= v' <= 1 -> 0 <= r' < 1 ->
  Sampler.normalizedDistance u v <= Sampler.normalizedDistance u' v' ->
  F32.fround (Sampler.delayOf u' v' r') < F32.fround (Sampler.delayOf u v r) + 0.0500001.
Proof.
  intros Hu Hv Hr Hu' Hv' Hr' Hle. unfold Sampler.delayOf.
  pose proof (normalizedDistance_range u v Hu Hv) as Hn.
  pose proof (normalizedDistance_range u' v' Hu' Hv') as Hn'.
  pose proof (delay_base_decreasing _ _ Hle) as Hdec.
  pose proof (delay_base_range _ Hn) as Ha.
  pose proof (delay_base_range _ Hn') as Ha'.
  pose proof (jitter_range r Hr) as Hj.
  pose proof (jitter_range r' Hr') as Hj'.
  pose proof (stored_delay_error _ _ Ha Hj) as He.
  pose proof (stored_delay_error _ _ Ha' Hj') as He'.
  apply Rabs_le_between in He. apply Rabs_le_between in He'. lra.
Qed.

Section SampleLoop.

Variable vw : Sampler.View.
Variable uvs : list R.
Variable random : nat -> R.

Lemma sample_prefix_spec (count k : nat) :
  (k <= count)%nat ->
  let b := foldl (Sampler.sampleParticle vw uvs random) (Sampler.newBuffers count) (seq 0 k) in
  Sampler.draws b = (4 * k)%nat /\
  length (Sampler.delays b) = count /\
  length (Sampler.curveOffsets b) = (count * 3)%nat /\
  (forall i, (i < k)%nat ->
     Sampler.delays b !! i =
       Some (F32.fround (Sampler.delayOf (Sampler.at_index uvs (i * 2))
                           (Sampler.at_index uvs (i * 2 + 1)) (random (4 * i + 2)%nat)))) /\
  (forall i, (i < k)%nat ->
     Sampler.curveOffsets b !! (i * 3)%nat
       = Some (F32.fround (Sampler.curveOffsetOf (random (4 * i))))).
Proof.
  induction k as [|k IH]; intros Hk.
  - cbn. rewrite !length_replicate. repeat split; intros; lia.
  - rewrite seq_S, foldl_app. cbn [foldl].
    destruct IH as (Hdraws & Hlen & Hlenc & Hdel & Hcur); [lia |].
    set (b := foldl _ _ _) in *. cbv zeta. cbn [Sampler.sampleParticle Sampler.draws
      Sampler.delays Sampler.curveOffsets Nat.add].
    rewrite !length_insert. repeat split; [lia | assumption | assumption | |].
    + intros i Hi. destruct (decide (i = k)) as [->|Hne].
      * rewrite list_lookup_insert_eq by lia. rewrite Hdraws. reflexivity.
      * rewrite list_lookup_insert_ne by lia. apply Hdel. lia.
    + intros i Hi. destruct (decide (i = k)) as [->|Hne].
      * rewrite !list_lookup_insert_ne by lia.
        rewrite list_lookup_insert_eq by lia. rewrite Hdraws. reflexivity.
      * rewrite !list_lookup_insert_ne by lia. apply Hcur. lia.
Qed.

Lemma sampleAll_delays (count : nat) :
  length (Sampler.delays (Sampler.sampleAll vw uvs random count)) = count /\
  forall i, (i < count)%nat ->
    Sampler.delays (Sampler.sampleAll vw uvs random count) !! i =
      Some (F32.fround (Sampler.delayOf (Sampler.at_index uvs (i * 2))
                          (Sampler.at_index uvs (i * 2 + 1)) (random (4 * i + 2)%nat))).
Proof.
  destruct (sample_prefix_spec count count (le_n _)) as (_ & Hl & _ & Hd & _).
  split; assumption.
Qed.

Lemma sampleAll_curveOffset_x (count i : nat) :
  (i < count)%nat ->
  Sampler.curveOffsets (Sampler.sampleAll vw uvs random count) !! (i * 3)%nat
    = Some (F32.fround (Sampler.curveOffsetOf (random (4 * i)))).
Proof.
  destruct (sample_prefix_spec count count (le_n _)) as (_ & _ & _ & _ & Hc).
  apply Hc.
Qed.

End SampleLoop.

(** binary32 has no number between 0.29999998211860657 and [delay_max]:
    whatever lies above their midpoint is stored as [delay_max]. *)
Lemma fround_above_midpoint (x : R) :
  0.2999999971 <= x < 0.5 -> delay_max <= F32.fround x.
Proof.
  intros Hx. unfold F32.fround, IEEE.round. cbv zeta.
  assert (Hmag : IEEE.mag x = (-1)%Z).
  { apply Z.le_antisymm.
    - apply mag_lt_pow; [lra |]. rewrite Rabs_right by lra.
      change (powerRZ 2 (-1)) with (/ 2 ^ 1). simpl. lra.
    - apply mag_ge_pow. rewrite Rabs_right by lra.
      change (powerRZ 2 (-1 - 1)) with (/ 2 ^ 2). simpl. lra. }
  rewrite Hmag. change (Z.max (-1) (-125)) with (-1)%Z.
  change (powerRZ 2 (24 - -1)) with (2 ^ 25).
  change (powerRZ 2 (-1 - 24)) with (/ 2 ^ 25).
  rewrite pow_IZR. change (2 ^ Z.of_nat 25)%Z with 33554432%Z.
  assert (Hr : (10066330 <= IEEE.rne (x * 33554432))%Z) by (apply rne_above_half; lra).
  apply IZR_le in Hr. unfold delay_max. lra.
Qed.

Lemma normalizedDistance_centre : Sampler.normalizedDistance 0.5 0.5 = 0.
Proof.
  unfold Sampler.normalizedDistance. cbv zeta.
  unfold F64.sub. replace (0.5 - 0.5) with 0 by lra. rewrite F64_round_0.
  unfold F64.mul. rewrite Rmult_0_l, F64_round_0.
  unfold F64.add. rewrite Rplus_0_l, F64_round_0.
  unfold F64.sqrt. rewrite sqrt_0, F64_round_0.
  unfold F64.div, Rdiv. rewrite Rmult_0_l. apply F64_round_0.
Qed.

Lemma delayOf_centre_late :
  F32.fround (Sampler.delayOf 0.5 0.5 late_draw) = delay_max.
Proof.
  assert (Hr : 0 <= late_draw < 1) by (unfold late_draw; lra).
  destruct (delayOf_centre 0.5 0.5 _ Hr normalizedDistance_centre) as [_ Hhi].
  apply Rle_antisym; [exact Hhi |].
  apply fround_above_midpoint.
  unfold Sampler.delayOf. rewrite normalizedDistance_centre.
  assert (Ha : F64.mul (F64.sub 1 0) 0.25 = 0.25).
  { unfold F64.mul, F64.sub. replace (1 - 0) with 1 by lra.
    rewrite F64_round_1, Rmult_1_l. apply F64_round_quarter. }
  rewrite Ha.
  pose proof (jitter_range _ Hr) as Hj. pose proof (jitter_below _ Hr) as Hjb.
  destruct (stored_delay_range 0.25 _ ltac:(lra) Hj) as [Hs _].
  pose proof delay_max_value as Hm.
  set (j := F64.mul late_draw (F64.round 0.05)) in *.
  pose proof (F64_round_error (0.25 + j)) as He.
  rewrite Rabs_right in He by lra. specialize (He ltac:(lra)).
  apply Rabs_le_between in He. fold (F64.add 0.25 j) in He.
  unfold late_draw in Hjb. lra.
Qed.

Lemma uv_entry (uvs : list R) (k : nat) (x : R) :
  uvs !! k = Some x -> Sampler.at_index uvs k = x.
Proof. intros H. unfold Sampler.at_index. rewrite H. reflexivity. Qed.




(** ** Shape selection *)

(** The value the shader sees is the one the sampler stored: [vRandom] is the
    x component of [aCurveOffset]. *)
Lemma vRandom_is_curveOffset_x (u : Vert.Uniforms) (a : Vert.Attributes) :
  Vert.vRandom (Vert.main u a) = vx (Vert.aCurveOffset a).
Proof. reflexivity. Qed.

Lemma times_four_exact (c : R) (m e : Z) :
  c = IZR m * powerRZ 2 e -> (Z.abs m < 2 ^ 24)%Z -> (-149 <= e)%Z ->
  F64.round c = c /\ F64.round (4 * c) = 4 * c /\ F32.fround (4 * c) = 4 * c.
Proof.
  intros Hc Hm He.
  assert (Hc4 : 4 * c = IZR m * powerRZ 2 (e + 2)).
  { rewrite Hc, pow2_add. change (powerRZ 2 2) with (2 ^ 2). simpl. ring. }
  split; [| split].
  - apply (F64_round_exact c m e); [exact Hc | lia | lia].
  - apply (F64_round_exact _ m (e + 2)); [exact Hc4 | lia | lia].
  - apply (F32_fround_exact _ m (e + 2)); [exact Hc4 | exact Hm | lia].
Qed.

(** What is stored for a draw [r] is about [4 * (r - 0.5)], and lies on the
    same side of a bound [4 * c] that binary32 holds as the exact value. *)
Lemma stored_offset_below (r c : R) (m e : Z) :
  c = IZR m * powerRZ 2 e -> (Z.abs m < 2 ^ 24)%Z -> (-149 <= e)%Z ->
  r - 0.5 <= c ->
  F32.fround (F64.mul (F64.sub r 0.5) 4) <= 4 * c.
Proof.
  intros Hc Hm He Hr. destruct (times_four_exact c m e Hc Hm He) as (H1 & H2 & H3).
  apply (F32_fround_below _ _ H3). unfold F64.mul. apply (F64_round_below _ _ H2).
  assert (F64.sub r 0.5 <= c) by (apply (F64_round_below _ _ H1); exact Hr). lra.
Qed.

Lemma stored_offset_above (r c : R) (m e : Z) :
  c = IZR m * powerRZ 2 e -> (Z.abs m < 2 ^ 24)%Z -> (-149 <= e)%Z ->
  c <= r - 0.5 ->
  4 * c <= F32.fround (F64.mul (F64.sub r 0.5) 4).
Proof.
  intros Hc Hm He Hr. destruct (times_four_exact c m e Hc Hm He) as (H1 & H2 & H3).
  apply (F32_fround_above _ _ H3). unfold F64.mul. apply (F64_round_above _ _ H2).
  assert (c <= F64.sub r 0.5) by (apply (F64_round_above _ _ H1); exact Hr). lra.
Qed.

Lemma pow2_m28 : powerRZ 2 (-28) = / 268435456.
Proof. change (powerRZ 2 (-28)) with (/ 2 ^ 28). rewrite pow_IZR. reflexivity. Qed.

Lemma stored_offset_shape (r : R) :
  let x := F32.fround (F64.mul (F64.sub r 0.5) 4) in
  (0 <= r < 1 -> -2 <= x <= 2) /\
  (r <= 0.4499999 -> Frag.targetShape x = Frag.Circle) /\
  (0.4500001 <= r <= 0.5499999 -> Frag.targetShape x = Frag.Square) /\
  (0.5500001 <= r -> Frag.targetShape x = Frag.Triangle).
Proof.
  cbv zeta. unfold Frag.targetShape, Frag.selectShape.
  split; [| split; [| split]].
  - intros Hr.
    pose proof (stored_offset_above r (- 0.5) (-1) (-1)) as Hlo.
    pose proof (stored_offset_below r 0.5 1 (-1)) as Hhi.
    change (powerRZ 2 (-1)) with (/ 2 ^ 1) in Hlo, Hhi. simpl in Hlo, Hhi.
    specialize (Hlo ltac:(lra) ltac:(lia) ltac:(lia) ltac:(lra)).
    specialize (Hhi ltac:(lra) ltac:(lia) ltac:(lia) ltac:(lra)). lra.
  - intros Hr.
    pose proof (stored_offset_below r (-13421774 / 268435456) (-13421774) (-28)) as H.
    rewrite pow2_m28 in H.
    specialize (H ltac:(lra) ltac:(lia) ltac:(lia) ltac:(lra)).
    destruct (Rlt_dec _ _) as [_|Hn]; [reflexivity | lra].
  - intros Hr.
    pose proof (stored_offset_below r (13421771 / 268435456) 13421771 (-28)) as Hhi.
    pose proof (stored_offset_above r (-13421771 / 268435456) (-13421771) (-28)) as Hlo.
    rewrite pow2_m28 in Hhi, Hlo.
    specialize (Hhi ltac:(lra) ltac:(lia) ltac:(lia) ltac:(lra)).
    specialize (Hlo ltac:(lra) ltac:(lia) ltac:(lia) ltac:(lra)).
    destruct (Rlt_dec _ _) as [Hc|_]; [lra |].
    destruct (Rgt_dec _ _) as [Hc|_]; [lra | reflexivity].
  - intros Hr.
    pose proof (stored_offset_above r (13421774 / 268435456) 13421774 (-28)) as H.
    rewrite pow2_m28 in H.
    specialize (H ltac:(lra) ltac:(lia) ltac:(lia) ltac:(lra)).
    destruct (Rlt_dec _ _) as [Hc|_]; [lra |].
    destruct (Rgt_dec _ _) as [_|Hn]; [reflexivity | lra].
Qed.

(** C4: the shape of a particle follows from the first of the four draws
    made for its vertex.  [open] stores [(Math.random() - 0.5) * 4.0] as the
    x component of [aCurveOffset], a number between -2 and 2, the vertex
    shader hands it on as [vRandom], and the fragment shader compares it
    with -0.2 and 0.2.  In terms of the draw [r]: a circle when
    [r <= 0.4499999], a triangle when [r >= 0.5500001], a square when
    [0.4500001 <= r <= 0.5499999] (the margins cover the roundings of the
    computation and of the store).  A uniform draw therefore gives about 45%
    circles, 45% triangles and 10% squares, not 30%, 30% and 40%. *)
Theorem shape_shares
    (vw : Sampler.View) (uvs : list R) (random : nat -> R) (count i : nat)
    (u : Vert.Uniforms) (a : Vert.Attributes) :
  (i < count)%nat ->
  0 <= random (4 * i)%nat < 1 ->
  Sampler.curveOffsets (Sampler.sampleAll vw uvs random count) !! (3 * i)%nat
    = Some (vx (Vert.aCurveOffset a)) ->
  let r := random (4 * i)%nat in
  let shape := Frag.targetShape (Vert.vRandom (Vert.main u a)) in
  vx (Vert.aCurveOffset a) = F32.fround ((r - 0.5) * 4)%js /\
  -2 <= vx (Vert.aCurveOffset a) <= 2 /\
  (r <= 0.4499999 -> shape = Frag.Circle) /\
  (0.4500001 <= r <= 0.5499999 -> shape = Frag.Square) /\
  (0.5500001 <= r -> shape = Frag.Triangle).
Proof.
  intros Hi Hr Hstored r shape.
  replace (3 * i)%nat with (i * 3)%nat in Hstored by lia.
  rewrite (sampleAll_curveOffset_x vw uvs random count i Hi) in Hstored.
  injection Hstored as Hx. unfold Sampler.curveOffsetOf in Hx. fold r in Hx.
  unfold shape. rewrite vRandom_is_curveOffset_x, <- Hx.
  destruct (stored_offset_shape r) as (H1 & H2 & H3 & H4).
  split; [reflexivity |]. split; [apply H1; exact Hr |].
  split; [exact H2 |]. split; [exact H3 | exact H4].
Qed.

(** The draw 0.875 is stored as 1.5, the offset of the sample particle,
    which is drawn as a triangle. *)
Lemma shape_shares_witness :
  Frag.targetShape (Vert.vRandom (Vert.main (sample_uniforms 1 0) sample_particle))
    = Frag.Triangle.
Proof.
  assert (Hstored : F32.fround (F64.mul (F64.sub 0.875 0.5) 4) = 1.5).
  { unfold F64.sub. replace (0.875 - 0.5) with 0.375 by lra.
    assert (H1 : F64.round 0.375 = 0.375) by dyadic 3%Z (-3)%Z.
    rewrite H1. unfold F64.mul. replace (0.375 * 4) with 1.5 by lra.
    assert (H2 : F64.round 1.5 = 1.5) by dyadic 3%Z (-1)%Z.
    rewrite H2. dyadic 3%Z (-1)%Z. }
  refine (proj2 (proj2 (proj2 (proj2
    (shape_shares sample_view sample_uvs (fun _ => 0.875) 4 0
       (sample_uniforms 1 0) sample_particle _ _ _)))) _).
  - lia.
  - lra.
  - change (3 * 0)%nat with (0 * 3)%nat.
    rewrite (sampleAll_curveOffset_x sample_view sample_uvs (fun _ => 0.875) 4 0)
      by lia.
    unfold Sampler.curveOffsetOf. rewrite Hstored. reflexivity.
  - lra.
Defined.

(** C4 fails as stated: were 40% of the particles squares, lying between 30%
    circles and 30% triangles, the draws 0.35 and 0.65 would give squares;
    they give a circle and a triangle. *)
Lemma shape_shares_counterexample :
  Frag.targetShape (F32.fround ((0.35 - 0.5) * 4)%js) = Frag.Circle /\
  Frag.targetShape (F32.fround ((0.65 - 0.5) * 4)%js) = Frag.Triangle.
Proof.
  destruct (stored_offset_shape 0.35) as (_ & H1 & _ & _).
  destruct (stored_offset_shape 0.65) as (_ & _ & _ & H2).
  split; [apply H1; lra | apply H2; lra].
Qed.

(** ** [updateStartPositions] as an array operation *)

Section UpdateLoop.

Variable vw : Sampler.View.
Variable uvs : list R.

Lemma updateLoop_spec (n : nat) (l : list R) :
  let r := Sampler.updateStartPositionsLoop vw uvs n l in
  length r = length l /\
  (forall j, (3 * n <= j)%nat -> r !! j = l !! j) /\
  (forall i, (i < n)%nat -> r !! (i * 3 + 2)%nat = l !! (i * 3 + 2)%nat) /\
  (forall i, (i < n)%nat -> (i * 3 + 1 < length l)%nat ->
     r !! (i * 3)%nat
       = Some (F32.fround (Sampler.startX vw (Sampler.at_index uvs (i * 2)))) /\
     r !! (i * 3 + 1)%nat
       = Some (F32.fround (Sampler.startY vw (Sampler.at_index uvs (i * 2 + 1))))).
Proof.
  unfold Sampler.updateStartPositionsLoop.
  induction n as [|n IH]; cbv zeta.
  - cbn. repeat split; intros; lia.
  - rewrite seq_S, foldl_app. cbn [foldl Nat.add].
    destruct IH as (Hlen & Hrest & Hz & Hxy).
    set (r := foldl _ _ _) in *.
    unfold Sampler.updateStartPosition.
    rewrite !length_insert. split; [exact Hlen |]. split; [| split].
    + intros j Hj. rewrite !list_lookup_insert_ne by lia. apply Hrest. lia.
    + intros i Hi. rewrite !list_lookup_insert_ne by lia.
      destruct (decide (i = n)) as [->|Hne]; [apply Hrest; lia | apply Hz; lia].
    + intros i Hi Hin. destruct (decide (i = n)) as [->|Hne].
      * split.
        -- rewrite list_lookup_insert_ne by lia.
           apply list_lookup_insert_eq. lia.
        -- apply list_lookup_insert_eq. rewrite length_insert. lia.
      * rewrite !list_lookup_insert_ne by lia. apply Hxy; [lia | exact Hin].
Qed.

End UpdateLoop.

(** ** Resize *)

Lemma updateCamera_flightParameters (env : Viewer.Env) (s : Viewer.State) :
  flightParameters (Viewer.updateCamera env s) = flightParameters s.
Proof.
  unfold Viewer.updateCamera, flightParameters.
  destruct (Viewer.currentPoints s) as [pts|] eqn:Hp; cbn; [| rewrite ?Hp; reflexivity].
  destruct (Viewer.renderer s); cbn; [| rewrite ?Hp; reflexivity].
  destruct (Viewer.camera s); cbn; [| rewrite ?Hp; reflexivity].
  destruct (Viewer.calculateViewDimensions env s) as [vw vh].
  cbn. rewrite ?Hp. reflexivity.
Qed.

Lemma updateStartPositions_flightParameters (env : Viewer.Env) (s : Viewer.State) :
  flightParameters (Viewer.updateStartPositions env s) = flightParameters s.
Proof.
  unfold Viewer.updateStartPositions, flightParameters.
  destruct (Viewer.currentPoints s) as [pts|] eqn:Hp; cbn; [| rewrite ?Hp; reflexivity].
  destruct (Viewer.sourceImage s); cbn; [| rewrite ?Hp; reflexivity].
  rewrite ?Hp. reflexivity.
Qed.

(** What [updateStartPositions] reads is what it was before
    [updateCamera]. *)
Lemma updateCamera_keeps (env : Viewer.Env) (s : Viewer.State) :
  Viewer.sourceImage (Viewer.updateCamera env s) = Viewer.sourceImage s /\
  Viewer.imageWidth (Viewer.updateCamera env s) = Viewer.imageWidth s /\
  Viewer.imageHeight (Viewer.updateCamera env s) = Viewer.imageHeight s /\
  Viewer.config (Viewer.updateCamera env s) = Viewer.config s /\
  Viewer.geometry <$> Viewer.currentPoints (Viewer.updateCamera env s)
    = Viewer.geometry <$> Viewer.currentPoints s.
Proof.
  unfold Viewer.updateCamera.
  destruct (Viewer.currentPoints s) as [pts|] eqn:Hp; [| rewrite Hp; repeat split].
  destruct (Viewer.renderer s); [| rewrite Hp; repeat split].
  destruct (Viewer.camera s); [| rewrite Hp; repeat split].
  destruct (Viewer.calculateViewDimensions env s) as [vw vh].
  destruct s; cbn in *. subst. repeat split.
Qed.

(** The world rectangle shown in the window, [calculateViewDimensions]. *)
Lemma viewOf_eq (env : Viewer.Env) (img : Viewer.Img) (s : Viewer.State) :
  let imgAspect := (Viewer.imageWidth s / Viewer.imageHeight s)%js in
  let vpAspect := (Viewer.innerWidth env / Viewer.innerHeight env)%js in
  let padding := Viewer.padding (Viewer.config s) in
  Viewer.viewOf env img s =
    {| Sampler.imgRect := Viewer.rectOf env (Viewer.img_id img);
       Sampler.vpWidth := Viewer.innerWidth env;
       Sampler.vpHeight := Viewer.innerHeight env;
       Sampler.viewWidth :=
         if Rgt_dec imgAspect vpAspect then (Viewer.imageWidth s * padding)%js
         else (Viewer.imageHeight s * padding * vpAspect)%js;
       Sampler.viewHeight :=
         if Rgt_dec imgAspect vpAspect then (Viewer.imageWidth s * padding / vpAspect)%js
         else (Viewer.imageHeight s * padding)%js |}.
Proof.
  cbv zeta. unfold Viewer.viewOf, Viewer.calculateViewDimensions,
    Sampler.calculateViewDimensions. cbv zeta.
  destruct (Rgt_dec _ _); reflexivity.
Qed.


Lemma F64_round_int (n : Z) : (Z.abs n < 2 ^ 53)%Z -> F64.round (IZR n) = IZR n.
Proof. intros Hn. apply (F64_round_exact _ n 0); [cbn; ring | exact Hn | lia]. Qed.

Lemma F32_fround_int (n : Z) : (Z.abs n < 2 ^ 24)%Z -> F32.fround (IZR n) = IZR n.
Proof. intros Hn. apply (F32_fround_exact _ n 0); [cbn; ring | exact Hn | lia]. Qed.

(** The operation at hand has the integer [n] as its exact result. *)
Ltac exact_int n :=
  match goal with
  | |- context [F64.round ?x] =>
      replace x with (IZR n) by lra; rewrite (F64_round_int n) by reflexivity
  end.



(** ** Fallback detection *)

(** X1: In both revisions of [performance.ts], [getFallbackReason] names a
    reason exactly when [shouldUseFallback] asks for the fallback, although
    the two functions test their three conditions in different orders. *)
Theorem fallback_reason_iff_fallback (p : Performance.Page) :
  (Performance.Network.getFallbackReason p = None <->
   Performance.Network.shouldUseFallback p = false) /\
  (Performance.Hardware.getFallbackReason p = None <->
   Performance.Hardware.shouldUseFallback p = false).
Proof.
  unfold Performance.Network.getFallbackReason, Performance.Network.shouldUseFallback,
    Performance.Hardware.getFallbackReason, Performance.Hardware.shouldUseFallback.
  destruct (Performance.prefersReducedMotion p),
    (Performance.Network.isLowPerformance p), (Performance.Network.isWebGLSupported p),
    (Performance.Hardware.isLowPerformance p), (Performance.Hardware.isWebGLSupported p);
    cbn; split; split; congruence.
Qed.

(** X2: Dropping the hardware checks only removes detections: a page the
    network-only [isLowPerformance] calls slow is also slow for the
    revision with the memory and CPU checks. *)
Theorem network_low_performance_implies_hardware (p : Performance.Page) :
  Performance.Network.isLowPerformance p = true ->
  Performance.Hardware.isLowPerformance p = true.
Proof.
  unfold Performance.Network.isLowPerformance, Performance.Hardware.isLowPerformance.
  destruct (Performance.dataSaver (Performance.navigator p)),
    (Performance.slowConnection (Performance.navigator p)); cbn; congruence.
Qed.

Lemma network_low_performance_implies_hardware_witness :
  Performance.Network.isLowPerformance slow_page = true /\
  Performance.Hardware.isLowPerformance slow_page = true.
Proof.
  split; [reflexivity | apply network_low_performance_implies_hardware; reflexivity].
Defined.

(** X3: Trying [webgl2] first can only add support, unless that very call
    throws: when [getContext('webgl2')] returns normally, a page on which
    [webgl || experimental-webgl] finds a context is also supported by the
    revision that tries [webgl2] first. *)
Theorem webgl2_first_keeps_support (p : Performance.Page) :
  Performance.getContext p "webgl2"%string <> Performance.Throws ->
  Performance.Hardware.isWebGLSupported p = true ->
  Performance.Network.isWebGLSupported p = true.
Proof.
  unfold Performance.Hardware.isWebGLSupported, Performance.Network.isWebGLSupported.
  intros Hthrow. cbn -[String.eqb].
  destruct (Performance.getContext p "webgl2"); [reflexivity | trivial | congruence].
Qed.

Lemma webgl2_first_keeps_support_witness :
  Performance.Network.isWebGLSupported slow_page = true.
Proof.
  apply webgl2_first_keeps_support; [discriminate | reflexivity].
Defined.

(** ** The lightbox without animations *)

Lemma indexOfFrom_range (l : list Viewer.Item) (item : Viewer.Item) (k : Z) :
  Viewer.indexOfFrom l item k = (-1)%Z \/
  (k <= Viewer.indexOfFrom l item k < k + Z.of_nat (length l))%Z.
Proof.
  revert k. induction l as [|x l IH]; intros k; cbn [Viewer.indexOfFrom length].
  - now left.
  - destruct (Nat.eqb _ _).
    + right. lia.
    + destruct (IH (k + 1)%Z) as [->|H]; [now left | right; lia].
Qed.

Lemma indexOfFrom_found (l : list Viewer.Item) (item : Viewer.Item) (k : Z) (i : nat) :
  l !! i = Some item ->
  exists j x, l !! j = Some x /\ Viewer.item_id x = Viewer.item_id item /\
              Viewer.indexOfFrom l item k = (k + Z.of_nat j)%Z.
Proof.
  revert k i. induction l as [|x l IH]; intros k i Hi; [discriminate|].
  cbn [Viewer.indexOfFrom].
  destruct (Nat.eqb (Viewer.item_id x) (Viewer.item_id item)) eqn:E.
  - exists 0%nat, x. apply Nat.eqb_eq in E. repeat split; [assumption | lia].
  - destruct i as [|i].
    + cbn in Hi. injection Hi as ->. rewrite Nat.eqb_refl in E. discriminate.
    + destruct (IH (k + 1)%Z i Hi) as (j & y & Hj & Hy & ->).
      exists (S j), y. repeat split; [assumption.. | lia].
Qed.

Lemma imageAt_of_nat (l : list Viewer.Item) (j : nat) :
  Viewer.imageAt l (Z.of_nat j) = l !! j.
Proof.
  unfold Viewer.imageAt. destruct (Z.ltb_spec (Z.of_nat j) 0); [lia|].
  now rewrite Nat2Z.id.
Qed.

Lemma imageAt_in_range (l : list Viewer.Item) (i : Z) :
  (0 <= i < Z.of_nat (length l))%Z -> is_Some (Viewer.imageAt l i).
Proof.
  intros H. unfold Viewer.imageAt. destruct (Z.ltb_spec i 0); [lia|].
  apply lookup_lt_is_Some_2. lia.
Qed.

Lemma windowStart_range (total ci st : Z) :
  (Lightbox.maxVisibleDots < total)%Z -> (0 <= ci < total)%Z ->
  let st' := Lightbox.windowStart total ci st in
  (0 <= st' <= total - Lightbox.maxVisibleDots)%Z /\
  (st' <= ci < st' + Lightbox.maxVisibleDots)%Z.
Proof.
  unfold Lightbox.windowStart, Lightbox.maxVisibleDots. intros Ht Hc.
  destruct (Z.ltb_spec 5 total); [|lia].
  destruct (Z.ltb_spec st (Z.max 0 (ci - 5 + 1))); [cbn zeta; lia|].
  destruct (Z.ltb_spec (Z.min ci (total - 5)) st); cbn zeta; lia.
Qed.

Lemma windowStart_small (total ci st : Z) :
  (total <= Lightbox.maxVisibleDots)%Z -> Lightbox.windowStart total ci st = st.
Proof.
  unfold Lightbox.windowStart, Lightbox.maxVisibleDots. intros Ht.
  destruct (Z.ltb_spec 5 total); [lia | reflexivity].
Qed.

Lemma imap_compose {A B C : Type} (f : nat -> B -> C) (g : nat -> A -> B) (l : list A) :
  imap f (imap g l) = imap (fun i x => f i (g i x)) l.
Proof.
  apply list_eq. intros i. rewrite !list_lookup_imap.
  destruct (l !! i); reflexivity.
Qed.

(** [updatePagination] writes the window start and the two flags of every
    dot, and nothing else. *)
Lemma updatePagination_eq (s : Lightbox.State) (dots : list Viewer.Dot) :
  Lightbox.dotsContainer s = Some dots ->
  let total := Z.of_nat (length (Lightbox.images s)) in
  let st' := Lightbox.windowStart total (Lightbox.currentIndex s)
               (Lightbox.paginationStartIndex s) in
  let endIndex := Z.min (st' + Lightbox.maxVisibleDots) total in
  let st'' :=
    if ((endIndex - st' <? Lightbox.maxVisibleDots)%Z &&
        (Lightbox.maxVisibleDots <=? total)%Z)%bool
    then (total - Lightbox.maxVisibleDots)%Z else st' in
  Lightbox.updatePagination s =
  {| s with Lightbox.paginationStartIndex := st';
            Lightbox.dotsContainer :=
              Some (imap (fun i d =>
                            {| Viewer.dot_active := (Z.of_nat i =? Lightbox.currentIndex s)%Z;
                               Viewer.dot_shown :=
                                 ((st'' <=? Z.of_nat i)%Z && (Z.of_nat i <? endIndex)%Z)%bool |})
                         dots) |}.
Proof.
  intros Hd. destruct s; cbn in *. subst.
  unfold Lightbox.updatePagination, Lightbox.windowStart; cbn.
  destruct (Lightbox.maxVisibleDots <? _)%Z; cbn;
    [destruct (_ <? Z.max _ _)%Z; cbn; [|destruct (Z.min _ _ <? _)%Z; cbn]|];
    unfold Lightbox.updatePaginationVisibility; cbn; rewrite imap_compose; reflexivity.
Qed.

Lemma updatePagination_none (s : Lightbox.State) :
  Lightbox.dotsContainer s = None -> Lightbox.updatePagination s = s.
Proof. intros H. unfold Lightbox.updatePagination. now rewrite H. Qed.

Lemma showImage_pagination (img : Viewer.Img) (s : Lightbox.State) :
  Lightbox.pagination (Lightbox.showImage img s) = Lightbox.pagination s /\
  Lightbox.containerVisible (Lightbox.showImage img s) = Lightbox.containerVisible s.
Proof.
  unfold Lightbox.showImage.
  destruct (Viewer.or_else _ _) as [[|c url]|]; cbn;
    destruct (Lightbox.captionElement s); cbn; split; reflexivity.
Qed.

(** Consistency only looks at the pagination and at the visibility of the
    container. *)
Lemma consistent_transfer (s s' : Lightbox.State) :
  Lightbox.pagination s' = Lightbox.pagination s ->
  Lightbox.consistent s ->
  (Lightbox.containerVisible s' = true ->
   Lightbox.containerVisible s = true \/ Lightbox.currentDotActive s) ->
  Lightbox.consistent s'.
Proof.
  unfold Lightbox.pagination. intros Hp [H1 H2 H3 H4 H5 H6 H7] Hv.
  injection Hp as Hi Hc Hs Hd.
  split; unfold Lightbox.shownWindow, Lightbox.currentDotActive in *;
    rewrite ?Hi, ?Hc, ?Hs, ?Hd; try assumption.
  intros Hvis. destruct (Hv Hvis) as [Hv'|Hv']; [exact (H7 Hv') | exact Hv'].
Qed.

Lemma repaginate_consistent (s : Lightbox.State) :
  (0 <= Lightbox.currentIndex s < Z.max 1 (Z.of_nat (length (Lightbox.images s))))%Z ->
  (0 <= Lightbox.paginationStartIndex s
     <= Z.max 0 (Z.of_nat (length (Lightbox.images s)) - Lightbox.maxVisibleDots))%Z ->
  (forall dots, Lightbox.dotsContainer s = Some dots ->
                length dots = length (Lightbox.images s)) ->
  Lightbox.consistent (Lightbox.updatePagination s) /\
  Lightbox.currentDotActive (Lightbox.updatePagination s) /\
  Lightbox.images (Lightbox.updatePagination s) = Lightbox.images s /\
  Lightbox.currentIndex (Lightbox.updatePagination s) = Lightbox.currentIndex s.
Proof.
  intros Hc Hs Hl.
  destruct (Lightbox.dotsContainer s) as [dots|] eqn:Hd.
  2:{ rewrite (updatePagination_none s Hd).
      split; [|split; [|split; reflexivity]].
      - split; unfold Lightbox.currentDotActive; rewrite ?Hd;
          try assumption; try discriminate.
        intros [? ?]; discriminate.
      - unfold Lightbox.currentDotActive. rewrite Hd. discriminate. }
  specialize (Hl dots eq_refl).
  rewrite (updatePagination_eq s dots Hd). cbn.
  set (total := Z.of_nat (length (Lightbox.images s))) in *.
  set (st' := Lightbox.windowStart total _ _).
  assert (Hw : (0 <= st' <= Z.max 0 (total - Lightbox.maxVisibleDots))%Z /\
               (st' <= Lightbox.currentIndex s)%Z /\
               ((Lightbox.maxVisibleDots < total)%Z ->
                (Lightbox.currentIndex s < st' + Lightbox.maxVisibleDots)%Z)).
  { destruct (Z.lt_ge_cases Lightbox.maxVisibleDots total) as [Hbig|Hsmall].
    - pose proof (windowStart_range total (Lightbox.currentIndex s)
                    (Lightbox.paginationStartIndex s) Hbig) as Hr.
      cbn zeta in Hr. fold st' in Hr.
      unfold Lightbox.maxVisibleDots in *. lia.
    - subst st'. rewrite windowStart_small by assumption.
      unfold Lightbox.maxVisibleDots in *. lia. }
  destruct Hw as (Hw1 & Hw2 & Hw3).
  repeat split; cbn; try assumption; try lia.
  - intros ? [= <-]. rewrite length_imap. exact Hl.
  - intros ? i d [= <-]. rewrite list_lookup_imap.
    destruct (dots !! i) eqn:Hi; [|discriminate]. intros [= <-]. cbn.
    apply lookup_lt_Some in Hi.
    unfold Lightbox.shownWindow; cbn. fold total.
    unfold Lightbox.maxVisibleDots in *.
    destruct (Z.ltb_spec 5 total).
    + rewrite Z.min_l by lia.
      destruct (Z.ltb_spec (st' + 5 - st') 5); [lia|]. reflexivity.
    + assert (st' = 0%Z) as -> by lia.
      rewrite Z.min_r by lia.
      destruct (Z.ltb_spec (total - 0) 5), (Z.leb_spec 5 total); cbn; try lia;
        destruct (Z.leb_spec 0 (Z.of_nat i)), (Z.ltb_spec (Z.of_nat i) total);
        cbn; lia.
  - intros ? i d [= <-]. rewrite list_lookup_imap.
    destruct (dots !! i); [|discriminate]. intros [= <-]. cbn.
    intros H. now apply Z.eqb_eq in H.
  - intros _ ? i d [= <-]. rewrite list_lookup_imap.
    destruct (dots !! i); [|discriminate]. intros [= <-]. cbn.
    intros H. now apply Z.eqb_eq.
  - intros ? i d [= <-]. rewrite list_lookup_imap.
    destruct (dots !! i); [|discriminate]. intros [= <-]. cbn.
    intros H. now apply Z.eqb_eq.
Qed.

Lemma goTo_consistent (index : Z) (s : Lightbox.State) :
  Lightbox.consistent s ->
  (0 <= index < Z.of_nat (length (Lightbox.images s)))%Z ->
  exists s', Lightbox.goTo index s = Some s' /\ Lightbox.consistent s' /\
             Lightbox.images s' = Lightbox.images s.
Proof.
  intros Hs Hi. unfold Lightbox.goTo.
  destruct (imageAt_in_range _ _ Hi) as [item ->].
  destruct (Viewer.getImageFromItem item) as [img|]; [|now exists s].
  eexists. split; [reflexivity|].
  set (s1 := {| s with Lightbox.currentIndex := index |}).
  destruct (repaginate_consistent s1) as (Hc & Ha & Him & _).
  - cbn. lia.
  - exact (Lightbox.window_in_range s Hs).
  - exact (Lightbox.dots_per_image s Hs).
  - destruct (showImage_pagination img (Lightbox.updatePagination s1)) as [Hp Hv].
    split.
    + apply (consistent_transfer _ _ Hp Hc). intros _. now right.
    + injection Hp as -> _ _ _. exact Him.
Qed.

Lemma rem_next_range (ci n : Z) :
  (0 <= ci < n)%Z -> (0 <= Z.rem (ci + 1) n < n)%Z.
Proof.
  intros H. rewrite Z.rem_mod_nonneg by lia. apply Z.mod_pos_bound. lia.
Qed.

Lemma rem_prev_range (ci n : Z) :
  (0 <= ci < n)%Z -> (0 <= Z.rem (ci - 1 + n) n < n)%Z.
Proof.
  intros H. rewrite Z.rem_mod_nonneg by lia. apply Z.mod_pos_bound. lia.
Qed.

Lemma consistent_index_lt (s : Lightbox.State) :
  Lightbox.consistent s -> (1 < length (Lightbox.images s))%nat ->
  (0 <= Lightbox.currentIndex s < Z.of_nat (length (Lightbox.images s)))%Z.
Proof. intros Hs Hn. pose proof (Lightbox.index_in_range s Hs). lia. Qed.

Lemma next_consistent (s : Lightbox.State) :
  Lightbox.consistent s ->
  exists s', Lightbox.next s = Some s' /\ Lightbox.consistent s' /\
             Lightbox.images s' = Lightbox.images s.
Proof.
  intros Hs. unfold Lightbox.next.
  destruct (Nat.leb_spec (length (Lightbox.images s)) 1); [now exists s|].
  apply goTo_consistent; [assumption|].
  apply rem_next_range. now apply consistent_index_lt.
Qed.

Lemma prev_consistent (s : Lightbox.State) :
  Lightbox.consistent s ->
  exists s', Lightbox.prev s = Some s' /\ Lightbox.consistent s' /\
             Lightbox.images s' = Lightbox.images s.
Proof.
  intros Hs. unfold Lightbox.prev.
  destruct (Nat.leb_spec (length (Lightbox.images s)) 1); [now exists s|].
  apply goTo_consistent; [assumption|].
  apply rem_prev_range. now apply consistent_index_lt.
Qed.

Lemma close_pagination (s : Lightbox.State) :
  Lightbox.pagination (Lightbox.close s) = Lightbox.pagination s /\
  Lightbox.containerVisible (Lightbox.close s) = false.
Proof.
  unfold Lightbox.close. cbn.
  destruct (Viewer.imageAt _ _) as [item|]; [destruct (Viewer.item_focusable item) |];
    split; reflexivity.
Qed.

Lemma close_consistent (s : Lightbox.State) :
  Lightbox.consistent s ->
  Lightbox.consistent (Lightbox.close s) /\
  Lightbox.images (Lightbox.close s) = Lightbox.images s.
Proof.
  intros Hs. destruct (close_pagination s) as [Hp Hv]. split.
  - apply (consistent_transfer _ _ Hp Hs). rewrite Hv. discriminate.
  - now injection Hp.
Qed.

Lemma open_consistent (item : Viewer.Item) (i : nat) (s : Lightbox.State) :
  Lightbox.consistent s -> Lightbox.images s !! i = Some item ->
  Lightbox.consistent (Lightbox.open item s) /\
  Lightbox.images (Lightbox.open item s) = Lightbox.images s.
Proof.
  intros Hs Hi. unfold Lightbox.open.
  destruct (Viewer.getImageFromItem item) as [img|]; [|now split].
  set (s1 := {| s with Lightbox.currentIndex := Viewer.indexOf (Lightbox.images s) item |}).
  destruct (repaginate_consistent s1) as (Hc & Ha & Him & _).
  - cbn. unfold Viewer.indexOf.
    destruct (indexOfFrom_found _ _ 0%Z _ Hi) as (j & x & Hj & _ & ->).
    apply lookup_lt_Some in Hj. lia.
  - exact (Lightbox.window_in_range s Hs).
  - exact (Lightbox.dots_per_image s Hs).
  - destruct (showImage_pagination img (Lightbox.updatePagination s1)) as [Hp Hv].
    split.
    + eapply consistent_transfer; [|exact Hc|intros _; now right].
      rewrite <- Hp. reflexivity.
    + cbn. injection Hp as -> _ _ _. exact Him.
Qed.

Lemma keydown_consistent (key : string) (shiftKey : bool) (s : Lightbox.State) :
  Lightbox.consistent s ->
  exists s' p, Lightbox.boundKeydown key shiftKey s = Some (s', p) /\
               Lightbox.consistent s' /\ Lightbox.images s' = Lightbox.images s.
Proof.
  intros Hs. unfold Lightbox.boundKeydown.
  destruct (Lightbox.containerVisible s) eqn:Hv; [|now exists s, false].
  destruct (String.eqb key "Escape").
  { destruct (close_consistent s Hs). now exists (Lightbox.close s), false. }
  destruct (String.eqb key "ArrowLeft").
  { destruct (prev_consistent s Hs) as (s' & -> & ?). now exists s', true. }
  destruct (String.eqb key "ArrowRight").
  { destruct (next_consistent s Hs) as (s' & -> & ?). now exists s', true. }
  destruct (String.eqb key "Tab"); [|now exists s, false].
  destruct (_ && _)%bool.
  { eexists _, _. split; [reflexivity|]. split; [|reflexivity].
    apply (consistent_transfer s); [reflexivity | assumption | now left]. }
  destruct (_ && _)%bool; [|now exists s, false].
  eexists _, _. split; [reflexivity|]. split; [|reflexivity].
  apply (consistent_transfer s); [reflexivity | assumption | now left].
Qed.

Lemma touchEnd_consistent (x y : R) (s : Lightbox.State) :
  Lightbox.consistent s ->
  exists s', Lightbox.boundTouchEnd x y s = Some s' /\
             Lightbox.consistent s' /\ Lightbox.images s' = Lightbox.images s.
Proof.
  intros Hs. unfold Lightbox.boundTouchEnd.
  destruct (negb _); [now exists s|].
  destruct (_ <=? _)%nat; [now exists s|].
  destruct (Rgt_dec _ _); [|now exists s].
  destruct (Rgt_dec _ _); [|now exists s].
  destruct (Rgt_dec _ _); [now apply prev_consistent | now apply next_consistent].
Qed.

Lemma dispatch_consistent (e : Lightbox.Event) (s : Lightbox.State) :
  Lightbox.consistent s ->
  exists s', Lightbox.dispatch e s = Some s' /\
             Lightbox.consistent s' /\ Lightbox.images s' = Lightbox.images s.
Proof.
  intros Hs. destruct e; cbn [Lightbox.dispatch].
  - destruct (Lightbox.images s !! i) as [item|] eqn:Hi; [|now exists s].
    destruct (bool_decide _); [|now exists s].
    eexists. split; [reflexivity|]. now apply (open_consistent item i).
  - eexists. split; [reflexivity|]. now apply close_consistent.
  - eexists. split; [reflexivity|]. now apply close_consistent.
  - now apply prev_consistent.
  - now apply next_consistent.
  - destruct (Lightbox.dotsContainer s) as [dots|] eqn:Hd; cbn; [|now exists s].
    destruct (dots !! index) eqn:Hi; [|now exists s].
    destruct (negb _); [|now exists s].
    apply goTo_consistent; [assumption|].
    apply lookup_lt_Some in Hi.
    rewrite (Lightbox.dots_per_image s Hs dots Hd) in Hi. lia.
  - destruct (Lightbox.keydownBound s); [|now exists s].
    destruct (keydown_consistent key shiftKey s Hs) as (s' & p & -> & ?).
    now exists s'.
  - destruct (Lightbox.touchBound s); (eexists; split; [reflexivity|]); [|now split].
    split; [|reflexivity].
    apply (consistent_transfer s); [reflexivity | assumption | now left].
  - destruct (Lightbox.touchBound s); [|now exists s].
    now apply touchEnd_consistent.
Qed.

Lemma construct_consistent (srcAttr : string) (imgs : list Viewer.Item)
    (caption : option Viewer.Caption) (hasPaginationElement : bool) :
  Lightbox.consistent (Lightbox.construct srcAttr imgs caption hasPaginationElement).
Proof.
  unfold Lightbox.construct, Lightbox.initPagination.
  destruct (1 <? length imgs)%nat eqn:Hn; [destruct hasPaginationElement|].
  2,3: split; cbn; try discriminate; unfold Lightbox.maxVisibleDots; try lia;
         try (intros [? ?]; discriminate).
  apply Nat.ltb_lt in Hn.
  unfold Lightbox.updatePaginationVisibility; cbn.
  split; cbn; unfold Lightbox.maxVisibleDots; try lia; try discriminate.
  - intros ? [= <-]. now rewrite length_imap, length_replicate.
  - intros ? i d [= <-]. rewrite list_lookup_imap.
    destruct (replicate _ _ !! i) eqn:Hi; [|discriminate]. intros [= <-]. cbn.
    apply lookup_lt_Some in Hi. rewrite length_replicate in Hi.
    unfold Lightbox.shownWindow; cbn. unfold Lightbox.maxVisibleDots.
    set (total := Z.of_nat (length imgs)).
    destruct (Z.ltb_spec 5 total).
    + rewrite Z.min_l by lia. destruct (Z.ltb_spec (0 + 5 - 0) 5); [lia|]. reflexivity.
    + rewrite Z.min_r by lia.
      destruct (Z.ltb_spec (total - 0) 5), (Z.leb_spec 5 total); cbn; try lia;
        destruct (Z.leb_spec 0 (Z.of_nat i)), (Z.ltb_spec (Z.of_nat i) total);
        cbn; lia.
  - intros ? i d [= <-]. rewrite list_lookup_imap.
    destruct (replicate _ _ !! i) eqn:Hi; [|discriminate]. intros [= <-]. cbn.
    apply lookup_replicate in Hi as [-> _]. discriminate.
Qed.

Lemma run_consistent (events : list Lightbox.Event) (s : Lightbox.State) :
  Lightbox.consistent s ->
  exists s', Lightbox.run events s = Some s' /\
             Lightbox.consistent s' /\ Lightbox.images s' = Lightbox.images s.
Proof.
  revert s. induction events as [|e events IH]; intros s Hs; [now exists s|].
  cbn [Lightbox.run].
  destruct (dispatch_consistent e s Hs) as (s1 & -> & Hs1 & Hi1). cbn.
  destruct (IH s1 Hs1) as (s' & -> & Hs' & Hi').
  exists s'. split; [reflexivity|]. split; [assumption | congruence].
Qed.

(** X4: Every listener of the lightbox keeps its pagination consistent and
    none raises: from a consistent state, whatever the event, the handler
    returns, the gallery is the same, the index is inside it, the window of
    dots holds the index, the dots shown are those of the window, and while
    the lightbox is open the active dot is that of the current image. *)
Theorem lightbox_event_keeps_consistency (e : Lightbox.Event) (s : Lightbox.State) :
  Lightbox.consistent s ->
  exists s', Lightbox.dispatch e s = Some s' /\
             Lightbox.consistent s' /\ Lightbox.images s' = Lightbox.images s.
Proof. apply dispatch_consistent. Qed.

Lemma lightbox_event_keeps_consistency_witness :
  exists s', Lightbox.dispatch Lightbox.NextClick sample_lightbox = Some s' /\
             Lightbox.consistent s' /\ Lightbox.images s' = Lightbox.images sample_lightbox.
Proof.
  apply lightbox_event_keeps_consistency. apply construct_consistent.
Defined.

(** X5: A lightbox as the constructor leaves it is consistent, and it stays
    so under any sequence of events, none of which makes a handler
    raise. *)
Theorem lightbox_never_raises (srcAttr : string) (imgs : list Viewer.Item)
    (caption : option Viewer.Caption) (hasPaginationElement : bool)
    (events : list Lightbox.Event) :
  exists s',
    Lightbox.run events (Lightbox.construct srcAttr imgs caption hasPaginationElement)
      = Some s' /\
    Lightbox.consistent s' /\ Lightbox.images s' = imgs.
Proof.
  destruct (run_consistent events _
              (construct_consistent srcAttr imgs caption hasPaginationElement))
    as (s' & Hr & Hc & Hi).
  exists s'. split; [assumption|]. split; [assumption|].
  rewrite Hi. unfold Lightbox.construct, Lightbox.initPagination.
  destruct (1 <? length imgs)%nat; [destruct hasPaginationElement|]; reflexivity.
Qed.

Lemma updatePagination_frame (s : Lightbox.State) :
  Lightbox.images (Lightbox.updatePagination s) = Lightbox.images s /\
  Lightbox.currentIndex (Lightbox.updatePagination s) = Lightbox.currentIndex s /\
  Lightbox.captionElement (Lightbox.updatePagination s) = Lightbox.captionElement s /\
  Lightbox.activeElement (Lightbox.updatePagination s) = Lightbox.activeElement s.
Proof.
  destruct (Lightbox.dotsContainer s) as [dots|] eqn:Hd.
  - rewrite (updatePagination_eq s dots Hd). cbn. repeat split.
  - rewrite (updatePagination_none s Hd). repeat split.
Qed.

Lemma showImage_frame (img : Viewer.Img) (s : Lightbox.State) :
  Lightbox.images (Lightbox.showImage img s) = Lightbox.images s /\
  Lightbox.currentIndex (Lightbox.showImage img s) = Lightbox.currentIndex s /\
  Lightbox.captionElement (Lightbox.showImage img s) =
    (fun _ => {| Viewer.innerText := Viewer.altOf img; Viewer.caption_visible := true |})
      <$> Lightbox.captionElement s.
Proof.
  unfold Lightbox.showImage.
  destruct (Viewer.or_else _ _) as [[|c url]|]; cbn;
    destruct (Lightbox.captionElement s) eqn:E; cbn; rewrite ?E; repeat split.
Qed.

Lemma close_spec (s : Lightbox.State) :
  Lightbox.containerVisible (Lightbox.close s) = false /\
  Lightbox.bodyOverflow (Lightbox.close s) = EmptyString /\
  Lightbox.captionElement (Lightbox.close s) =
    (fun c => {| c with Viewer.caption_visible := false |}) <$> Lightbox.captionElement s /\
  Lightbox.activeElement (Lightbox.close s) =
    match Viewer.imageAt (Lightbox.images s) (Lightbox.currentIndex s) with
    | Some item =>
        if Viewer.item_focusable item then Lightbox.FocusItem (Viewer.item_id item)
        else Lightbox.activeElement s
    | None => Lightbox.activeElement s
    end.
Proof.
  unfold Lightbox.close. cbn.
  destruct (Viewer.imageAt _ _) as [item|]; [destruct (Viewer.item_focusable item) |];
    repeat split.
Qed.

Lemma open_spec (item : Viewer.Item) (img : Viewer.Img) (s : Lightbox.State) :
  Viewer.getImageFromItem item = Some img ->
  Lightbox.images (Lightbox.open item s) = Lightbox.images s /\
  Lightbox.currentIndex (Lightbox.open item s) = Viewer.indexOf (Lightbox.images s) item /\
  Lightbox.containerVisible (Lightbox.open item s) = true /\
  Lightbox.bodyOverflow (Lightbox.open item s) = "hidden"%string /\
  Lightbox.activeElement (Lightbox.open item s) = Lightbox.FocusCloseButton.
Proof.
  intros Himg. unfold Lightbox.open. rewrite Himg.
  set (s1 := {| s with Lightbox.currentIndex := Viewer.indexOf (Lightbox.images s) item |}).
  destruct (updatePagination_frame s1) as (Hu1 & Hu2 & _).
  destruct (showImage_frame img (Lightbox.updatePagination s1)) as (Hs1 & Hs2 & _).
  cbn. rewrite Hs1, Hs2, Hu1, Hu2. repeat split.
Qed.

(** X6: Closing after opening gives the page back: the container and the
    caption are hidden and the body scrolls again.  Focus returns to the
    element that was clicked when that element can take focus; when it
    cannot (an image without a [tabindex]), [focus()] does nothing and focus
    stays on the close button, where [open] put it. *)
Theorem lightbox_close_returns_focus (item : Viewer.Item) (i : nat) (s : Lightbox.State) :
  NoDup (Viewer.item_id <$> Lightbox.images s) ->
  Lightbox.images s !! i = Some item ->
  is_Some (Viewer.getImageFromItem item) ->
  let s' := Lightbox.close (Lightbox.open item s) in
  Lightbox.containerVisible s' = false /\
  Lightbox.bodyOverflow s' = EmptyString /\
  Lightbox.activeElement s' =
    (if Viewer.item_focusable item then Lightbox.FocusItem (Viewer.item_id item)
     else Lightbox.FocusCloseButton) /\
  (forall c, Lightbox.captionElement s' = Some c -> Viewer.caption_visible c = false) /\
  Lightbox.containerVisible (Lightbox.open item s) = true /\
  Lightbox.bodyOverflow (Lightbox.open item s) = "hidden"%string /\
  Lightbox.activeElement (Lightbox.open item s) = Lightbox.FocusCloseButton.
Proof.
  intros Hnd Hi [img Himg]. cbn zeta.
  destruct (open_spec item img s Himg) as (Ho1 & Ho2 & Ho3 & Ho4 & Ho5).
  destruct (close_spec (Lightbox.open item s)) as (Hc1 & Hc2 & Hc3 & Hc4).
  rewrite Ho1, Ho2 in Hc4. unfold Viewer.indexOf in Hc4.
  destruct (indexOfFrom_found _ _ 0%Z _ Hi) as (j & x & Hj & Hx & Hidx).
  assert (Hij : i = j).
  { apply (NoDup_lookup _ _ _ (Viewer.item_id item) Hnd).
    - rewrite list_lookup_fmap, Hi. reflexivity.
    - rewrite list_lookup_fmap, Hj. cbn. rewrite Hx. reflexivity. }
  subst j. rewrite Hi in Hj. injection Hj as <-.
  rewrite Hidx, Z.add_0_l, imageAt_of_nat, Hi, Ho5 in Hc4.
  repeat split; try assumption.
  intros c. rewrite Hc3.
  destruct (Lightbox.captionElement (Lightbox.open item s)) as [c0|]; cbn.
  - now intros [= <-].
  - discriminate.
Qed.

Lemma goTo_index (index : Z) (s : Lightbox.State) :
  Forall (fun item => is_Some (Viewer.getImageFromItem item)) (Lightbox.images s) ->
  (0 <= index < Z.of_nat (length (Lightbox.images s)))%Z ->
  exists s', Lightbox.goTo index s = Some s' /\
             Lightbox.currentIndex s' = index /\
             Lightbox.images s' = Lightbox.images s.
Proof.
  intros Hall Hi. unfold Lightbox.goTo.
  destruct (imageAt_in_range _ _ Hi) as [item Hitem]. rewrite Hitem.
  assert (Hin : item ∈ Lightbox.images s).
  { unfold Viewer.imageAt in Hitem. destruct (index <? 0)%Z; [discriminate|].
    eapply list_elem_of_lookup_2; eassumption. }
  rewrite Forall_forall in Hall. destruct (Hall item Hin) as [img ->].
  eexists. split; [reflexivity|].
  set (s1 := {| s with Lightbox.currentIndex := index |}).
  destruct (updatePagination_frame s1) as (Hu1 & Hu2 & _).
  destruct (showImage_frame img (Lightbox.updatePagination s1)) as (Hs1 & Hs2 & _).
  rewrite Hs1, Hs2, Hu1, Hu2. split; reflexivity.
Qed.

Lemma rem_prev_next (ci n : Z) :
  (0 <= ci < n)%Z -> Z.rem (Z.rem (ci + 1) n - 1 + n) n = ci.
Proof.
  intros H. rewrite (Z.rem_mod_nonneg (ci + 1)%Z) by lia.
  destruct (Z.eq_dec (ci + 1)%Z n) as [E|E].
  - rewrite E, Z.mod_same by lia. rewrite Z.rem_small by lia. lia.
  - rewrite (Z.mod_small (ci + 1)%Z) by lia.
    replace (ci + 1 - 1 + n)%Z with (ci + 1 * n)%Z by lia.
    rewrite Z.rem_mod_nonneg by lia. rewrite Z.mod_add by lia.
    apply Z.mod_small. lia.
Qed.

Lemma rem_next_prev (ci n : Z) :
  (0 <= ci < n)%Z -> Z.rem (Z.rem (ci - 1 + n) n + 1) n = ci.
Proof.
  intros H. rewrite (Z.rem_mod_nonneg (ci - 1 + n)%Z) by lia.
  destruct (Z.eq_dec ci 0%Z) as [->|E].
  - rewrite (Z.mod_small (0 - 1 + n)%Z) by lia.
    replace (0 - 1 + n + 1)%Z with n by lia.
    rewrite Z.rem_mod_nonneg by lia. apply Z.mod_same. lia.
  - replace (ci - 1 + n)%Z with (ci - 1 + 1 * n)%Z by lia.
    rewrite Z.mod_add by lia. rewrite (Z.mod_small (ci - 1)%Z) by lia.
    rewrite Z.rem_small by lia. lia.
Qed.

Lemma rem_next_value (ci n : Z) :
  (0 <= ci < n)%Z -> Z.rem (ci + 1) n = if (ci =? n - 1)%Z then 0%Z else (ci + 1)%Z.
Proof.
  intros H. destruct (Z.eqb_spec ci (n - 1)) as [->|E].
  - replace (n - 1 + 1)%Z with n by lia. rewrite Z.rem_mod_nonneg by lia.
    apply Z.mod_same. lia.
  - rewrite Z.rem_small by lia. lia.
Qed.

Lemma rem_prev_value (ci n : Z) :
  (0 <= ci < n)%Z -> Z.rem (ci - 1 + n) n = if (ci =? 0)%Z then (n - 1)%Z else (ci - 1)%Z.
Proof.
  intros H. destruct (Z.eqb_spec ci 0) as [->|E].
  - rewrite Z.rem_small by lia. lia.
  - rewrite Z.rem_mod_nonneg by lia.
    replace (ci - 1 + n)%Z with (ci - 1 + 1 * n)%Z by lia.
    rewrite Z.mod_add by lia. apply Z.mod_small. lia.
Qed.

(** X7: In a gallery of [n] elements, [n] at least two, that all hold an
    image, [next] shows the image after the current one, and the first image
    after the last; [prev] shows the image before the current one, and the
    last image before the first.  [next] followed by [prev] comes back to
    the image it started from, and so does [prev] followed by [next]. *)
Theorem lightbox_next_prev_round_trip (s : Lightbox.State) :
  let n := Z.of_nat (length (Lightbox.images s)) in
  (1 < length (Lightbox.images s))%nat ->
  (0 <= Lightbox.currentIndex s < n)%Z ->
  Forall (fun item => is_Some (Viewer.getImageFromItem item)) (Lightbox.images s) ->
  (exists s1 s2,
     Lightbox.next s = Some s1 /\
     Lightbox.currentIndex s1 =
       (if (Lightbox.currentIndex s =? n - 1)%Z then 0 else Lightbox.currentIndex s + 1)%Z /\
     Lightbox.images s1 = Lightbox.images s /\
     Lightbox.prev s1 = Some s2 /\
     Lightbox.currentIndex s2 = Lightbox.currentIndex s) /\
  (exists s1 s2,
     Lightbox.prev s = Some s1 /\
     Lightbox.currentIndex s1 =
       (if (Lightbox.currentIndex s =? 0)%Z then n - 1 else Lightbox.currentIndex s - 1)%Z /\
     Lightbox.images s1 = Lightbox.images s /\
     Lightbox.next s1 = Some s2 /\
     Lightbox.currentIndex s2 = Lightbox.currentIndex s).
Proof.
  intros n Hn Hc Hall. unfold n in *.
  assert (Hle : (length (Lightbox.images s) <=? 1)%nat = false)
    by (apply Nat.leb_gt; lia).
  split.
  - destruct (goTo_index _ s Hall (rem_next_range _ _ Hc)) as (s1 & H1 & Hc1 & Hi1).
    assert (Hall1 : Forall (fun item => is_Some (Viewer.getImageFromItem item))
                      (Lightbox.images s1)) by (rewrite Hi1; exact Hall).
    assert (Hr1 : (0 <= Lightbox.currentIndex s1
                     < Z.of_nat (length (Lightbox.images s1)))%Z)
      by (rewrite Hc1, Hi1; now apply rem_next_range).
    destruct (goTo_index _ s1 Hall1 (rem_prev_range _ _ Hr1)) as (s2 & H2 & Hc2 & _).
    exists s1, s2. unfold Lightbox.next, Lightbox.prev. rewrite Hi1, Hle.
    split; [exact H1|].
    split; [rewrite Hc1; now apply rem_next_value|].
    split; [reflexivity|].
    split; [rewrite <- Hi1 at 1 2; exact H2|].
    rewrite Hc2, Hc1, Hi1. now apply rem_prev_next.
  - destruct (goTo_index _ s Hall (rem_prev_range _ _ Hc)) as (s1 & H1 & Hc1 & Hi1).
    assert (Hall1 : Forall (fun item => is_Some (Viewer.getImageFromItem item))
                      (Lightbox.images s1)) by (rewrite Hi1; exact Hall).
    assert (Hr1 : (0 <= Lightbox.currentIndex s1
                     < Z.of_nat (length (Lightbox.images s1)))%Z)
      by (rewrite Hc1, Hi1; now apply rem_prev_range).
    destruct (goTo_index _ s1 Hall1 (rem_next_range _ _ Hr1)) as (s2 & H2 & Hc2 & _).
    exists s1, s2. unfold Lightbox.next, Lightbox.prev. rewrite Hi1, Hle.
    split; [exact H1|].
    split; [rewrite Hc1; now apply rem_prev_value|].
    split; [reflexivity|].
    split; [rewrite <- Hi1 at 1; exact H2|].
    rewrite Hc2, Hc1, Hi1. now apply rem_next_prev.
Qed.

(** On the first of seven images: [next] shows the second, [prev] the
    seventh. *)
Lemma lightbox_next_prev_round_trip_witness :
  (exists s1 s2, Lightbox.next sample_lightbox = Some s1 /\
                 Lightbox.currentIndex s1 = 1%Z /\
                 Lightbox.images s1 = Lightbox.images sample_lightbox /\
                 Lightbox.prev s1 = Some s2 /\
                 Lightbox.currentIndex s2 = Lightbox.currentIndex sample_lightbox) /\
  (exists s1 s2, Lightbox.prev sample_lightbox = Some s1 /\
                 Lightbox.currentIndex s1 = 6%Z /\
                 Lightbox.images s1 = Lightbox.images sample_lightbox /\
                 Lightbox.next s1 = Some s2 /\
                 Lightbox.currentIndex s2 = Lightbox.currentIndex sample_lightbox).
Proof.
  apply (lightbox_next_prev_round_trip sample_lightbox).
  - cbn. lia.
  - cbn. lia.
  - cbn. repeat (apply List.Forall_cons; [eexists; reflexivity|]). apply List.Forall_nil.
Defined.

Lemma lightbox_close_returns_focus_witness :
  Lightbox.activeElement
    (Lightbox.close (Lightbox.open (Viewer.MkItem 2 true
       (Some (Viewer.MkImg 102 {[ "src"%string := "photo.jpg"%string ]}))) sample_lightbox))
  = Lightbox.FocusItem 2.
Proof.
  refine (proj1 (proj2 (proj2
    (lightbox_close_returns_focus _ 2%nat sample_lightbox _ _ _)))).
  - exact (NoDup_seq 0 7).
  - reflexivity.
  - eexists; reflexivity.
Defined.

(** Evaluation of the lightbox's methods on a state given field by
    field. *)
Ltac lb_eval :=
  lazy beta iota zeta delta
    [Lightbox.destroy Lightbox.close Lightbox.boundKeydown Lightbox.dispatch
     Lightbox.boundTouchStart Lightbox.boundTouchEnd
     Lightbox.images Lightbox.srcAttribute Lightbox.captionElement Lightbox.imageElement
     Lightbox.imageAttached Lightbox.currentIndex Lightbox.dotsContainer
     Lightbox.paginationStartIndex Lightbox.touchStartX Lightbox.touchStartY
     Lightbox.containerVisible Lightbox.bodyOverflow Lightbox.activeElement
     Lightbox.keydownBound Lightbox.touchBound Lightbox.imageClickHandlers
     Lightbox.itemListeners negb].

(** Nothing is left for [destroy] to do on a closed lightbox without
    listeners. *)
Lemma destroy_closed (s : Lightbox.State) :
  Lightbox.containerVisible s = false ->
  Lightbox.imageAttached s = false ->
  Lightbox.imageClickHandlers s = ∅ ->
  Lightbox.keydownBound s = false ->
  Lightbox.touchBound s = false ->
  Lightbox.destroy s = s.
Proof.
  destruct s as [imgs srcA cap ie att ci dc st tx ty vis ov ae kb tb h l].
  cbn. intros -> -> -> -> ->. lb_eval. rewrite difference_empty_L. reflexivity.
Qed.

(** One field of [destroy s] at a time. *)
Ltac destroy_field s :=
  destruct s as [imgs srcA cap ie att ci dc st tx ty vis ov ae kb tb h l];
  destruct vis, att; lb_eval;
  try (destruct (Viewer.imageAt imgs ci) as [item|];
       [destruct (Viewer.item_focusable item) |]; lb_eval);
  rewrite ?difference_empty_L; reflexivity.

Lemma destroy_unbinds (s : Lightbox.State) :
  Lightbox.containerVisible (Lightbox.destroy s) = false /\
  Lightbox.imageAttached (Lightbox.destroy s) = false /\
  Lightbox.imageClickHandlers (Lightbox.destroy s) = ∅ /\
  Lightbox.keydownBound (Lightbox.destroy s) = false /\
  Lightbox.touchBound (Lightbox.destroy s) = false.
Proof. repeat split; destroy_field s. Qed.

(** X8: [destroy] can be called twice: the second call changes nothing.
    After it the lightbox is closed, the created image is detached, and
    the keyboard and touch listeners are gone, so that no key and no touch
    reaches the lightbox any more. *)
Theorem lightbox_destroy_idempotent (s : Lightbox.State) :
  Lightbox.destroy (Lightbox.destroy s) = Lightbox.destroy s /\
  Lightbox.containerVisible (Lightbox.destroy s) = false /\
  Lightbox.imageAttached (Lightbox.destroy s) = false /\
  Lightbox.imageClickHandlers (Lightbox.destroy s) = ∅ /\
  (forall key shiftKey,
     Lightbox.dispatch (Lightbox.Keydown key shiftKey) (Lightbox.destroy s)
     = Some (Lightbox.destroy s)) /\
  (forall x y,
     Lightbox.dispatch (Lightbox.TouchStart x y) (Lightbox.destroy s)
     = Some (Lightbox.destroy s)) /\
  (forall x y,
     Lightbox.dispatch (Lightbox.TouchEnd x y) (Lightbox.destroy s)
     = Some (Lightbox.destroy s)).
Proof.
  destruct (destroy_unbinds s) as (Hv & Ha & Hh & Hk & Ht).
  split; [|split; [exact Hv|split; [exact Ha|split; [exact Hh|]]]].
  - now apply destroy_closed.
  - unfold Lightbox.dispatch. rewrite Hk, Ht. repeat split.
Qed.

(** X9: The Tab key cannot leave the controls of the open lightbox through
    either end.  With a single image Tab and Shift+Tab keep the focus on
    the close button; with several, Tab on the last control (next) goes to
    the first (close) and Shift+Tab on the first goes to the last, and
    these two undo each other.  The default action is prevented in all
    these cases, and nothing else of the state changes. *)
Theorem lightbox_focus_trap (s : Lightbox.State) (shiftKey : bool) :
  Lightbox.containerVisible s = true ->
  let first := Lightbox.FocusCloseButton in
  let last := if (1 <? length (Lightbox.images s))%nat
              then Lightbox.FocusNextButton else Lightbox.FocusCloseButton in
  Lightbox.boundKeydown "Tab" true {| s with Lightbox.activeElement := first |}
    = Some ({| s with Lightbox.activeElement := last |}, true) /\
  Lightbox.boundKeydown "Tab" false {| s with Lightbox.activeElement := last |}
    = Some ({| s with Lightbox.activeElement := first |}, true) /\
  ((length (Lightbox.images s) <= 1)%nat ->
   Lightbox.boundKeydown "Tab" shiftKey {| s with Lightbox.activeElement := first |}
     = Some ({| s with Lightbox.activeElement := first |}, true)).
Proof.
  intros Hv. destruct s as [imgs srcA cap ie att ci dc st tx ty vis ov ae kb tb h l].
  cbn in Hv. subst vis. lb_eval.
  destruct (Nat.ltb_spec 1 (length imgs)) as [Hn|Hn]; cbn.
  - repeat split. intros Hle. lia.
  - repeat split. intros _. destruct shiftKey; reflexivity.
Qed.

Lemma lightbox_focus_trap_witness :
  Lightbox.boundKeydown "Tab" true
    {| sample_lightbox_open with Lightbox.activeElement := Lightbox.FocusCloseButton |}
  = Some ({| sample_lightbox_open with Lightbox.activeElement := Lightbox.FocusNextButton |},
          true).
Proof.
  exact (proj1 (lightbox_focus_trap sample_lightbox_open true eq_refl)).
Defined.

(** X10: Only a horizontal swipe of more than [swipeThreshold] pixels
    navigates: a touch that ends within 50 px horizontally of where it
    started, or that moved at least as far vertically as horizontally,
    leaves the lightbox as it is; in particular a tap does. *)
Theorem lightbox_swipe_threshold (x y : R) (s : Lightbox.State) :
  Rabs (x - Lightbox.touchStartX s) <= 50 \/
  Rabs (x - Lightbox.touchStartX s) <= Rabs (y - Lightbox.touchStartY s) ->
  Lightbox.boundTouchEnd x y s = Some s.
Proof.
  intros H. unfold Lightbox.boundTouchEnd, Lightbox.swipeThreshold.
  destruct (negb _); [reflexivity|].
  destruct (_ <=? _)%nat; [reflexivity|].
  destruct (Rgt_dec _ _) as [H1|H1]; [|reflexivity].
  destruct (Rgt_dec _ _) as [H2|H2]; [|reflexivity].
  lra.
Qed.

(** On the open lightbox with its seven images, a touch that moves 30 px
    to the right and 10 px down is no swipe. *)
Lemma lightbox_swipe_threshold_witness :
  Lightbox.containerVisible (Lightbox.boundTouchStart 120 300 sample_lightbox_open) = true /\
  length (Lightbox.images (Lightbox.boundTouchStart 120 300 sample_lightbox_open)) = 7%nat /\
  Lightbox.boundTouchEnd 150 310 (Lightbox.boundTouchStart 120 300 sample_lightbox_open)
  = Some (Lightbox.boundTouchStart 120 300 sample_lightbox_open).
Proof.
  split; [reflexivity |]. split; [reflexivity |].
  apply lightbox_swipe_threshold. left.
  cbn [Lightbox.touchStartX Lightbox.boundTouchStart].
  replace (150 - 120) with 30 by lra. rewrite Rabs_right by lra. lra.
Defined.

(** ** Pagination of the viewer *)

Lemma viewer_updatePagination_fields (s : Viewer.State) (dots : list Viewer.Dot) :
  Viewer.dotsContainer s = Some dots ->
  let total := Z.of_nat (length (Viewer.images s)) in
  let st' := Lightbox.windowStart total (Viewer.currentIndex s)
               (Viewer.paginationStartIndex s) in
  let endIndex := Z.min (st' + Viewer.maxVisibleDots) total in
  let st'' :=
    if ((endIndex - st' <? Viewer.maxVisibleDots)%Z &&
        (Viewer.maxVisibleDots <=? total)%Z)%bool
    then (total - Viewer.maxVisibleDots)%Z else st' in
  Viewer.paginationStartIndex (Viewer.updatePagination s) = st' /\
  Viewer.dotsContainer (Viewer.updatePagination s) =
    Some (imap (fun i d =>
                  {| Viewer.dot_active := (Z.of_nat i =? Viewer.currentIndex s)%Z;
                     Viewer.dot_shown :=
                       ((st'' <=? Z.of_nat i)%Z && (Z.of_nat i <? endIndex)%Z)%bool |})
               dots) /\
  Viewer.images (Viewer.updatePagination s) = Viewer.images s /\
  Viewer.currentIndex (Viewer.updatePagination s) = Viewer.currentIndex s.
Proof.
  intros Hd. destruct s; cbn in *. subst.
  unfold Viewer.updatePagination, Lightbox.windowStart; cbn.
  change Lightbox.maxVisibleDots with Viewer.maxVisibleDots.
  destruct (Viewer.maxVisibleDots <? _)%Z; cbn;
    [destruct (_ <? Z.max _ _)%Z; cbn; [|destruct (Z.min _ _ <? _)%Z; cbn]|];
    unfold Viewer.updatePaginationVisibility; cbn; rewrite imap_compose; repeat split.
Qed.

Lemma windowStart_anchored (total ci st : Z) :
  (0 <= st <= total - Lightbox.maxVisibleDots)%Z ->
  (st <= ci < st + Lightbox.maxVisibleDots)%Z ->
  Lightbox.windowStart total ci st = st.
Proof.
  unfold Lightbox.windowStart, Lightbox.maxVisibleDots. intros Hs Hc.
  destruct (Z.ltb_spec 5 total); [|reflexivity].
  destruct (Z.ltb_spec st (Z.max 0 (ci - 5 + 1))); [lia|].
  destruct (Z.ltb_spec (Z.min ci (total - 5)) st); [lia | reflexivity].
Qed.

(** X11: In a gallery of more than five images [updatePagination] leaves a
    window of exactly five dots that lies inside the gallery and holds the
    current image: the dots shown are those of the window, the only active
    dot is that of the current image, and a window that already held the
    current image is not moved. *)
Theorem viewer_pagination_window (s : Viewer.State) (dots : list Viewer.Dot) :
  Viewer.dotsContainer s = Some dots ->
  let total := Z.of_nat (length (Viewer.images s)) in
  (Viewer.maxVisibleDots < total)%Z ->
  (0 <= Viewer.currentIndex s < total)%Z ->
  let s' := Viewer.updatePagination s in
  let start := Viewer.paginationStartIndex s' in
  (0 <= start <= total - Viewer.maxVisibleDots)%Z /\
  (start <= Viewer.currentIndex s < start + Viewer.maxVisibleDots)%Z /\
  ((0 <= Viewer.paginationStartIndex s <= total - Viewer.maxVisibleDots)%Z ->
   (Viewer.paginationStartIndex s <= Viewer.currentIndex s
      < Viewer.paginationStartIndex s + Viewer.maxVisibleDots)%Z ->
   start = Viewer.paginationStartIndex s) /\
  exists dots',
    Viewer.dotsContainer s' = Some dots' /\ length dots' = length dots /\
    forall i d, dots' !! i = Some d ->
      Viewer.dot_active d = (Z.of_nat i =? Viewer.currentIndex s)%Z /\
      Viewer.dot_shown d =
        ((start <=? Z.of_nat i)%Z && (Z.of_nat i <? start + Viewer.maxVisibleDots)%Z)%bool.
Proof.
  intros Hd total Hbig Hc s' start.
  destruct (viewer_updatePagination_fields s dots Hd) as (Hst & Hdots & _ & _).
  cbn zeta in Hst, Hdots. fold total in Hst, Hdots. fold s' in Hst, Hdots.
  fold start in Hst.
  pose proof (windowStart_range total (Viewer.currentIndex s)
                (Viewer.paginationStartIndex s) Hbig Hc) as Hr.
  cbn zeta in Hr. rewrite <- Hst in Hr, Hdots.
  change Lightbox.maxVisibleDots with Viewer.maxVisibleDots in Hr.
  destruct Hr as [Hr1 Hr2].
  split; [exact Hr1|]. split; [exact Hr2|]. split.
  - intros Hs0 Hc0. rewrite Hst. now apply windowStart_anchored.
  - eexists. split; [exact Hdots|]. split; [now rewrite length_imap|].
    intros i d. rewrite list_lookup_imap.
    destruct (dots !! i); [|discriminate]. intros [= <-]. cbn.
    split; [reflexivity|].
    unfold Viewer.maxVisibleDots in *.
    rewrite Z.min_l by lia.
    destruct (Z.ltb_spec (start + 5 - start) 5); [lia|]. reflexivity.
Qed.

(** X12: With at most five images the window never moves and every dot is
    shown. *)
Theorem viewer_pagination_small_gallery (s : Viewer.State) (dots : list Viewer.Dot) :
  Viewer.dotsContainer s = Some dots ->
  length dots = length (Viewer.images s) ->
  (Z.of_nat (length (Viewer.images s)) <= Viewer.maxVisibleDots)%Z ->
  Viewer.paginationStartIndex s = 0%Z ->
  let s' := Viewer.updatePagination s in
  Viewer.paginationStartIndex s' = 0%Z /\
  exists dots',
    Viewer.dotsContainer s' = Some dots' /\ length dots' = length dots /\
    forall i d, dots' !! i = Some d ->
      Viewer.dot_shown d = true /\
      Viewer.dot_active d = (Z.of_nat i =? Viewer.currentIndex s)%Z.
Proof.
  intros Hd Hl Hsmall H0 s'.
  destruct (viewer_updatePagination_fields s dots Hd) as (Hst & Hdots & _ & _).
  cbn zeta in Hst, Hdots. fold s' in Hst, Hdots.
  assert (Hw : Lightbox.windowStart (Z.of_nat (length (Viewer.images s)))
                 (Viewer.currentIndex s) (Viewer.paginationStartIndex s) = 0%Z).
  { unfold Lightbox.windowStart, Lightbox.maxVisibleDots.
    unfold Viewer.maxVisibleDots in Hsmall.
    destruct (Z.ltb_spec 5 (Z.of_nat (length (Viewer.images s)))); [lia | exact H0]. }
  rewrite Hw in Hst, Hdots. split; [exact Hst|].
  eexists. split; [exact Hdots|]. split; [now rewrite length_imap|].
  intros i d. rewrite list_lookup_imap.
  destruct (dots !! i) eqn:Hi; [|discriminate]. intros [= <-]. cbn.
  split; [|reflexivity].
  apply lookup_lt_Some in Hi. rewrite Hl in Hi.
  unfold Viewer.maxVisibleDots in *.
  set (total := Z.of_nat (length (Viewer.images s))) in *.
  rewrite Z.min_r by lia.
  destruct (Z.ltb_spec (total - 0) 5), (Z.leb_spec 5 total); cbn; try lia;
    destruct (Z.leb_spec 0 (Z.of_nat i)), (Z.ltb_spec (Z.of_nat i) total);
    cbn; lia.
Qed.

Lemma viewer_pagination_window_witness :
  let s' := Viewer.updatePagination sample_wide in
  (0 <= Viewer.paginationStartIndex s' <= 8 - Viewer.maxVisibleDots)%Z /\
  (Viewer.paginationStartIndex s' <= 6 < Viewer.paginationStartIndex s' + Viewer.maxVisibleDots)%Z.
Proof.
  pose proof (viewer_pagination_window sample_wide
                (replicate 8 (Viewer.MkDot false true)) eq_refl) as H.
  cbn zeta in H. specialize (H ltac:(vm_compute; intuition congruence)
                ltac:(vm_compute; intuition congruence)).
  destruct H as (H1 & H2 & _). split; [exact H1 | exact H2].
Defined.

Lemma viewer_pagination_small_gallery_witness :
  Viewer.paginationStartIndex (Viewer.updatePagination sample_open) = 0%Z.
Proof.
  refine (proj1 (viewer_pagination_small_gallery sample_open
    [Viewer.MkDot false true; Viewer.MkDot true true; Viewer.MkDot false true]
    eq_refl eq_refl _ eq_refl)).
  vm_compute. congruence.
Defined.

(** ** Navigation indices *)

(** X13: With at least two images and the current index inside the gallery,
    the indices [next] and [prev] hand to [transitionTo] are inside the
    gallery, they wrap around at the last and at the first image, and each
    undoes the other. *)
Theorem viewer_next_prev_index (s : Viewer.State) :
  let n := Z.of_nat (length (Viewer.images s)) in
  (1 < n)%Z -> (0 <= Viewer.currentIndex s < n)%Z ->
  (0 <= Viewer.next_index s < n)%Z /\
  (0 <= Viewer.prev_index s < n)%Z /\
  (Viewer.currentIndex s = n - 1 -> Viewer.next_index s = 0)%Z /\
  (Viewer.currentIndex s < n - 1 -> Viewer.next_index s = Viewer.currentIndex s + 1)%Z /\
  (Viewer.currentIndex s = 0 -> Viewer.prev_index s = n - 1)%Z /\
  (0 < Viewer.currentIndex s -> Viewer.prev_index s = Viewer.currentIndex s - 1)%Z /\
  Viewer.prev_index {| s with Viewer.currentIndex := Viewer.next_index s |}
    = Viewer.currentIndex s /\
  Viewer.next_index {| s with Viewer.currentIndex := Viewer.prev_index s |}
    = Viewer.currentIndex s.
Proof.
  intros n Hn Hc. unfold Viewer.next_index, Viewer.prev_index. cbn. fold n.
  pose proof (rem_next_range _ _ Hc). pose proof (rem_prev_range _ _ Hc).
  split; [assumption|]. split; [assumption|].
  split; [intros ->; replace (n - 1 + 1)%Z with n by lia; apply Z.rem_same; lia|].
  split; [intros ?; rewrite Z.rem_small by lia; lia|].
  split; [intros ->; rewrite Z.rem_small by lia; lia|].
  split.
  { intros ?. replace (Viewer.currentIndex s - 1 + n)%Z
      with (Viewer.currentIndex s - 1 + 1 * n)%Z by lia.
    rewrite Z.rem_mod_nonneg by lia. rewrite Z.mod_add by lia.
    apply Z.mod_small. lia. }
  split; [now apply rem_prev_next | now apply rem_next_prev].
Qed.

Lemma viewer_next_prev_index_witness :
  (0 <= Viewer.next_index sample_open < 3)%Z /\
  (0 <= Viewer.prev_index sample_open < 3)%Z.
Proof.
  pose proof (viewer_next_prev_index sample_open) as H. cbn zeta in H.
  specialize (H ltac:(vm_compute; intuition congruence)
                ltac:(vm_compute; intuition congruence)).
  destruct H as (H1 & H2 & _). split; [exact H1 | exact H2].
Defined.

(** ** View dimensions and camera *)

Lemma div_bounds (n d lo hi : R) :
  0 < d -> lo * d <= n <= hi * d -> lo <= n / d <= hi /\ n / d * d = n.
Proof.
  intros Hd Hn. pose proof (Rinv_0_lt_compat d Hd) as Hi.
  assert (He : n / d * d = n) by (field; lra).
  split; [| exact He]. split.
  - apply Rmult_le_reg_r with d; [exact Hd | lra].
  - apply Rmult_le_reg_r with d; [exact Hd | lra].
Qed.

Lemma scale_le (m x y : R) : 0 <= m -> x <= y -> m * x <= m * y.
Proof. intros Hm Hxy. apply Rmult_le_compat_l; assumption. Qed.

Lemma product_bounds (x y lx hx ly hy : R) :
  0 <= lx -> 0 <= ly -> lx <= x <= hx -> ly <= y <= hy -> lx * ly <= x * y <= hx * hy.
Proof.
  intros Hlx Hly Hx Hy. split.
  - apply Rmult_le_compat; lra.
  - apply Rmult_le_compat; lra.
Qed.

(** The view computed for an image of between one and a million pixels a
    side contains the padded image and has the aspect ratio of the window,
    both up to the roundings of the three operations it takes. *)
Lemma calculateViewDimensions_spec (imageWidth imageHeight padding vpW vpH : R) :
  1 <= imageWidth <= 1000000 -> 1 <= imageHeight <= 1000000 ->
  0.001 <= padding <= 1000 ->
  1 <= vpW <= 1000000 -> 1 <= vpH <= 1000000 ->
  let '(viewWidth, viewHeight) :=
    Sampler.calculateViewDimensions imageWidth imageHeight padding vpW vpH in
  0 < viewWidth /\ 0 < viewHeight /\
  Rabs (viewWidth * vpH - viewHeight * vpW) <= / 1000000000000000 * (viewHeight * vpW) /\
  (1 - / 1000000000000000) * (imageWidth * padding) <= viewWidth /\
  (1 - / 1000000000000000) * (imageHeight * padding) <= viewHeight /\
  (if Rgt_dec (F64.div imageWidth imageHeight) (F64.div vpW vpH)
   then viewWidth = F64.mul imageWidth padding
   else viewHeight = F64.mul imageHeight padding).
Proof.
  intros Hw Hh Hp Hvw Hvh.
  unfold Sampler.calculateViewDimensions, F64.mul, F64.div. cbv zeta.
  destruct (div_bounds imageWidth imageHeight (/ 1000000) 1000000 ltac:(lra) ltac:(lra))
    as [Hq Hqe].
  destruct (div_bounds vpW vpH (/ 1000000) 1000000 ltac:(lra) ltac:(lra)) as [Hr Hre].
  set (q := imageWidth / imageHeight) in *. set (r := vpW / vpH) in *.
  pose proof (F64_round_relative q ltac:(lra)) as Ha.
  pose proof (F64_round_relative r ltac:(lra)) as Hb.
  set (a := F64.round q) in *. set (b := F64.round r) in *.
  pose proof (product_bounds imageWidth padding 1 1000000 0.001 1000
                ltac:(lra) ltac:(lra) Hw Hp) as Hwp.
  pose proof (product_bounds imageHeight padding 1 1000000 0.001 1000
                ltac:(lra) ltac:(lra) Hh Hp) as Hhp.
  assert (Hqhp : q * (imageHeight * padding) = imageWidth * padding)
    by (rewrite <- Hqe; ring).
  set (wp := imageWidth * padding) in *. set (hp := imageHeight * padding) in *.
  clearbody wp hp q r. clear Hw Hh Hp Hqe imageWidth imageHeight padding.
  destruct (Rgt_dec a b) as [Hgt|Hle].
  - pose proof (F64_round_relative wp ltac:(lra)) as Hvw'.
    set (vw := F64.round wp) in *. clearbody vw a b.
    assert (Hb0 : 0 < b) by lra.
    assert (Hvwb : / 10000000000 * b <= vw <= 10000000000000000 * b) by lra.
    destruct (div_bounds vw b (/ 10000000000) 10000000000000000 Hb0 Hvwb) as [Ht Hte].
    set (t := vw / b) in *.
    pose proof (F64_round_relative t ltac:(lra)) as Hvh'.
    set (vh := F64.round t) in *. clearbody vh t.
    assert (Hkey : hp * (1 - / 9007199254740992) <= t * (1 + / 9007199254740992)).
    { apply Rmult_le_reg_l with q; [lra |].
      pose proof (scale_le t b a ltac:(lra) ltac:(lra)) as H1.
      pose proof (scale_le t a (q * (1 + / 9007199254740992)) ltac:(lra) ltac:(lra)) as H2.
      lra. }
    assert (Htv : 0 < t * vpH) by (apply Rmult_lt_0_compat; lra).
    assert (Hrv : 0 < r * vpH) by (apply Rmult_lt_0_compat; lra).
    assert (HM : 0 < t * (r * vpH)) by (apply Rmult_lt_0_compat; lra).
    pose proof (scale_le (t * vpH) _ _ ltac:(lra) (proj1 Hb)) as HX1.
    pose proof (scale_le (t * vpH) _ _ ltac:(lra) (proj2 Hb)) as HX2.
    pose proof (scale_le (r * vpH) _ _ ltac:(lra) (proj1 Hvh')) as HY1.
    pose proof (scale_le (r * vpH) _ _ ltac:(lra) (proj2 Hvh')) as HY2.
    assert (EX : vw * vpH = t * vpH * b) by (rewrite <- Hte; ring).
    assert (EY : vh * vpW = r * vpH * vh) by (rewrite <- Hre; ring).
    rewrite EX, EY.
    split; [lra |]. split; [lra |]. split; [apply Rabs_le; lra |].
    split; [lra |]. split; [lra |]. reflexivity.
  - pose proof (F64_round_relative hp ltac:(lra)) as Hvh'.
    set (vh := F64.round hp) in *. clearbody vh a b.
    assert (Hle' : a <= b) by lra.
    pose proof (product_bounds vh b (/ 10000) 10000000000 (/ 10000000) 10000000
                  ltac:(lra) ltac:(lra) ltac:(lra) ltac:(lra)) as Hs.
    set (s := vh * b) in *.
    pose proof (F64_round_relative s ltac:(lra)) as Hvw'.
    set (vw := F64.round s) in *. clearbody vw.
    pose proof (scale_le vh a b ltac:(lra) Hle') as H1.
    pose proof (scale_le vh _ _ ltac:(lra) (proj1 Ha)) as H2.
    pose proof (scale_le (q * (1 - / 9007199254740992)) _ _ ltac:(lra) (proj1 Hvh')) as H3.
    assert (Hvv : 0 < vh * vpH) by (apply Rmult_lt_0_compat; lra).
    pose proof (scale_le (vh * vpH) _ _ ltac:(lra) (proj1 Hb)) as HS1.
    pose proof (scale_le (vh * vpH) _ _ ltac:(lra) (proj2 Hb)) as HS2.
    pose proof (scale_le vpH _ _ ltac:(lra) (proj1 Hvw')) as HX1.
    pose proof (scale_le vpH _ _ ltac:(lra) (proj2 Hvw')) as HX2.
    assert (EY : vh * vpW = vh * vpH * r) by (rewrite <- Hre; ring).
    assert (HM : 0 < vh * vpH * r) by (apply Rmult_lt_0_compat; lra).
    rewrite EY. unfold s in *.
    split; [lra |]. split; [lra |]. split; [apply Rabs_le; nra |].
    split; [lra |]. split; [lra |]. reflexivity.
Qed.

(** X14: For an image and a window of between one and a million pixels a
    side, the view computed for the image contains the image enlarged by the
    padding factor and has the aspect ratio of the window, each up to one
    part in 10^15: the computation is done in binary64 and its three
    operations round.  In one direction the view is the padded size as
    binary64 computes it: the padded width when the image is relatively
    wider than the window, the padded height otherwise. *)
Theorem view_contains_padded_image (imageWidth imageHeight padding vpW vpH : R) :
  1 <= imageWidth <= 1000000 -> 1 <= imageHeight <= 1000000 ->
  0.001 <= padding <= 1000 ->
  1 <= vpW <= 1000000 -> 1 <= vpH <= 1000000 ->
  let '(viewWidth, viewHeight) :=
    Sampler.calculateViewDimensions imageWidth imageHeight padding vpW vpH in
  0 < viewWidth /\ 0 < viewHeight /\
  Rabs (viewWidth * vpH - viewHeight * vpW) <= / 1000000000000000 * (viewHeight * vpW) /\
  (1 - / 1000000000000000) * (imageWidth * padding) <= viewWidth /\
  (1 - / 1000000000000000) * (imageHeight * padding) <= viewHeight /\
  (if Rgt_dec (F64.div imageWidth imageHeight) (F64.div vpW vpH)
   then viewWidth = F64.mul imageWidth padding
   else viewHeight = F64.mul imageHeight padding).
Proof. apply calculateViewDimensions_spec. Qed.

(** A 1600 x 900 image with padding 1.1 in a 1920 x 1080 window. *)
Lemma view_contains_padded_image_witness :
  let '(viewWidth, viewHeight) := Sampler.calculateViewDimensions 1600 900 1.1 1920 1080 in
  0 < viewWidth /\ 0 < viewHeight /\
  Rabs (viewWidth * 1080 - viewHeight * 1920) <= / 1000000000000000 * (viewHeight * 1920) /\
  (1 - / 1000000000000000) * (1600 * 1.1) <= viewWidth /\
  (1 - / 1000000000000000) * (900 * 1.1) <= viewHeight /\
  (if Rgt_dec (F64.div 1600 900) (F64.div 1920 1080)
   then viewWidth = F64.mul 1600 1.1
   else viewHeight = F64.mul 900 1.1).
Proof.
  apply (view_contains_padded_image 1600 900 1.1 1920 1080); lra.
Defined.



(** ** Render loop *)

Lemma animate_running (env : Viewer.Env) (s : Viewer.State) :
  (Viewer.containerVisible s = true \/ Viewer.isAnimating s = true) ->
  Viewer.renderId (Viewer.animate env s) = Some (Viewer.rafNext s) /\
  Viewer.rafPending (Viewer.animate env s)
    = <[Viewer.rafNext s := Viewer.AnimateFrame]> (Viewer.rafPending s) /\
  Viewer.rafNext (Viewer.animate env s) = S (Viewer.rafNext s) /\
  Viewer.animationId (Viewer.animate env s) = Viewer.animationId s /\
  Viewer.trace (Viewer.animate env s) =
    Viewer.trace s ++
    match Viewer.renderer s, Viewer.scene s, Viewer.camera s with
    | Some _, Some _, Some _ => [Viewer.Render]
    | _, _, _ => []
    end.
Proof.
  intros Hrun. unfold Viewer.animate.
  assert (Htest : (negb (Viewer.containerVisible s) && negb (Viewer.isAnimating s))%bool
                  = false).
  { destruct Hrun as [-> | ->]; [reflexivity|].
    now destruct (Viewer.containerVisible s). }
  rewrite Htest. clear Htest Hrun.
  destruct s. cbn [Viewer.clock].
  destruct clock, renderer, scene, camera; cbn; rewrite ?app_nil_r; repeat split.
Qed.

Lemma animate_stopping (env : Viewer.Env) (s : Viewer.State) :
  Viewer.containerVisible s = false -> Viewer.isAnimating s = false ->
  Viewer.animate env s = {| s with Viewer.renderId := None |}.
Proof. intros Hv Ha. unfold Viewer.animate. now rewrite Hv, Ha. Qed.

(** X16: The render loop keeps one request.  When the browser runs the
    frame the loop asked for, [animate] either asks for exactly one new
    frame (the viewer is visible or animating) or forgets its request and
    asks for none (hidden and idle); it renders only if renderer, scene and
    camera exist, and it never touches the request of the tween. *)
Theorem render_loop_keeps_one_request (env : Viewer.Env) (s : Viewer.State) (id : nat) :
  Viewer.rafPending s !! id = Some Viewer.AnimateFrame ->
  let s' := Viewer.fireFrame env id s in
  Viewer.animationId s' = Viewer.animationId s /\
  ((Viewer.containerVisible s = true \/ Viewer.isAnimating s = true) ->
   Viewer.renderId s' = Some (Viewer.rafNext s) /\
   Viewer.rafPending s'
     = <[Viewer.rafNext s := Viewer.AnimateFrame]> (delete id (Viewer.rafPending s)) /\
   Viewer.trace s' =
     Viewer.trace s ++
     match Viewer.renderer s, Viewer.scene s, Viewer.camera s with
     | Some _, Some _, Some _ => [Viewer.Render]
     | _, _, _ => []
     end) /\
  (Viewer.containerVisible s = false -> Viewer.isAnimating s = false ->
   Viewer.renderId s' = None /\
   Viewer.rafPending s' = delete id (Viewer.rafPending s) /\
   Viewer.trace s' = Viewer.trace s).
Proof.
  intros Hid s'. subst s'. unfold Viewer.fireFrame. rewrite Hid.
  cbn [Viewer.runFrame].
  assert (Hcases : (Viewer.containerVisible s = true \/ Viewer.isAnimating s = true) \/
                   (Viewer.containerVisible s = false /\ Viewer.isAnimating s = false))
    by (destruct (Viewer.containerVisible s), (Viewer.isAnimating s); auto).
  set (s0 := {| s with Viewer.rafPending := delete id (Viewer.rafPending s) |}).
  split; [|split].
  - destruct Hcases as [Hrun | [Hv Ha]].
    + destruct (animate_running env s0 Hrun) as (_ & _ & _ & H & _). exact H.
    + rewrite (animate_stopping env s0 Hv Ha). reflexivity.
  - intros Hrun.
    destruct (animate_running env s0 Hrun) as (H1 & H2 & _ & _ & H5).
    split; [exact H1|]. split; [exact H2 | exact H5].
  - intros Hv Ha. rewrite (animate_stopping env s0 Hv Ha). repeat split.
Qed.

Lemma render_loop_keeps_one_request_witness :
  Viewer.renderId (Viewer.fireFrame (sample_env 16 false) 5 sample_open) = Some 6%nat.
Proof.
  pose proof (render_loop_keeps_one_request (sample_env 16 false) sample_open 5 eq_refl)
    as H.
  cbn zeta in H. destruct H as (_ & H & _).
  destruct (H (or_introl eq_refl)) as (H1 & _). exact H1.
Defined.

(** ** Scene set-up *)

Lemma initThreeJS_noop (s : Viewer.State) :
  Viewer.THREE s = false \/ is_Some (Viewer.scene s) -> Viewer.initThreeJS s = s.
Proof.
  intros H. unfold Viewer.initThreeJS.
  destruct H as [-> | H]; [reflexivity|].
  rewrite (bool_decide_true _ H). now rewrite orb_true_r.
Qed.

Lemma initThreeJS_scene (s : Viewer.State) :
  Viewer.THREE s = true -> is_Some (Viewer.scene (Viewer.initThreeJS s)).
Proof.
  intros HT. destruct (Viewer.scene s) as [sc|] eqn:Hs.
  - rewrite initThreeJS_noop by (right; now exists sc). now exists sc.
  - unfold Viewer.initThreeJS. rewrite HT, Hs.
    rewrite bool_decide_false by (intros [? ?]; discriminate).
    cbn. now eexists.
Qed.

(** X17: [initThreeJS] builds the scene once: it does nothing before the
    three.js module is loaded or when a scene exists, it yields a scene
    once the module is loaded, and a second call changes nothing. *)
Theorem initThreeJS_once (s : Viewer.State) :
  Viewer.initThreeJS (Viewer.initThreeJS s) = Viewer.initThreeJS s /\
  (Viewer.THREE s = false -> Viewer.initThreeJS s = s) /\
  (is_Some (Viewer.scene s) -> Viewer.initThreeJS s = s) /\
  (Viewer.THREE s = true -> is_Some (Viewer.scene (Viewer.initThreeJS s))).
Proof.
  split; [|split; [|split]].
  - destruct (Viewer.THREE s) eqn:HT.
    + apply initThreeJS_noop. right. now apply initThreeJS_scene.
    + rewrite !(initThreeJS_noop s) by (left; assumption). reflexivity.
  - intros H. apply initThreeJS_noop. now left.
  - intros H. apply initThreeJS_noop. now right.
  - apply initThreeJS_scene.
Qed.

(** ** Background layer *)

Lemma fireTimeout_step (s : Viewer.State) (bg : nat) (d : R) (rest : list (nat * R)) :
  Viewer.timeouts s = (bg, d) :: rest ->
  Viewer.backgrounds (Viewer.fireTimeout s)
    = filter (fun b => Viewer.bg_id b <> bg) (Viewer.backgrounds s) /\
  Viewer.timeouts (Viewer.fireTimeout s) = rest.
Proof.
  intros H. unfold Viewer.fireTimeout. rewrite H. split; reflexivity.
Qed.

Lemma fireTimeouts_all (d : R) (ids : list nat) (s : Viewer.State) :
  Viewer.timeouts s = (fun i => (i, d)) <$> ids ->
  Viewer.backgrounds (Nat.iter (length ids) Viewer.fireTimeout s)
    = foldl (fun acc i => filter (fun b => Viewer.bg_id b <> i) acc)
            (Viewer.backgrounds s) ids /\
  Viewer.timeouts (Nat.iter (length ids) Viewer.fireTimeout s) = [].
Proof.
  revert s. induction ids as [|i ids IH]; intros s Ht; [now split|].
  cbn [length]. rewrite Nat.iter_succ_r.
  destruct (fireTimeout_step s i d _ Ht) as [Hb Hr].
  destruct (IH _ Hr) as [IH1 IH2]. rewrite IH1, IH2, Hb. now split.
Qed.

Lemma remove_all_old (ids : list nat) (old : list Viewer.Bg) (new : Viewer.Bg) :
  Forall (fun b => Viewer.bg_id b ∈ ids) old ->
  Viewer.bg_id new ∉ ids ->
  foldl (fun acc i => filter (fun b => Viewer.bg_id b <> i) acc) (old ++ [new]) ids
    = [new].
Proof.
  revert old. induction ids as [|i ids IH]; intros old Hold Hnew.
  - destruct old as [|b old]; [reflexivity|].
    apply Forall_cons in Hold as [Hb _]. now apply elem_of_nil in Hb.
  - cbn [foldl]. rewrite filter_app.
    rewrite (filter_cons_True _ new []) by (intros E; apply Hnew; rewrite E; left).
    rewrite filter_nil. apply IH.
    + rewrite Forall_forall in *. intros b Hb.
      apply list_elem_of_filter in Hb as [Hne Hb].
      specialize (Hold b Hb). apply elem_of_cons in Hold as [E|Hin]; [contradiction|assumption].
    + intros Hin. apply Hnew. now right.
Qed.

Lemma updateBackground_fields (src : option string) (duration delay : R) (s : Viewer.State) :
  let new := {| Viewer.bg_id := Viewer.nodeNext s; Viewer.bg_src := src;
                Viewer.bg_opaque := false; Viewer.bg_duration := duration;
                Viewer.bg_delay := delay |} in
  let s' := Viewer.updateBackground src duration delay s in
  Viewer.backgrounds s' = Viewer.backgrounds s ++ [new] /\
  Viewer.timeouts s' =
    Viewer.timeouts s ++ ((fun b => (Viewer.bg_id b, duration)) <$> Viewer.backgrounds s) /\
  Viewer.rafPending s' =
    <[Viewer.rafNext s := Viewer.BgFadeIn (Viewer.nodeNext s)]> (Viewer.rafPending s) /\
  Viewer.nodeNext s' = S (Viewer.nodeNext s).
Proof.
  destruct s. unfold Viewer.updateBackground.
  cbn -[Nat.ltb Nat.sub take length app].
  rewrite length_app. cbn [length].
  replace (length backgrounds + 1 - 1)%nat with (length backgrounds) by lia.
  rewrite take_app_length.
  destruct (Nat.ltb_spec 1 (length backgrounds + 1)) as [Hlt|Hge]; cbn.
  - repeat split.
  - destruct backgrounds; [|cbn in Hge; lia].
    cbn. rewrite app_nil_r. repeat split.
Qed.

(** X18: A new background replaces the old ones.  [updateBackground] puts
    the new image after those present, transparent; the frame it requests
    makes it opaque and leaves the others alone; and once the timers it set
    have expired, the new image is the only background left. *)
Theorem background_replaces_old_ones (env : Viewer.Env) (src : option string)
    (duration delay : R) (s : Viewer.State) :
  Viewer.timeouts s = [] ->
  Forall (fun b => (Viewer.bg_id b < Viewer.nodeNext s)%nat) (Viewer.backgrounds s) ->
  let new := {| Viewer.bg_id := Viewer.nodeNext s; Viewer.bg_src := src;
                Viewer.bg_opaque := false; Viewer.bg_duration := duration;
                Viewer.bg_delay := delay |} in
  let s' := Viewer.updateBackground src duration delay s in
  Viewer.backgrounds s' = Viewer.backgrounds s ++ [new] /\
  Viewer.backgrounds (Viewer.fireFrame env (Viewer.rafNext s) s')
    = Viewer.backgrounds s ++ [{| new with Viewer.bg_opaque := true |}] /\
  Viewer.backgrounds (Nat.iter (length (Viewer.backgrounds s)) Viewer.fireTimeout s')
    = [new] /\
  Viewer.timeouts (Nat.iter (length (Viewer.backgrounds s)) Viewer.fireTimeout s') = [].
Proof.
  intros Ht Hfresh new s'.
  destruct (updateBackground_fields src duration delay s) as (Hb & Hto & Hraf & _).
  fold new in Hb. fold s' in Hb, Hto, Hraf.
  split; [exact Hb|]. split.
  - unfold Viewer.fireFrame. rewrite Hraf, lookup_insert_eq.
    cbn [Viewer.runFrame]. unfold Viewer.fadeInBackground. cbn. rewrite Hb.
    rewrite fmap_app. cbn. rewrite Nat.eqb_refl. f_equal.
    clear -Hfresh. induction Hfresh as [|b l Hlt _ IH]; [reflexivity|].
    cbn. rewrite IH. destruct (Nat.eqb_spec (Viewer.bg_id b) (Viewer.nodeNext s)); [lia|].
    reflexivity.
  - rewrite Ht in Hto. cbn [app] in Hto.
    assert (Hto' : Viewer.timeouts s' =
                   (fun i => (i, duration)) <$> (Viewer.bg_id <$> Viewer.backgrounds s))
      by (rewrite Hto, <- list_fmap_compose; reflexivity).
    pose proof (fireTimeouts_all duration _ s' Hto') as [H1 H2].
    rewrite length_fmap in H1, H2. rewrite H1, H2, Hb. split; [|reflexivity].
    apply remove_all_old.
    + apply Forall_forall. intros b Hin. apply list_elem_of_fmap. now exists b.
    + intros Hin. apply list_elem_of_fmap in Hin as (b & Hid & Hin).
      rewrite Forall_forall in Hfresh. specialize (Hfresh b Hin). cbn in Hid. lia.
Qed.

Lemma background_replaces_old_ones_witness :
  Viewer.backgrounds
    (Nat.iter 1 Viewer.fireTimeout
       (Viewer.updateBackground (Some "next.jpg"%string) 1200 0 sample_open))
  = [{| Viewer.bg_id := 1; Viewer.bg_src := Some "next.jpg"%string;
        Viewer.bg_opaque := false; Viewer.bg_duration := 1200; Viewer.bg_delay := 0 |}].
Proof.
  refine (proj1 (proj2 (proj2
    (background_replaces_old_ones (sample_env 0 false) (Some "next.jpg"%string) 1200 0
       sample_open eq_refl _)))).
  cbn. repeat constructor.
Defined.

(** [open_lets n t k]: names the [n] outermost [let]s of the term [t] in
    the context and passes what is left to [k]. *)
Ltac open_lets n t k :=
  lazymatch n with
  | O => k t
  | S ?m =>
      lazymatch t with
      | (let x := ?u in @?b x) =>
          let y := fresh x in
          pose (y := u);
          let t' := eval cbv beta in (b y) in
          open_lets m t' k
      end
  end.

(** ** Construction *)

Lemma bindEvents_handlers (imgs : list Viewer.Item) (m : gmap nat Viewer.Handlers) :
  dom (foldl (fun m item =>
                <[Viewer.item_id item :=
                    {| Viewer.click := Viewer.HandlerOpen (Viewer.item_id item);
                       Viewer.mouseenter := Viewer.HandlerLoadThree;
                       Viewer.touchstart := Viewer.HandlerLoadThree |}]> m) m imgs)
  = dom m ∪ list_to_set (Viewer.item_id <$> imgs).
Proof.
  revert m. induction imgs as [|x imgs IH]; intros m; cbn.
  - now rewrite union_empty_r_L.
  - rewrite IH, dom_insert_L.
    rewrite (comm_L (∪) {[Viewer.item_id x]} (dom m)).
    now rewrite (assoc_L (∪)).
Qed.

(** X19: A viewer as the constructor leaves it: hidden and idle, no scene
    objects and no frame requested, the three listeners bound on exactly
    the elements of the gallery, and, when there are several images and a
    pagination element, one inactive dot per image of which the first
    [maxVisibleDots] are shown. *)
Theorem viewer_constructed (env : Viewer.Env) (userConfig : Viewer.UserConfig)
    (imgs : list Viewer.Item) (caption : option Viewer.Caption) (hasPaginationElement : bool) :
  let s := Viewer.construct env userConfig imgs caption hasPaginationElement in
  Viewer.images s = imgs /\
  Viewer.config s = Viewer.mergeConfig env userConfig /\
  Viewer.containerVisible s = false /\
  Viewer.isAnimating s = false /\
  Viewer.currentPoints s = None /\
  Viewer.rafPending s = ∅ /\
  Viewer.trace s = [] /\
  Viewer.listenersBound s = true /\
  Viewer.itemListeners s = list_to_set (Viewer.item_id <$> imgs) /\
  dom (Viewer.imageHandlers s) = list_to_set (Viewer.item_id <$> imgs) /\
  Viewer.paginationStartIndex s = 0%Z /\
  (is_Some (Viewer.dotsContainer s) <->
   (1 < length imgs)%nat /\ hasPaginationElement = true) /\
  (forall dots, Viewer.dotsContainer s = Some dots ->
     length dots = length imgs /\
     forall i d, dots !! i = Some d ->
       Viewer.dot_active d = false /\
       Viewer.dot_shown d = (Z.of_nat i <? Viewer.maxVisibleDots)%Z).
Proof.
  unfold Viewer.construct, Viewer.initPagination.
  destruct (Nat.ltb_spec 1 (length imgs)) as [Hn|Hn]; [destruct hasPaginationElement|];
    cbn -[Z.min];
    rewrite ?bindEvents_handlers, ?dom_empty_L, ?union_empty_l_L.
  2,3: do 11 (split; [reflexivity|]);
       (split; [split; [intros [? ?]; discriminate
                       | intros [? ?]; first [discriminate | lia]]
               | intros ? ?; discriminate]).
  unfold Viewer.updatePaginationVisibility. cbn -[Z.min].
  do 11 (split; [reflexivity|]). split.
  - split; [intros _; now split | intros _; now eexists].
  - intros dots [= <-]. rewrite length_imap, length_replicate. split; [reflexivity|].
    intros i d. rewrite list_lookup_imap.
    destruct (replicate _ _ !! i) as [d0|] eqn:Hi; [|discriminate]. intros [= <-].
    apply lookup_replicate in Hi as [-> Hi]. cbn -[Z.min]. split; [reflexivity|].
    unfold Viewer.maxVisibleDots.
    set (total := Z.of_nat (length imgs)) in *.
    assert (Hi' : (Z.of_nat i < total)%Z) by (subst total; lia).
    destruct (Z.ltb_spec (Z.min (0 + 5) total - 0) 5), (Z.leb_spec 5 total);
      cbn -[Z.min];
      destruct (Z.leb_spec 0 (Z.of_nat i)), (Z.leb_spec (total - 5) (Z.of_nat i)),
        (Z.ltb_spec (Z.of_nat i) (Z.min (0 + 5) total)), (Z.ltb_spec (Z.of_nat i) 5);
      cbn; lia.
Qed.

(** ** Exchanging the image *)

(** Projections through the assignments of a method. *)
Ltac vproj :=
  cbn [Viewer.config Viewer.images Viewer.captionElement Viewer.dotsContainer
       Viewer.paginationStartIndex Viewer.THREE Viewer.scene Viewer.clock Viewer.camera
       Viewer.renderer Viewer.currentPoints Viewer.currentMesh Viewer.isAnimating
       Viewer.sourceImage Viewer.animationId Viewer.renderId Viewer.currentIndex
       Viewer.imageWidth Viewer.imageHeight Viewer.imageHandlers Viewer.containerVisible
       Viewer.bodyOverflow Viewer.activeElement Viewer.backgrounds Viewer.listenersBound
       Viewer.itemListeners Viewer.rafNext Viewer.rafPending Viewer.timeouts
       Viewer.nodeNext Viewer.trace
       Viewer.emit Viewer.set_uniforms Viewer.set_points Viewer.set_mesh
       Viewer.set_caption_visible Viewer.with_uniforms Viewer.requestAnimationFrame
       Viewer.geometry Viewer.uniforms Viewer.points_visible
       Viewer.map Viewer.opacity Viewer.mesh_visible
       Viewer.uTime Viewer.uTexture Viewer.uTextureNext Viewer.uTextureMix
       Viewer.uProgress Viewer.uSize Viewer.uOpacity Viewer.uMode Viewer.uDispersion
       fst snd fmap option_fmap option_map].

Lemma updateCamera_frame (env : Viewer.Env) (s : Viewer.State) :
  Viewer.trace (Viewer.updateCamera env s) = Viewer.trace s /\
  Viewer.currentMesh (Viewer.updateCamera env s) = Viewer.currentMesh s /\
  Viewer.sourceImage (Viewer.updateCamera env s) = Viewer.sourceImage s /\
  Viewer.currentIndex (Viewer.updateCamera env s) = Viewer.currentIndex s /\
  Viewer.imageWidth (Viewer.updateCamera env s) = Viewer.imageWidth s /\
  Viewer.imageHeight (Viewer.updateCamera env s) = Viewer.imageHeight s /\
  Viewer.images (Viewer.updateCamera env s) = Viewer.images s /\
  exists size,
    Viewer.currentPoints (Viewer.updateCamera env s)
    = Viewer.with_uniforms (fun u => {| u with Viewer.uSize := size u |})
        <$> Viewer.currentPoints s.
Proof.
  unfold Viewer.updateCamera.
  destruct (Viewer.currentPoints s) as [pts|] eqn:Hp.
  2:{ rewrite Hp. do 7 (split; [reflexivity|]). now exists Viewer.uSize. }
  destruct (Viewer.renderer s), (Viewer.camera s);
    try destruct (Viewer.calculateViewDimensions env s) as [vw vh];
    vproj; rewrite ?Hp; do 7 (split; [reflexivity|]).
  1: eexists (fun _ => _); reflexivity.
  all: exists Viewer.uSize; destruct pts as [g [] v]; reflexivity.
Qed.

Lemma updateStartPositions_frame (env : Viewer.Env) (s : Viewer.State) :
  Viewer.trace (Viewer.updateStartPositions env s) = Viewer.trace s /\
  Viewer.currentMesh (Viewer.updateStartPositions env s) = Viewer.currentMesh s /\
  Viewer.sourceImage (Viewer.updateStartPositions env s) = Viewer.sourceImage s /\
  Viewer.currentIndex (Viewer.updateStartPositions env s) = Viewer.currentIndex s /\
  Viewer.imageWidth (Viewer.updateStartPositions env s) = Viewer.imageWidth s /\
  Viewer.imageHeight (Viewer.updateStartPositions env s) = Viewer.imageHeight s /\
  Viewer.images (Viewer.updateStartPositions env s) = Viewer.images s /\
  exists starts,
    Viewer.currentPoints (Viewer.updateStartPositions env s)
    = (fun p => {| p with Viewer.geometry :=
                     {| (Viewer.geometry p) with Viewer.aStartPosition := starts p |} |})
        <$> Viewer.currentPoints s.
Proof.
  unfold Viewer.updateStartPositions.
  destruct (Viewer.currentPoints s) as [pts|] eqn:Hp.
  2:{ rewrite Hp. do 7 (split; [reflexivity|]).
      now exists (fun p => Viewer.aStartPosition (Viewer.geometry p)). }
  destruct (Viewer.sourceImage s) eqn:Hs; vproj; rewrite ?Hp, ?Hs;
    do 7 (split; [reflexivity|]).
  - eexists (fun _ => _). reflexivity.
  - exists (fun p => Viewer.aStartPosition (Viewer.geometry p)).
    destruct pts as [[] u v]; reflexivity.
Qed.

Lemma viewer_updatePagination_frame (s : Viewer.State) :
  Viewer.trace (Viewer.updatePagination s) = Viewer.trace s /\
  Viewer.currentMesh (Viewer.updatePagination s) = Viewer.currentMesh s /\
  Viewer.sourceImage (Viewer.updatePagination s) = Viewer.sourceImage s /\
  Viewer.currentIndex (Viewer.updatePagination s) = Viewer.currentIndex s /\
  Viewer.imageWidth (Viewer.updatePagination s) = Viewer.imageWidth s /\
  Viewer.imageHeight (Viewer.updatePagination s) = Viewer.imageHeight s /\
  Viewer.images (Viewer.updatePagination s) = Viewer.images s /\
  Viewer.currentPoints (Viewer.updatePagination s) = Viewer.currentPoints s /\
  Viewer.config (Viewer.updatePagination s) = Viewer.config s /\
  Viewer.captionElement (Viewer.updatePagination s) = Viewer.captionElement s /\
  Viewer.THREE (Viewer.updatePagination s) = Viewer.THREE s /\
  Viewer.scene (Viewer.updatePagination s) = Viewer.scene s /\
  Viewer.renderer (Viewer.updatePagination s) = Viewer.renderer s /\
  Viewer.camera (Viewer.updatePagination s) = Viewer.camera s /\
  Viewer.clock (Viewer.updatePagination s) = Viewer.clock s /\
  Viewer.isAnimating (Viewer.updatePagination s) = Viewer.isAnimating s.
Proof.
  destruct s. unfold Viewer.updatePagination; cbn.
  destruct dotsContainer; [|repeat split].
  destruct (Viewer.maxVisibleDots <? _)%Z; cbn;
    [destruct (_ <? Z.max _ _)%Z; cbn; [|destruct (Z.min _ _ <? _)%Z; cbn]|];
    unfold Viewer.updatePaginationVisibility; cbn; repeat split.
Qed.

Lemma updateBackground_frame (src : option string) (duration delay : R) (s : Viewer.State) :
  let s' := Viewer.updateBackground src duration delay s in
  Viewer.trace s' = Viewer.trace s /\
  Viewer.currentMesh s' = Viewer.currentMesh s /\
  Viewer.sourceImage s' = Viewer.sourceImage s /\
  Viewer.currentIndex s' = Viewer.currentIndex s /\
  Viewer.imageWidth s' = Viewer.imageWidth s /\
  Viewer.imageHeight s' = Viewer.imageHeight s /\
  Viewer.images s' = Viewer.images s /\
  Viewer.currentPoints s' = Viewer.currentPoints s /\
  Viewer.config s' = Viewer.config s /\
  Viewer.captionElement s' = Viewer.captionElement s.
Proof.
  destruct s. unfold Viewer.updateBackground. cbn -[Nat.ltb].
  destruct (1 <? _)%nat; cbn; repeat split.
Qed.

(** X20: Exchanging the image (navigation) puts the new texture into both
    texture slots of the points and into the mesh, with the mix at 0, and
    records the new image, its index and its natural size.  The only
    disposal it performs is that of the temporary plane geometry: the
    texture it replaces is not disposed of. *)
Theorem swap_replaces_texture_without_disposal (env : Viewer.Env)
    (newItem : Viewer.Item) (newTexture : Viewer.Texture) (s : Viewer.State)
    (pts : Viewer.Points) (m : Viewer.Mesh) (newImage : Viewer.Img) :
  Viewer.currentPoints s = Some pts ->
  Viewer.currentMesh s = Some m ->
  Viewer.THREE s = true ->
  Viewer.getImageFromItem newItem = Some newImage ->
  let s' := Viewer.swapImageContent env newItem newTexture s in
  Viewer.trace s' = Viewer.trace s ++ [Viewer.DisposeTempGeometry] /\
  (exists pts',
     Viewer.currentPoints s' = Some pts' /\
     Viewer.uTexture (Viewer.uniforms pts') = newTexture /\
     Viewer.uTextureNext (Viewer.uniforms pts') = newTexture /\
     Viewer.uTextureMix (Viewer.uniforms pts') = 0 /\
     Viewer.uProgress (Viewer.uniforms pts') = Viewer.uProgress (Viewer.uniforms pts)) /\
  Viewer.currentMesh s' = Some {| m with Viewer.map := newTexture |} /\
  Viewer.sourceImage s' = Some newImage /\
  Viewer.currentIndex s' = Viewer.indexOf (Viewer.images s) newItem /\
  Viewer.imageWidth s' = Viewer.naturalWidth newTexture /\
  Viewer.imageHeight s' = Viewer.naturalHeight newTexture /\
  Viewer.images s' = Viewer.images s.
Proof.
  intros Hp Hm HT Himg s'.
  let body := eval cbv beta delta [Viewer.swapImageContent] in
                (Viewer.swapImageContent env newItem newTexture s) in
  let abstracted := eval pattern (Viewer.currentPoints s), (Viewer.currentMesh s),
                      (Viewer.THREE s), (Viewer.getImageFromItem newItem) in body in
  lazymatch abstracted with
  | ?F _ _ _ _ =>
      pose (cases := F);
      assert (E : s' = cases (Viewer.currentPoints s) (Viewer.currentMesh s)
                         (Viewer.THREE s) (Viewer.getImageFromItem newItem))
        by reflexivity
  end.
  clearbody s'. rewrite Hp, Hm, HT, Himg in E.
  let t := eval cbv beta iota delta [cases] in
             (cases (Some pts) (Some m) true (Some newImage)) in
  open_lets 15%nat t ltac:(fun t' => change (s' = t') in E).
  clear cases. subst s'.
  repeat first
    [ match goal with
      | |- context [Viewer.updateCamera env ?x] =>
          destruct (updateCamera_frame env x)
            as (C1 & C2 & C3 & C4 & C5 & C6 & C7 & size & C8);
          rewrite C1, C2, C3, C4, C5, C6, C7, C8; clear C1 C2 C3 C4 C5 C6 C7 C8
      | |- context [Viewer.updateStartPositions env ?x] =>
          destruct (updateStartPositions_frame env x)
            as (C1 & C2 & C3 & C4 & C5 & C6 & C7 & starts & C8);
          rewrite C1, C2, C3, C4, C5, C6, C7, C8; clear C1 C2 C3 C4 C5 C6 C7 C8
      | |- context [Viewer.updatePagination ?x] =>
          destruct (viewer_updatePagination_frame x)
            as (C1 & C2 & C3 & C4 & C5 & C6 & C7 & C8 & _);
          progress (rewrite ?C1, ?C2, ?C3, ?C4, ?C5, ?C6, ?C7, ?C8);
          clear C1 C2 C3 C4 C5 C6 C7 C8
      | |- context [Viewer.updateBackground ?a ?b ?c ?x] =>
          pose proof (updateBackground_frame a b c x) as C; cbv zeta in C;
          destruct C as (C1 & C2 & C3 & C4 & C5 & C6 & C7 & C8 & _);
          progress (rewrite ?C1, ?C2, ?C3, ?C4, ?C5, ?C6, ?C7, ?C8);
          clear C1 C2 C3 C4 C5 C6 C7 C8
      end
    | match goal with
      | x := _ : Viewer.State |- _ =>
          lazymatch goal with |- context [x] => subst x; vproj end
      end ].
  rewrite Hp, Hm. vproj.
  split; [reflexivity|]. split; [eexists; repeat split|]. repeat split.
Qed.

Lemma swap_replaces_texture_without_disposal_witness :
  Viewer.trace
    (Viewer.swapImageContent (sample_env 0 false) (sample_item 2) (sample_texture 2)
       sample_open)
  = Viewer.trace sample_open ++ [Viewer.DisposeTempGeometry].
Proof.
  exact (proj1 (swap_replaces_texture_without_disposal (sample_env 0 false)
                  (sample_item 2) (sample_texture 2) sample_open
                  sample_points sample_mesh (sample_img 2)
                  eq_refl eq_refl eq_refl eq_refl)).
Defined.

(** ** Frames of a tween *)

Lemma eased_range (p : R) : 0 <= p <= 1 -> 0 <= 1 - (1 - p) ^ 4 <= 1.
Proof.
  intros Hp. assert (H : 0 <= (1 - p) ^ 4 <= 1).
  { replace ((1 - p) ^ 4) with (((1 - p) * (1 - p)) * ((1 - p) * (1 - p))) by ring.
    assert (0 <= (1 - p) * (1 - p) <= 1) by nra. nra. }
  lra.
Qed.

Lemma between_by_fraction (a b e : R) :
  0 <= e <= 1 -> Rmin a b <= a + (b - a) * e <= Rmax a b.
Proof.
  intros He. unfold Rmin, Rmax. destruct (Rle_dec a b); nra.
Qed.

(** Opens [tweenFrame] up to the computation of the eased progress. *)
Ltac open_tweenFrame :=
  match goal with
  | |- context [Viewer.tweenFrame ?e ?t ?d ?sv ?st ?oc ?s0] =>
      let body := eval cbv beta delta [Viewer.tweenFrame] in
                    (Viewer.tweenFrame e t d sv st oc s0) in
      open_lets 3%nat body
        ltac:(fun body' => change (Viewer.tweenFrame e t d sv st oc s0) with body')
  end.

Ltac tween_finish :=
  eexists; repeat split; try reflexivity;
  try (intros; first [ contradiction | discriminate | lra | cbn; ring
                     | eexists; repeat split; cbn; try reflexivity; lra ]).

(** A frame of the tween before its end. *)
Lemma tweenFrame_running (env : Viewer.Env) (target duration startValue startTime : R)
    (onComplete : option Viewer.Completion) (s : Viewer.State) (pts : Viewer.Points) :
  Viewer.currentPoints s = Some pts ->
  0 < duration ->
  0 <= Viewer.now env - startTime < duration ->
  let progress := (Viewer.now env - startTime) / duration in
  let s' := Viewer.tweenFrame env target duration startValue startTime onComplete s in
  exists pts',
    Viewer.currentPoints s' = Some pts' /\
    Viewer.uProgress (Viewer.uniforms pts')
      = startValue + (target - startValue) * (1 - (1 - progress) ^ 4) /\
    Viewer.geometry pts' = Viewer.geometry pts /\
    Viewer.animationId s' = Some (Viewer.rafNext s) /\
    Viewer.rafPending s' =
      <[Viewer.rafNext s :=
          Viewer.TweenFrame target duration startValue startTime onComplete]>
        (Viewer.rafPending s) /\
    Viewer.isAnimating s' = Viewer.isAnimating s /\
    (target = 1 -> forall m, Viewer.currentMesh s = Some m ->
       exists m', Viewer.currentMesh s' = Some m' /\
                  Viewer.uOpacity (Viewer.uniforms pts') + Viewer.opacity m' = 1) /\
    (target = 0 -> progress > 0.6 -> Viewer.containerVisible s' = false) /\
    (progress <= 0.6 -> Viewer.containerVisible s' = Viewer.containerVisible s).
Proof.
  intros Hp Hd He frac s'. subst s'.
  assert (Hfrac : 0 <= frac < 1).
  { subst frac. split; [apply Rle_mult_inv_pos; lra|].
    apply Rmult_lt_reg_r with (r := duration); [assumption|].
    replace ((Viewer.now env - startTime) / duration * duration)
      with (Viewer.now env - startTime) by (field; lra). lra. }
  open_tweenFrame.
  assert (Hpr : progress = frac) by (subst progress elapsed frac; apply Rmin_left; lra).
  clearbody progress. subst progress. subst easedProgress. clear elapsed.
  destruct (Rlt_dec frac 1) as [_|Hn]; [|lra].
  destruct (Req_dec_T target 0), (Req_dec_T target 1), (Rgt_dec frac 0.6);
    destruct s; cbn in Hp; subst currentPoints;
    destruct containerVisible, currentMesh; cbn;
    try destruct (Rgt_dec _ _); cbn;
    tween_finish.
Qed.

(** The last frame of a tween that has no completion callback. *)
Lemma tweenFrame_last (env : Viewer.Env) (target duration startValue startTime : R)
    (s : Viewer.State) (pts : Viewer.Points) :
  Viewer.currentPoints s = Some pts ->
  0 < duration ->
  duration <= Viewer.now env - startTime ->
  let s' := Viewer.tweenFrame env target duration startValue startTime None s in
  exists pts',
    Viewer.currentPoints s' = Some pts' /\
    Viewer.uProgress (Viewer.uniforms pts') = target /\
    Viewer.geometry pts' = Viewer.geometry pts /\
    Viewer.isAnimating s' = false /\
    Viewer.rafPending s' = Viewer.rafPending s /\
    Viewer.animationId s' = Viewer.animationId s /\
    (target = 1 ->
       Viewer.points_visible pts' = false /\
       forall m, Viewer.currentMesh s = Some m ->
         exists m', Viewer.currentMesh s' = Some m' /\
                    Viewer.uOpacity (Viewer.uniforms pts') + Viewer.opacity m' = 1 /\
                    Viewer.mesh_visible m' = true /\ Viewer.opacity m' = 1) /\
    (target = 0 -> Viewer.containerVisible s' = false).
Proof.
  intros Hp Hd He s'. subst s'.
  assert (Hfrac : 1 <= (Viewer.now env - startTime) / duration).
  { apply Rmult_le_reg_r with (r := duration); [assumption|].
    replace ((Viewer.now env - startTime) / duration * duration)
      with (Viewer.now env - startTime) by (field; lra). lra. }
  open_tweenFrame.
  assert (Hpr : progress = 1) by (subst progress elapsed; apply Rmin_right; lra).
  clearbody progress. subst progress. subst easedProgress. clear elapsed.
  destruct (Rlt_dec 1 1) as [Hn|_]; [lra|].
  destruct (Rgt_dec 1 0.6) as [_|Hn]; [|lra].
  destruct (Req_dec_T target 0), (Req_dec_T target 1);
    destruct s; cbn in Hp; subst currentPoints;
    destruct containerVisible, currentMesh; cbn -[pow];
    try destruct (Rgt_dec _ _); cbn -[pow];
    eexists; repeat split; try reflexivity;
    try (intros;
         first [ contradiction | discriminate | lra | ring | cbn; ring
               | eexists; repeat split; cbn; try reflexivity; lra ]).
Qed.

(** X21: A frame of a tween puts [uProgress] between the value the tween
    started from and its target, following the quartic ease-out; as long as
    the duration has not elapsed it asks for exactly one further frame and
    records its id, and the geometry of the points is not touched.  The
    frame at or after the end of the duration puts [uProgress] on the
    target, clears [isAnimating] and asks for no frame. *)
Theorem tween_frame_interpolates (env : Viewer.Env)
    (target duration startValue startTime : R) (s : Viewer.State) (pts : Viewer.Points) :
  Viewer.currentPoints s = Some pts ->
  0 < duration ->
  0 <= Viewer.now env - startTime ->
  let s' := Viewer.tweenFrame env target duration startValue startTime None s in
  exists pts',
    Viewer.currentPoints s' = Some pts' /\
    Viewer.geometry pts' = Viewer.geometry pts /\
    Rmin startValue target <= Viewer.uProgress (Viewer.uniforms pts')
      <= Rmax startValue target /\
    (Viewer.now env - startTime < duration ->
     Viewer.animationId s' = Some (Viewer.rafNext s) /\
     Viewer.rafPending s' =
       <[Viewer.rafNext s := Viewer.TweenFrame target duration startValue startTime None]>
         (Viewer.rafPending s) /\
     Viewer.isAnimating s' = Viewer.isAnimating s) /\
    (duration <= Viewer.now env - startTime ->
     Viewer.uProgress (Viewer.uniforms pts') = target /\
     Viewer.isAnimating s' = false /\
     Viewer.rafPending s' = Viewer.rafPending s).
Proof.
  intros Hp Hd He s'.
  destruct (Rlt_le_dec (Viewer.now env - startTime) duration) as [Hlt|Hge].
  - destruct (tweenFrame_running env target duration startValue startTime None s pts
                Hp Hd (conj He Hlt))
      as (pts' & H1 & H2 & H3 & H4 & H5 & H6 & _).
    exists pts'. split; [exact H1|]. split; [exact H3|]. split.
    + rewrite H2. apply between_by_fraction. apply eased_range.
      split; [apply Rle_mult_inv_pos; lra|].
      apply Rmult_le_reg_r with (r := duration); [assumption|].
      replace ((Viewer.now env - startTime) / duration * duration)
        with (Viewer.now env - startTime) by (field; lra). lra.
    + split; [intros _; repeat split; assumption | intros Hc; lra].
  - destruct (tweenFrame_last env target duration startValue startTime s pts Hp Hd Hge)
      as (pts' & H1 & H2 & H3 & H4 & H5 & _).
    exists pts'. split; [exact H1|]. split; [exact H3|]. split.
    + rewrite H2. unfold Rmin, Rmax. destruct (Rle_dec startValue target); lra.
    + split; [intros Hc; lra | intros _; repeat split; assumption].
Qed.

(** X22: While the viewer opens, points and mesh cross-fade: after every
    frame of the tween towards 1, the opacity of the points and the
    opacity of the mesh add up to 1.  After the last frame the points are
    hidden and the mesh is shown at full opacity. *)
Theorem opening_crossfade_sums_to_one (env : Viewer.Env)
    (duration startValue startTime : R) (s : Viewer.State)
    (pts : Viewer.Points) (m : Viewer.Mesh) :
  Viewer.currentPoints s = Some pts ->
  Viewer.currentMesh s = Some m ->
  0 < duration ->
  0 <= Viewer.now env - startTime ->
  let s' := Viewer.tweenFrame env 1 duration startValue startTime None s in
  exists pts' m',
    Viewer.currentPoints s' = Some pts' /\
    Viewer.currentMesh s' = Some m' /\
    Viewer.uOpacity (Viewer.uniforms pts') + Viewer.opacity m' = 1 /\
    (duration <= Viewer.now env - startTime ->
     Viewer.points_visible pts' = false /\
     Viewer.mesh_visible m' = true /\ Viewer.opacity m' = 1).
Proof.
  intros Hp Hm Hd He s'.
  destruct (Rlt_le_dec (Viewer.now env - startTime) duration) as [Hlt|Hge].
  - destruct (tweenFrame_running env 1 duration startValue startTime None s pts
                Hp Hd (conj He Hlt))
      as (pts' & H1 & _ & _ & _ & _ & _ & H7 & _).
    destruct (H7 eq_refl m Hm) as (m' & Hm' & Hsum).
    exists pts', m'. repeat split; try assumption; lra.
  - destruct (tweenFrame_last env 1 duration startValue startTime s pts Hp Hd Hge)
      as (pts' & H1 & _ & _ & _ & _ & _ & H7 & _).
    destruct (H7 eq_refl) as (Hvis & Hmesh).
    destruct (Hmesh m Hm) as (m' & Hm' & Hsum & Hmv & Hmo).
    exists pts', m'. repeat split; assumption.
Qed.

(** X23: While the viewer closes, the container stays as it is during the
    first 60 % of the tween towards 0 and is hidden by the first frame
    past that point. *)
Theorem closing_hides_container_past_60_percent (env : Viewer.Env)
    (duration startValue startTime : R) (onComplete : option Viewer.Completion)
    (s : Viewer.State) (pts : Viewer.Points) :
  Viewer.currentPoints s = Some pts ->
  0 < duration ->
  0 <= Viewer.now env - startTime < duration ->
  let progress := (Viewer.now env - startTime) / duration in
  let s' := Viewer.tweenFrame env 0 duration startValue startTime onComplete s in
  (progress <= 0.6 -> Viewer.containerVisible s' = Viewer.containerVisible s) /\
  (progress > 0.6 -> Viewer.containerVisible s' = false).
Proof.
  intros Hp Hd He progress s'.
  destruct (tweenFrame_running env 0 duration startValue startTime onComplete s pts
              Hp Hd He)
    as (pts' & _ & _ & _ & _ & _ & _ & _ & H8 & H9).
  split; [exact H9 | exact (H8 eq_refl)].
Qed.

Lemma tween_frame_interpolates_witness :
  exists pts',
    Viewer.currentPoints
      (Viewer.tweenFrame (sample_env 500 false) 1 2000 0 0 None sample_open) = Some pts' /\
    Rmin 0 1 <= Viewer.uProgress (Viewer.uniforms pts') <= Rmax 0 1.
Proof.
  destruct (tween_frame_interpolates (sample_env 500 false) 1 2000 0 0 sample_open
              sample_points eq_refl ltac:(lra) ltac:(cbn; lra))
    as (pts' & H1 & _ & H2 & _).
  exists pts'. split; [exact H1 | exact H2].
Defined.

Lemma opening_crossfade_sums_to_one_witness :
  exists pts' m',
    Viewer.currentPoints
      (Viewer.tweenFrame (sample_env 500 false) 1 2000 0 0 None sample_open) = Some pts' /\
    Viewer.currentMesh
      (Viewer.tweenFrame (sample_env 500 false) 1 2000 0 0 None sample_open) = Some m' /\
    Viewer.uOpacity (Viewer.uniforms pts') + Viewer.opacity m' = 1.
Proof.
  destruct (opening_crossfade_sums_to_one (sample_env 500 false) 2000 0 0 sample_open
              sample_points sample_mesh eq_refl eq_refl ltac:(lra) ltac:(cbn; lra))
    as (pts' & m' & H1 & H2 & H3 & _).
  exists pts', m'. repeat split; assumption.
Defined.

Lemma closing_hides_container_past_60_percent_witness :
  Viewer.containerVisible
    (Viewer.tweenFrame (sample_env 900 false) 0 1200 1 0 (Some Viewer.OnCloseComplete)
       sample_open) = false.
Proof.
  refine (proj2 (closing_hides_container_past_60_percent (sample_env 900 false) 1200 1 0
                   (Some Viewer.OnCloseComplete) sample_open sample_points eq_refl _ _) _).
  - lra.
  - cbn. lra.
  - cbn. lra.
Defined.

(** ** Fragment shader *)

Lemma smoothstep_range (edge0 edge1 x : R) : 0 <= smoothstep edge0 edge1 x <= 1.
Proof.
  unfold smoothstep. cbv zeta.
  set (t := clamp _ 0 1).
  assert (Ht : 0 <= t <= 1).
  { subst t. unfold clamp, Rmin, Rmax.
    destruct (Rle_dec _ 0); destruct (Rle_dec _ 1); lra. }
  assert (H1 : 0 <= t * t) by nra.
  assert (H2 : 0 <= (1 - t) * (1 - t)) by nra.
  assert (H3 : 0 <= t * t * (3 - 2 * t)) by (apply Rmult_le_pos; lra).
  assert (H4 : 0 <= (1 - t) * (1 - t) * (1 + 2 * t)) by (apply Rmult_le_pos; lra).
  split; [exact H3|].
  replace (t * t * (3 - 2 * t)) with (1 - (1 - t) * (1 - t) * (1 + 2 * t)) by ring.
  lra.
Qed.

Lemma smoothstep_at_edge0 (edge1 : R) : 0 < edge1 -> smoothstep 0 edge1 0 = 0.
Proof.
  intros H. unfold smoothstep. cbv zeta.
  replace ((0 - 0) / (edge1 - 0)) with 0 by (field; lra).
  unfold clamp. rewrite Rmax_left by lra. rewrite Rmin_left by lra. ring.
Qed.

Lemma mix_at_zero (x y : R) : mix x y 0 = x.
Proof. unfold mix. ring. Qed.

Lemma vec2_shift_zero (uv : Fragment.vec2) :
  Fragment.add2 uv (Fragment.Vec2 (0 * 0.02) 0) = uv /\
  Fragment.sub2 uv (Fragment.Vec2 (0 * 0.02) 0) = uv.
Proof.
  destruct uv as [x y]. unfold Fragment.add2, Fragment.sub2. cbn.
  split; f_equal; ring.
Qed.

(** X24: Without dispersion the fragment shader shows the image unaltered:
    no glitch, no colour split and no glow.  The colour of a fragment that
    is not discarded is the blend, by [uTextureMix], of the texels the two
    textures hold at the particle's own uv, so the current texture alone
    at mix 0; its alpha is the blended texel alpha scaled by the shape
    mask, the particle's progress and [uOpacity]. *)
Theorem fragment_without_dispersion (u : Fragment.Uniforms) (v : Fragment.Varyings)
    (gl_PointCoord : Fragment.vec2) (c : Fragment.vec4) :
  Fragment.uDispersion u = 0 ->
  Fragment.main u v gl_PointCoord = Some c ->
  let texel := Fragment.mix4 (Fragment.uTexture u (Fragment.vUv v))
                 (Fragment.uTextureNext u (Fragment.vUv v)) (Fragment.uTextureMix u) in
  Fragment.red c = Fragment.red texel /\
  Fragment.green c = Fragment.green texel /\
  Fragment.blue c = Fragment.blue texel /\
  0.1 <= Fragment.alpha texel /\
  (Fragment.uTextureMix u = 0 ->
   Fragment.red c = Fragment.red (Fragment.uTexture u (Fragment.vUv v)) /\
   Fragment.green c = Fragment.green (Fragment.uTexture u (Fragment.vUv v)) /\
   Fragment.blue c = Fragment.blue (Fragment.uTexture u (Fragment.vUv v))) /\
  exists shapeAlpha,
    0.01 <= shapeAlpha <= 1 /\
    Fragment.alpha c
      = Fragment.alpha texel * (shapeAlpha * Fragment.vProgress v * Fragment.uOpacity u).
Proof.
  intros Hd. unfold Fragment.main. rewrite Hd. cbv zeta.
  destruct (Rgt_dec 0 0.01) as [Hgt|_]; [lra|].
  unfold Fragment.splitSample.
  destruct (vec2_shift_zero (Fragment.vUv v)) as [-> ->].
  rewrite (smoothstep_at_edge0 0.2) by lra.
  rewrite !Rmult_0_r, !mix_at_zero, Rplus_0_r.
  set (texel := Fragment.mix4 _ _ _).
  destruct (Rlt_dec (Fragment.alpha texel) 0.1) as [|Ha]; [discriminate|].
  match goal with
  | |- context [Rlt_dec ?a 0.01] =>
      set (shapeAlpha := a); destruct (Rlt_dec shapeAlpha 0.01) as [|Hs]; [discriminate|]
  end.
  intros [= <-]. cbn.
  assert (Hr : 0 <= shapeAlpha <= 1) by apply smoothstep_range.
  split; [reflexivity|]. split; [reflexivity|]. split; [reflexivity|].
  split; [apply Rnot_lt_le; exact Ha|]. split.
  - intros Hm. subst texel. unfold Fragment.mix4. cbn.
    rewrite Hm, !mix_at_zero. repeat split.
  - exists shapeAlpha. split; [|reflexivity].
    split; [apply Rnot_lt_le; exact Hs | apply Hr].
Qed.

(** The fragment at the centre of the sample sprite is drawn. *)
Lemma sample_fragment_drawn (mixing : R) :
  exists c,
    Fragment.main (sample_fragment_uniforms mixing) sample_fragment_varyings
      (Fragment.Vec2 0.5 0.5) = Some c.
Proof.
  unfold Fragment.main, sample_fragment_uniforms, sample_fragment_varyings.
  cbn [Fragment.uDispersion Fragment.uTexture Fragment.uTextureNext Fragment.uTime
       Fragment.uTextureMix Fragment.uOpacity Fragment.vUv Fragment.vProgress
       Fragment.vRotation Fragment.vShapeMix Fragment.vVelocity Fragment.vRandom].
  cbv zeta.
  destruct (Rgt_dec 0 0.01) as [Hgt|_]; [lra|].
  unfold Fragment.splitSample, Fragment.mix4, Fragment.length2, Fragment.sub2,
    Fragment.mat2_mul. cbn [Fragment.red Fragment.green Fragment.blue Fragment.alpha
                             Fragment.x2 Fragment.y2].
  replace (mix 1 1 mixing) with 1 by (unfold mix; ring).
  destruct (Rlt_dec 1 0.1) as [Hlt|_]; [lra|].
  replace (0 * 0 + 0 * 0) with 0 by ring. rewrite sqrt_0.
  destruct (Rgt_dec 0 0.0001) as [Hgt|_]; [lra|].
  cbn [Fragment.x2 Fragment.y2].
  rewrite sin_0, cos_0.
  replace (0.5 - 0.5) with 0 by ring.
  replace (1 * 0 + 0 * 0) with 0 by ring.
  replace (- 0 * 0 + 1 * 0) with 0 by ring.
  rewrite Rabs_R0, (Rmax_left 0 0) by lra.
  unfold Frag.targetShapeDist, Frag.selectShape.
  destruct (Rlt_dec 0 (-0.2)) as [Hlt|_]; [lra|].
  destruct (Rgt_dec 0 0.2) as [Hgt|_]; [lra|].
  replace (mix 0 0 0) with 0 by (unfold mix; ring).
  rewrite (smoothstep_at_edge0 0.05), (smoothstep_at_edge0 0.2) by lra.
  replace (0 / (1 + 0 * 1 * 0)) with 0 by (field; lra).
  assert (Hs1 : smoothstep 0.5 0.2 0 = 1).
  { unfold smoothstep, clamp. cbv zeta.
    replace ((0 - 0.5) / (0.2 - 0.5)) with (5 / 3) by lra.
    rewrite (Rmax_left (5 / 3) 0) by lra. rewrite (Rmin_right (5 / 3) 1) by lra. ring. }
  rewrite Hs1.
  destruct (Rlt_dec 1 0.01) as [Hlt|_]; [lra|].
  eexists. reflexivity.
Qed.

Lemma fragment_without_dispersion_witness :
  exists c,
    Fragment.main (sample_fragment_uniforms 0) sample_fragment_varyings
      (Fragment.Vec2 0.5 0.5) = Some c /\
    Fragment.red c = Fragment.red (Fragment.Vec4 0.8 0.4 0.2 1).
Proof.
  destruct (sample_fragment_drawn 0) as [c Hc]. exists c. split; [exact Hc|].
  destruct (fragment_without_dispersion (sample_fragment_uniforms 0)
              sample_fragment_varyings (Fragment.Vec2 0.5 0.5) c eq_refl Hc)
    as (_ & _ & _ & _ & H & _).
  exact (proj1 (H eq_refl)).
Defined.

(** X25: The alpha the fragment shader writes never exceeds that of the
    blended texel, the mix by [uTextureMix] of the alphas the two textures
    have at the sampling point ([vUv], shifted by the noise while
    [uDispersion] is above 0.01), which is at least 0.1 for a fragment that
    is drawn.  The alpha is 0 for a particle that has not started
    ([vProgress] 0) or whose points are faded out ([uOpacity] 0): such a
    fragment leaves what is drawn below it untouched. *)
Theorem fragment_alpha_bounded (u : Fragment.Uniforms) (v : Fragment.Varyings)
    (gl_PointCoord : Fragment.vec2) (c : Fragment.vec4) :
  0 <= Fragment.vProgress v <= 1 ->
  0 <= Fragment.uOpacity u <= 1 ->
  Fragment.main u v gl_PointCoord = Some c ->
  let uv :=
    if Rgt_dec (Fragment.uDispersion u) 0.01 then
      Fragment.Vec2
        (Fragment.x2 (Fragment.vUv v)
         + sin (Fragment.y2 (Fragment.vUv v) * 50 + Fragment.uTime u * 30)
           * cos (Fragment.x2 (Fragment.vUv v) * 20) * 0.05 * Fragment.uDispersion u)
        (Fragment.y2 (Fragment.vUv v))
    else Fragment.vUv v in
  let texelAlpha :=
    Fragment.alpha (Fragment.uTexture u uv) * (1 - Fragment.uTextureMix u)
    + Fragment.alpha (Fragment.uTextureNext u uv) * Fragment.uTextureMix u in
  0.1 <= texelAlpha /\
  0 <= Fragment.alpha c <= texelAlpha /\
  (Fragment.vProgress v = 0 \/ Fragment.uOpacity u = 0 -> Fragment.alpha c = 0).
Proof.
  intros Hp Ho. unfold Fragment.main. cbv zeta.
  match goal with
  | |- context [Rlt_dec ?a 0.1] =>
      set (texelAlpha := a); destruct (Rlt_dec texelAlpha 0.1) as [|Ha]; [discriminate|]
  end.
  match goal with
  | |- context [Rlt_dec ?a 0.01] =>
      set (shapeAlpha := a); destruct (Rlt_dec shapeAlpha 0.01) as [|Hs]; [discriminate|]
  end.
  intros [= <-]. cbn [Fragment.alpha].
  assert (Hr : 0 <= shapeAlpha <= 1) by apply smoothstep_range.
  apply Rnot_lt_le in Ha.
  change (Fragment.alpha _ * (1 - Fragment.uTextureMix u)
          + Fragment.alpha _ * Fragment.uTextureMix u) with texelAlpha.
  split; [exact Ha|].
  assert (Hm : 0 <= shapeAlpha * Fragment.vProgress v * Fragment.uOpacity u <= 1).
  { assert (0 <= shapeAlpha * Fragment.vProgress v <= 1) by nra. nra. }
  split; [nra|].
  intros [E|E]; rewrite E; ring.
Qed.

(** Both sample textures are opaque, so the blended texel has alpha 1. *)
Lemma fragment_alpha_bounded_witness :
  exists c,
    Fragment.main (sample_fragment_uniforms 0) sample_fragment_varyings
      (Fragment.Vec2 0.5 0.5) = Some c /\
    0 <= Fragment.alpha c <= 1.
Proof.
  destruct (sample_fragment_drawn 0) as [c Hc].
  destruct (fragment_alpha_bounded (sample_fragment_uniforms 0) sample_fragment_varyings
              (Fragment.Vec2 0.5 0.5) c ltac:(cbn; lra) ltac:(cbn; lra) Hc)
    as (_ & H & _).
  exists c. split; [exact Hc |].
  cbn in H. destruct (Rgt_dec 0 0.01) as [Hgt|_]; [lra |]. cbn in H. lra.
Defined.

(** ** Teardown *)

Lemma filter_all_listeners (l : gset nat) :
  filter (fun id : nat => (∅ : gmap nat Viewer.Handlers) !! id = None) l = l.
Proof.
  apply set_eq. intros x. rewrite elem_of_filter, lookup_empty. tauto.
Qed.

(** Evaluation of the teardown methods on a state given field by field. *)
Ltac v_eval :=
  lazy beta iota zeta delta
    [Viewer.destroy Viewer.cleanupScene Viewer.emit Viewer.cancelAnimationFrame
     Viewer.config Viewer.images Viewer.captionElement Viewer.dotsContainer
     Viewer.paginationStartIndex Viewer.THREE Viewer.scene Viewer.clock Viewer.camera
     Viewer.renderer Viewer.currentPoints Viewer.currentMesh Viewer.isAnimating
     Viewer.sourceImage Viewer.animationId Viewer.renderId Viewer.currentIndex
     Viewer.imageWidth Viewer.imageHeight Viewer.imageHandlers Viewer.containerVisible
     Viewer.bodyOverflow Viewer.activeElement Viewer.backgrounds Viewer.listenersBound
     Viewer.itemListeners Viewer.rafNext Viewer.rafPending Viewer.timeouts
     Viewer.nodeNext Viewer.trace].

(** Nothing is left for [destroy] to do on a hidden viewer without requests,
    points, renderer, listeners and backgrounds. *)
Lemma viewer_destroy_closed (s : Viewer.State) :
  Viewer.containerVisible s = false ->
  Viewer.animationId s = None ->
  Viewer.renderId s = None ->
  Viewer.isAnimating s = false ->
  Viewer.currentPoints s = None \/ Viewer.scene s = None ->
  Viewer.renderer s = None ->
  Viewer.listenersBound s = false ->
  Viewer.imageHandlers s = ∅ ->
  Viewer.backgrounds s = [] ->
  Viewer.destroy s = s.
Proof.
  destruct s as [cfg imgs cap dots psi three scn clk cam rnd pts mesh anim src aid rid ci
                 iw ih hnd vis ovf ae bgs lb il rn rp tos nn tr].
  cbn. intros -> -> -> -> Hps -> -> -> ->.
  destruct Hps as [-> | ->]; [| destruct pts]; v_eval;
    rewrite filter_all_listeners; reflexivity.
Qed.

Lemma viewer_destroy_fields (s : Viewer.State) :
  Viewer.containerVisible (Viewer.destroy s) = false /\
  Viewer.animationId (Viewer.destroy s) = None /\
  Viewer.renderId (Viewer.destroy s) = None /\
  Viewer.isAnimating (Viewer.destroy s) = false /\
  Viewer.renderer (Viewer.destroy s) = None /\
  Viewer.listenersBound (Viewer.destroy s) = false /\
  Viewer.imageHandlers (Viewer.destroy s) = ∅ /\
  Viewer.backgrounds (Viewer.destroy s) = [] /\
  (Viewer.currentPoints (Viewer.destroy s) = None \/ Viewer.scene (Viewer.destroy s) = None) /\
  (session_wf s ->
   Viewer.currentPoints (Viewer.destroy s) = None /\
   Viewer.currentMesh (Viewer.destroy s) = None).
Proof.
  unfold session_wf.
  destruct s as [cfg imgs cap dots psi three scn clk cam rnd pts mesh anim src aid rid ci
                 iw ih hnd vis ovf ae bgs lb il rn rp tos nn tr].
  cbn [Viewer.currentPoints Viewer.scene Viewer.currentMesh].
  destruct vis, aid, rid, rnd, pts as [p|], scn, mesh; v_eval;
    try destruct (Viewer.same_texture _ _);
    (do 8 (split; [reflexivity |]));
    (split; [first [left; reflexivity | right; reflexivity] |]);
    intros [H1 H2]; try (split; reflexivity);
    try (destruct H1 as [? [=]]; eexists; reflexivity);
    try (destruct H2 as [? [=]]; eexists; reflexivity).
Qed.

(** C10: [destroy] is idempotent: on every state of the viewer a second call
    changes nothing, not even the record of the calls made on the outside.
    After the first call the renderer and both animation-frame handles are
    null and the handler map is empty; the points and the mesh are null as
    well in every state where points exist only inside a scene and a mesh
    only next to its points, which is how [open] creates them. *)
Theorem destroy_idempotent (s : Viewer.State) :
  Viewer.destroy (Viewer.destroy s) = Viewer.destroy s /\
  Viewer.renderer (Viewer.destroy s) = None /\
  Viewer.animationId (Viewer.destroy s) = None /\
  Viewer.renderId (Viewer.destroy s) = None /\
  Viewer.imageHandlers (Viewer.destroy s) = ∅ /\
  (session_wf s ->
   Viewer.currentPoints (Viewer.destroy s) = None /\
   Viewer.currentMesh (Viewer.destroy s) = None).
Proof.
  destruct (viewer_destroy_fields s)
    as (Hv & Ha & Hr & Hi & Hrn & Hl & Hh & Hb & Hps & Hwf).
  split; [now apply viewer_destroy_closed |].
  repeat split; try assumption; now apply Hwf.
Qed.

(** Destroying the open sample viewer releases its points and its mesh, and
    a second call makes no call on the outside. *)
Lemma destroy_idempotent_witness :
  Viewer.currentPoints (Viewer.destroy sample_open) = None /\
  Viewer.currentMesh (Viewer.destroy sample_open) = None /\
  Viewer.trace (Viewer.destroy (Viewer.destroy sample_open))
    = Viewer.trace (Viewer.destroy sample_open).
Proof.
  destruct (destroy_idempotent sample_open) as (Hid & _ & _ & _ & _ & Hwf).
  destruct Hwf as [Hp Hm].
  - split; intros _; eexists; reflexivity.
  - split; [exact Hp |]. split; [exact Hm |]. rewrite Hid. reflexivity.
Defined.
